(** * The Gigi render-graph interpreter: variable evaluation and execution driver

    A shallow embedding of [IGigiInterpreter] and [VariableStorage]
    (GigiInterpreter header, Electronic Arts "Gigi" suite), and the
    properties of it that the specification states.

    Conventions.
    - A C++ [enum class] is a module holding an inductive type [t].
    - Machine integers are mathematical integers ([Z]) kept in the range of
      their type by an explicit wrap-around ([wrap]).
    - Raw storage ([void*], [std::vector<char>]) is a list of bytes; typed
      access goes through little-endian encoding.
    - Code that can fault (an out-of-range index, a trapping division)
      returns [None]. *)

From Stdlib Require Import ZArith String Ascii List Lia Bool.
From Stdlib Require Import Strings.Byte.
From Stdlib Require Import Floats.SpecFloat.
From stdpp Require Import base option list gmap strings pretty functions.

Local Open Scope Z_scope.

(** ** Enumerations of the schema *)

Module NodeAction.
Inductive t := Init | Execute.
End NodeAction.

(** The cases of [SetVariableOperator] that [DoOp] switches over. *)
Module SetVariableOperator.
Inductive t :=
  | Add | Subtract | Multiply | Divide | Modulo
  | BitwiseOr | BitwiseAnd | BitwiseXor | BitwiseNot
  | PowerOf2GE | Noop.
End SetVariableOperator.

(** [ConditionComparison]; [Count] is the "unset" value. *)
Module ConditionComparison.
Inductive t := IsTrue | IsFalse | Equals | NotEquals | LT | LTE | GT | GTE | Count.

#[global] Instance eq_dec : EqDecision t.
Proof. solve_decision. Defined.
End ConditionComparison.

(** The build flavors of GigiBuildFlavorList.h, named BACKEND_FLAVOR. *)
Module GigiBuildFlavor.
Inductive t := DX12_Module | DX12_Application | Interpreter_Interpreter.
End GigiBuildFlavor.

(** ** Machine integers *)

(** The three instantiations of the generic [DoOp<T>]. *)
Inductive IntType := I32 | U16 | U32.

Definition int_min (T : IntType) : Z :=
  match T with I32 => - 2 ^ 31 | U16 => 0 | U32 => 0 end.

Definition int_max (T : IntType) : Z :=
  match T with I32 => 2 ^ 31 - 1 | U16 => 2 ^ 16 - 1 | U32 => 2 ^ 32 - 1 end.

Definition in_range (T : IntType) (z : Z) : Prop := int_min T <= z <= int_max T.

Definition in_rangeb (T : IntType) (z : Z) : bool :=
  (int_min T <=? z) && (z <=? int_max T).

(** Conversion of an integer to [T]: reduction modulo the width (two's
    complement for [int]). *)
Definition wrap (T : IntType) (z : Z) : Z :=
  match T with
  | I32 => (z + 2 ^ 31) mod 2 ^ 32 - 2 ^ 31
  | U16 => z mod 2 ^ 16
  | U32 => z mod 2 ^ 32
  end.

(** [A / B] of C++: truncating division; it traps when [B] is zero and when
    the quotient does not fit ([INT_MIN / -1]). *)
Definition c_div (T : IntType) (A B : Z) : option Z :=
  if B =? 0 then None
  else if in_rangeb T (Z.quot A B) then Some (Z.quot A B) else None.

(** [A % B] of C++: the remainder of the truncating division, which traps
    wherever the division does. *)
Definition c_rem (T : IntType) (A B : Z) : option Z :=
  if B =? 0 then None
  else if in_rangeb T (Z.quot A B) then Some (Z.rem A B) else None.

(** ** The single-precision library

    [float] arithmetic and the <cmath> functions the interpreter calls
    ([std::log2], [std::ceilf], [std::pow], [std::fmod]) belong to the
    platform. The interpreter is written against this interface; [Binary32]
    below is an IEEE 754 instance of it. *)
Class FloatLib := {
  float : Type;
  (** [float(A)] for an integer [A] *)
  f_of_Z : Z -> float;
  (** truncation toward zero, the value of [(T)x] when it is representable;
      [None] for infinities and NaN *)
  f_to_Z : float -> option Z;
  (** the four stored bytes read as a pattern of 32 bits, and back *)
  f_of_bits : Z -> float;
  f_to_bits : float -> Z;
  f_add : float -> float -> float;
  f_sub : float -> float -> float;
  f_mul : float -> float -> float;
  f_div : float -> float -> float;
  f_fmod : float -> float -> float;
  f_log2 : float -> float;
  f_ceil : float -> float;
  f_pow : float -> float -> float;
  f_eqb : float -> float -> bool;
  f_ltb : float -> float -> bool;
  f_leb : float -> float -> bool
}.

(** [(T)x] for a float [x]: the truncated value, undefined when it is not a
    value of [T]. *)
Definition float_to_int `{FloatLib} (T : IntType) (x : float) : option Z :=
  match f_to_Z x with
  | Some z => if in_rangeb T z then Some z else None
  | None => None
  end.

(** ** [DoOp]: one component of a SetVariable statement *)

Section DoOp.
Context `{FL : FloatLib}.

(** The generic template, instantiated at [int], [uint16_t] and [uint32_t].
    The result is the new value of [dest]. *)
Definition DoOp_int (T : IntType) (A B dest : Z) (op : SetVariableOperator.t) : option Z :=
  match op with
  | SetVariableOperator.Add => Some (wrap T (A + B))
  | SetVariableOperator.Subtract => Some (wrap T (A - B))
  | SetVariableOperator.Multiply => Some (wrap T (A * B))
  | SetVariableOperator.Divide => if negb (B =? 0) then c_div T A B else Some 0
  | SetVariableOperator.Modulo => c_rem T A B
  | SetVariableOperator.BitwiseOr => Some (wrap T (Z.lor A B))
  | SetVariableOperator.BitwiseAnd => Some (wrap T (Z.land A B))
  | SetVariableOperator.BitwiseXor => Some (wrap T (Z.lxor A B))
  | SetVariableOperator.BitwiseNot => Some (wrap T (Z.lnot A))
  | SetVariableOperator.PowerOf2GE =>
      let f := f_log2 (f_of_Z A) in
      let f := f_ceil f in
      float_to_int T (f_pow (f_of_Z 2) f)
  | SetVariableOperator.Noop => Some A
  end.

(** The [float] specialization: the bitwise operators have no case and
    leave [dest] as it was. *)
Definition DoOp_float (A B dest : float) (op : SetVariableOperator.t) : float :=
  match op with
  | SetVariableOperator.Add => f_add A B
  | SetVariableOperator.Subtract => f_sub A B
  | SetVariableOperator.Multiply => f_mul A B
  | SetVariableOperator.Divide => f_div A B
  | SetVariableOperator.Modulo => f_fmod A B
  | SetVariableOperator.PowerOf2GE =>
      let f := f_log2 A in
      let f := f_ceil f in
      f_pow (f_of_Z 2) f
  | SetVariableOperator.Noop => A
  | _ => dest
  end.

(** The [bool] specialization: the arithmetic operators have no case. *)
Definition DoOp_bool (A B dest : bool) (op : SetVariableOperator.t) : bool :=
  match op with
  | SetVariableOperator.BitwiseOr => A || B
  | SetVariableOperator.BitwiseAnd => A && B
  | SetVariableOperator.BitwiseXor => xorb A B
  | SetVariableOperator.BitwiseNot => negb A
  | SetVariableOperator.Noop => A
  | _ => dest
  end.

(** ** [DoComparison] *)

Definition DoComparison_int (A B : Z) (op : ConditionComparison.t) : bool :=
  match op with
  | ConditionComparison.IsTrue => negb (A =? 0)
  | ConditionComparison.IsFalse => A =? 0
  | ConditionComparison.Equals => A =? B
  | ConditionComparison.NotEquals => negb (A =? B)
  | ConditionComparison.LT => A <? B
  | ConditionComparison.LTE => A <=? B
  | ConditionComparison.GT => A >? B
  | ConditionComparison.GTE => A >=? B
  | ConditionComparison.Count => false
  end.

Definition DoComparison_float (A B : float) (op : ConditionComparison.t) : bool :=
  match op with
  | ConditionComparison.IsTrue => negb (f_eqb A (f_of_Z 0))
  | ConditionComparison.IsFalse => f_eqb A (f_of_Z 0)
  | ConditionComparison.Equals => f_eqb A B
  | ConditionComparison.NotEquals => negb (f_eqb A B)
  | ConditionComparison.LT => f_ltb A B
  | ConditionComparison.LTE => f_leb A B
  | ConditionComparison.GT => f_ltb B A
  | ConditionComparison.GTE => f_leb B A
  | ConditionComparison.Count => false
  end.

(** On [bool], [false < true]. *)
Definition DoComparison_bool (A B : bool) (op : ConditionComparison.t) : bool :=
  DoComparison_int (Z.b2z A) (Z.b2z B) op.

End DoOp.

(** ** An IEEE 754 binary32 instance of the library

    Values are the Standard Library's [spec_float] at precision 24 and
    maximal exponent 128; addition, subtraction, multiplication, division
    and comparison are its IEEE operations. The <cmath> functions are
    computed in fixed point and rounded to nearest: [log2] by repeated
    squaring of the significand, [pow] as [2^(y * log2 x)], [fmod] and
    [ceil] exactly. *)
Module Binary32.

Definition prec : Z := 24.
Definition emax : Z := 128.

Definition of_Z (z : Z) : spec_float := binary_normalize prec emax z 0 false.

Definition to_Z (x : spec_float) : option Z :=
  match x with
  | S754_zero _ => Some 0
  | S754_finite s m e =>
      Some (cond_Zopp s (if 0 <=? e then Z.pos m * 2 ^ e else Z.pos m / 2 ^ (- e)))
  | _ => None
  end.

Definition of_bits (b : Z) : spec_float :=
  let b := b mod 2 ^ 32 in
  let s := Z.testbit b 31 in
  let e := Z.shiftr b 23 mod 2 ^ 8 in
  let m := b mod 2 ^ 23 in
  if e =? 0 then
    match m with Z.pos p => S754_finite s p (-149) | _ => S754_zero s end
  else if e =? 255 then
    if m =? 0 then S754_infinity s else S754_nan
  else
    match m + 2 ^ 23 with Z.pos p => S754_finite s p (e - 150) | _ => S754_nan end.

(** The bit pattern of a float. [spec_float] has a single NaN, written
    here as the quiet NaN 0x7FC00000: the sign and the payload of a NaN,
    which the hardware chooses and the code copies, are not kept. *)
Definition to_bits (x : spec_float) : Z :=
  let sign (s : bool) := if s then 2 ^ 31 else 0 in
  match x with
  | S754_zero s => sign s
  | S754_infinity s => sign s + 255 * 2 ^ 23
  | S754_nan => 255 * 2 ^ 23 + 2 ^ 22
  | S754_finite s m e =>
      if Z.pos m <? 2 ^ 23 then sign s + Z.pos m
      else sign s + (e + 150) * 2 ^ 23 + (Z.pos m - 2 ^ 23)
  end.

Definition ceil (x : spec_float) : spec_float :=
  match x with
  | S754_finite s m e =>
      if 0 <=? e then x
      else
        let d := 2 ^ (- e) in
        if s then
          let q := Z.pos m / d in
          if q =? 0 then S754_zero true else binary_normalize prec emax (- q) 0 true
        else binary_normalize prec emax ((Z.pos m + d - 1) / d) 0 false
  | _ => x
  end.

(** Fixed point: [frac_bits] bits after the point in results, [work_bits]
    while computing. *)
Definition frac_bits : nat := 48.
Definition work_bits : Z := 96.

(** The first [n] bits of [log2 y] for [y] in [1, 2), given as
    [y * 2^work_bits]; [acc] collects the bits. *)
Fixpoint log2_frac (n : nat) (y acc : Z) : Z :=
  match n with
  | O => acc
  | S n' =>
      let y2 := Z.shiftr (y * y) work_bits in
      if 2 ^ (work_bits + 1) <=? y2
      then log2_frac n' (Z.shiftr y2 1) (2 * acc + 1)
      else log2_frac n' y2 (2 * acc)
  end.

(** [log2 (m * 2^e)] in fixed point, for a positive [m]. *)
Definition log2_fixed (m e : Z) : Z :=
  let n := Z.log2 m in
  (n + e) * 2 ^ Z.of_nat frac_bits + log2_frac frac_bits (m * 2 ^ (work_bits - n)) 0.

Definition log2 (x : spec_float) : spec_float :=
  match x with
  | S754_zero _ => S754_infinity true
  | S754_infinity false => x
  | S754_finite false m e =>
      binary_normalize prec emax (log2_fixed (Z.pos m) e) (- Z.of_nat frac_bits) false
  | _ => S754_nan
  end.

(** [2^t] for [t] in [0, 1) given by its [n] leading bits [bits]: the
    product of the roots [2^(1/2)], [2^(1/4)], ... whose bit is set.
    [root] is the current root and [acc] the product so far, both scaled by
    [2^work_bits]. *)
Fixpoint exp2_frac (n : nat) (bits root acc : Z) : Z :=
  match n with
  | O => acc
  | S n' =>
      let root := Z.sqrt (root * 2 ^ work_bits) in
      let acc := if Z.testbit bits (Z.of_nat n') then Z.shiftr (acc * root) work_bits else acc in
      exp2_frac n' bits root acc
  end.

(** [2^(t / 2^frac_bits)] rounded to nearest. *)
Definition exp2_fixed (t : Z) : spec_float :=
  let n := t / 2 ^ Z.of_nat frac_bits in
  let fr := t mod 2 ^ Z.of_nat frac_bits in
  let m := exp2_frac frac_bits fr (2 * 2 ^ work_bits) (2 ^ work_bits) in
  if n <? - 400 then S754_zero false
  else if 400 <? n then S754_infinity false
  else binary_normalize prec emax m (n - work_bits) false.

(** [pow x y]. Bases that are negative, infinite or NaN, which the
    interpreter never passes, yield NaN. *)
Definition pow (x y : spec_float) : spec_float :=
  match y with
  | S754_zero _ => of_Z 1
  | S754_nan => S754_nan
  | _ =>
    match x with
    | S754_zero false =>
        match y with
        | S754_finite true _ _ | S754_infinity true => S754_infinity false
        | _ => S754_zero false
        end
    | S754_finite false m e =>
        let l := log2_fixed (Z.pos m) e in
        match y with
        | S754_infinity s =>
            if l =? 0 then of_Z 1
            else if xorb s (0 <? l) then S754_infinity false else S754_zero false
        | S754_finite s my ey =>
            let t := cond_Zopp s (if 0 <=? ey then l * Z.pos my * 2 ^ ey
                                  else l * Z.pos my / 2 ^ (- ey)) in
            exp2_fixed t
        | _ => S754_nan
        end
    | _ => S754_nan
    end
  end.

(** [fmod x y]: the remainder of the truncated quotient, which is exact. *)
Definition fmod (x y : spec_float) : spec_float :=
  match x, y with
  | S754_nan, _ | _, S754_nan => S754_nan
  | S754_infinity _, _ => S754_nan
  | _, S754_zero _ => S754_nan
  | _, S754_infinity _ => x
  | S754_zero _, _ => x
  | S754_finite sx mx ex, S754_finite _ my ey =>
      let e := Z.min ex ey in
      let r := Z.rem (Z.pos mx * 2 ^ (ex - e)) (Z.pos my * 2 ^ (ey - e)) in
      if r =? 0 then S754_zero sx else binary_normalize prec emax (cond_Zopp sx r) e sx
  end.

Definition lib : FloatLib := {|
  float := spec_float;
  f_of_Z := of_Z;
  f_to_Z := to_Z;
  f_of_bits := of_bits;
  f_to_bits := to_bits;
  f_add := SFadd prec emax;
  f_sub := SFsub prec emax;
  f_mul := SFmul prec emax;
  f_div := SFdiv prec emax;
  f_fmod := fmod;
  f_log2 := log2;
  f_ceil := ceil;
  f_pow := pow;
  f_eqb := SFeqb;
  f_ltb := SFltb;
  f_leb := SFleb
|}.

#[global] Instance spec_float_eq_dec : EqDecision spec_float.
Proof. solve_decision. Defined.

End Binary32.

(** ** What [PowerOf2GE] is meant to compute *)

(** [r] is the smallest power of two that is at least [A]. *)
Definition smallest_pow2_ge (A r : Z) : Prop :=
  (exists k, 0 <= k /\ r = 2 ^ k) /\ A <= r /\
  forall k, 0 <= k -> A <= 2 ^ k -> r <= 2 ^ k.

(** The single-precision evaluation is exact at [A]: [ceilf (log2 (float A))]
    is the float of the number of bits [A] needs, [pow (2, .)] of that
    exponent is the float of the power, and that float converts back to the
    integer it stands for. *)
Record ExactAt (FL : FloatLib) (A : Z) : Prop := {
  exact_log2 : f_ceil (f_log2 (f_of_Z A)) = f_of_Z (Z.log2_up A);
  exact_pow : f_pow (f_of_Z 2) (f_of_Z (Z.log2_up A)) = f_of_Z (2 ^ Z.log2_up A);
  exact_to_Z : f_to_Z (f_of_Z (2 ^ Z.log2_up A)) = Some (2 ^ Z.log2_up A)
}.

Definition ExactAtb (A : Z) : bool :=
  bool_decide (Binary32.ceil (Binary32.log2 (Binary32.of_Z A)) = Binary32.of_Z (Z.log2_up A))
  && bool_decide (Binary32.pow (Binary32.of_Z 2) (Binary32.of_Z (Z.log2_up A))
                  = Binary32.of_Z (2 ^ Z.log2_up A))
  && bool_decide (Binary32.to_Z (Binary32.of_Z (2 ^ Z.log2_up A)) = Some (2 ^ Z.log2_up A)).

(** ** Enum labels *)

Local Open Scope string_scope.

Record EnumItem := { label : string }.

(** An [Enum] of the render graph: the name it was declared with and its
    items in declaration order. *)
Record Enum := {
  originalName : string;
  items : list EnumItem
}.

(** Text ([const char*], [std::string]) is the sequence of characters
    before the terminating NUL; the pointers handed to these functions are
    not null. *)

(** The [ToLower] lambda: only the letters A to Z change. *)
Definition ToLower (c : ascii) : ascii :=
  let n := nat_of_ascii c in
  if (65 <=? n)%nat && (n <=? 90)%nat then ascii_of_nat (n - 65 + 97) else c.

(** The loop stops at the end of either string and succeeds when it is
    the needle that ended. *)
Fixpoint StringBeginsWithCaseInsensitive (hayStack needle : string) {struct needle} : bool :=
  match needle with
  | EmptyString => true
  | String n needle' =>
      match hayStack with
      | EmptyString => false
      | String h hayStack' =>
          if Ascii.eqb (ToLower h) (ToLower n)
          then StringBeginsWithCaseInsensitive hayStack' needle'
          else false
      end
  end.

(** [_stricmp] of the C runtime ("C" locale): negative, zero or positive as
    the first text is below, equal to or above the second once both are
    lowered. *)
Fixpoint _stricmp (a b : string) : Z :=
  match a, b with
  | EmptyString, EmptyString => 0
  | EmptyString, String _ _ => -1
  | String _ _, EmptyString => 1
  | String x a', String y b' =>
      if Ascii.eqb (ToLower x) (ToLower y) then _stricmp a' b'
      else if (nat_of_ascii (ToLower x) <? nat_of_ascii (ToLower y))%nat then -1 else 1
  end.

(** [p += n] on a character pointer. *)
Fixpoint advance (n : nat) (p : string) : string :=
  match n, p with
  | S n', String _ p' => advance n' p'
  | _, _ => p
  end.

(** The loop of [EnumLabelToValue] from index [i] on; [(int)i] is the
    conversion of the index to [int]. *)
Fixpoint EnumLabelToValue_loop (literalValue : string) (its : list EnumItem) (i : Z) : Z :=
  match its with
  | [] => -1
  | it :: rest =>
      if (_stricmp literalValue (label it) =? 0)%Z
      then wrap I32 i
      else EnumLabelToValue_loop literalValue rest (i + 1)
  end.

Definition EnumLabelToValue (e : Enum) (label : string) : Z :=
  let literalValue := label in
  let enumPrefix := originalName e ++ "::" in
  let literalValue :=
    if StringBeginsWithCaseInsensitive literalValue enumPrefix
    then advance (String.length enumPrefix) literalValue
    else literalValue in
  EnumLabelToValue_loop literalValue (items e) 0.

(** *** The resolution of a label, in the words of the specification *)

(** The alphabet: the lower-case form of each of the 26 capital letters.
    Every other character, the lower-case letters among them, has no other
    case and is its own lower-case form. *)
Definition lower_case (c : ascii) : ascii :=
  match c with
  | "A" => "a" | "B" => "b" | "C" => "c" | "D" => "d" | "E" => "e" | "F" => "f"
  | "G" => "g" | "H" => "h" | "I" => "i" | "J" => "j" | "K" => "k" | "L" => "l"
  | "M" => "m" | "N" => "n" | "O" => "o" | "P" => "p" | "Q" => "q" | "R" => "r"
  | "S" => "s" | "T" => "t" | "U" => "u" | "V" => "v" | "W" => "w" | "X" => "x"
  | "Y" => "y" | "Z" => "z"
  | _ => c
  end%char.

(** A text with every capital letter replaced by its lower-case form. *)
Fixpoint lower (s : string) : string :=
  match s with
  | EmptyString => EmptyString
  | String c s' => String (lower_case c) (lower s')
  end.

(** Two texts are equal case-insensitively: they are the same text once
    the case of the letters is set aside. *)
Definition eq_ci (a b : string) : Prop := lower a = lower b.

(** [s'] is [s] without its leading scope prefix, the declared name of the
    enum followed by "::" in any case, when [s] has one, and [s] itself
    otherwise. *)
Definition scope_stripped (e : Enum) (s s' : string) : Prop :=
  (exists a, s = a ++ s' /\ eq_ci a (originalName e ++ "::"))
  \/ ((forall a b, s = a ++ b -> ~ eq_ci a (originalName e ++ "::")) /\ s' = s).

#[global] Instance eq_ci_dec a b : Decision (eq_ci a b).
Proof. unfold eq_ci. apply _. Defined.

(** The index of the first item whose label equals [s] case-insensitively,
    or the sentinel -1. *)
Definition first_match_index (its : list EnumItem) (s : string) : Z :=
  match list_find (fun it => eq_ci s (label it)) its with
  | Some (i, _) => Z.of_nat i
  | None => -1
  end.

Local Close Scope string_scope.

(** ** The render graph *)

(** [DataFieldType], with the cases [CallForVariable] dispatches on: one
    [CallFor_] function per case. *)
Module DataFieldType.
Inductive t :=
  | Int | Int2 | Int3 | Int4
  | Uint | Uint2 | Uint3 | Uint4
  | Float | Float2 | Float3 | Float4
  | Bool | Float4x4 | Uint_16 | Count.

#[global] Instance eq_dec : EqDecision t.
Proof. solve_decision. Defined.

Definition to_nat (x : t) : nat :=
  match x with
  | Int => 0 | Int2 => 1 | Int3 => 2 | Int4 => 3
  | Uint => 4 | Uint2 => 5 | Uint3 => 6 | Uint4 => 7
  | Float => 8 | Float2 => 9 | Float3 => 10 | Float4 => 11
  | Bool => 12 | Float4x4 => 13 | Uint_16 => 14 | Count => 15
  end%nat.

Definition of_nat (n : nat) : option t :=
  match n with
  | 0 => Some Int | 1 => Some Int2 | 2 => Some Int3 | 3 => Some Int4
  | 4 => Some Uint | 5 => Some Uint2 | 6 => Some Uint3 | 7 => Some Uint4
  | 8 => Some Float | 9 => Some Float2 | 10 => Some Float3 | 11 => Some Float4
  | 12 => Some Bool | 13 => Some Float4x4 | 14 => Some Uint_16 | 15 => Some Count
  | _ => None
  end%nat.

#[global] Instance countable : Countable t.
Proof. apply (inj_countable to_nat of_nat). intros []; reflexivity. Defined.
End DataFieldType.

Module DataFieldComponentType.
Inductive t := _int | _uint16_t | _uint32_t | _float | Count.
End DataFieldComponentType.

(** What [DataFieldTypeInfo] returns; the fields the interpreter reads. *)
Module DataFieldTypeInfoStruct.
Record t := {
  typeBytes : nat;
  componentCount : nat;
  componentType : DataFieldComponentType.t;
  componentType2 : DataFieldType.t
}.
End DataFieldTypeInfoStruct.

(** A variable of the graph. [enumIndex] is -1 when the variable has no
    enum. *)
Module Variable_.
Record t := {
  name : string;
  type : DataFieldType.t;
  dflt : string;
  enumIndex : Z
}.
End Variable_.

(** The node variant. The interpreter itself reads the runtime data of
    texture and buffer resources; the other alternatives of the variant are
    told apart by their index. *)
Inductive NodeKind :=
  | RenderGraphNode_Resource_Texture
  | RenderGraphNode_Resource_Buffer
  | RenderGraphNode_Other (c_index : nat).

#[global] Instance NodeKind_eq_dec : EqDecision NodeKind.
Proof. solve_decision. Defined.

(** A node: the active alternative [_index] and the [name] of its member. *)
Module RenderGraphNode.
Record t := {
  _index : NodeKind;
  name : string
}.
End RenderGraphNode.

Module VariableReference.
Record t := { variableIndex : Z }.
End VariableReference.

(** The node an operand is bound to: each pointer is null ([None]) or
    points to a resource node. *)
Module NodeReference.
Record t := {
  textureNode : option RenderGraphNode.t;
  bufferNode : option RenderGraphNode.t
}.
End NodeReference.

Module Condition.
Record t := {
  variable1Index : Z;
  variable2Index : Z;
  value2 : string;
  comparison : ConditionComparison.t;
  alwaysFalse : bool
}.
End Condition.

Module SetVariable.
Record t := {
  destination : VariableReference.t;
  destinationIndex : Z;
  AVar : VariableReference.t;
  AVarIndex : Z;
  ALiteral : string;
  ANode : NodeReference.t;
  BVar : VariableReference.t;
  BVarIndex : Z;
  BLiteral : string;
  BNode : NodeReference.t;
  op : SetVariableOperator.t;
  setBefore : bool;
  condition : Condition.t
}.
End SetVariable.

Module RenderGraph.
Record t := {
  nodes : list RenderGraphNode.t;
  flattenedNodeList : list Z;
  variables : list Variable_.t;
  enums : list Enum;
  setVars : list SetVariable.t
}.

(** [RenderGraph()] *)
Definition empty : t :=
  {| nodes := []; flattenedNodeList := []; variables := []; enums := []; setVars := [] |}.
End RenderGraph.

Module GigiCompileResult.
Inductive t := OK | NotCompiledYet | InterpreterError | CompilerError (code : nat).

#[global] Instance eq_dec : EqDecision t.
Proof. solve_decision. Defined.
End GigiCompileResult.

Module LogLevel.
Inductive t := Info | Warn | Error.
End LogLevel.

(** [v[i]] for an [int] index: out of range, the access is undefined. *)
Definition at_index {A} (v : list A) (i : Z) : option A :=
  if (i <? 0)%Z then None else v !! Z.to_nat i.

(** ** Bytes and typed access *)

Definition byte_of_Z (z : Z) : byte :=
  match Byte.of_N (Z.to_N (z mod 256)) with Some b => b | None => Byte.x00 end.

Definition Z_of_byte (b : byte) : Z := Z.of_N (Byte.to_N b).

(** Little-endian encoding of the low [n] bytes of [z]. *)
Fixpoint le_encode (n : nat) (z : Z) : list byte :=
  match n with
  | O => []
  | S n' => byte_of_Z z :: le_encode n' (z / 256)
  end.

Fixpoint le_decode (bs : list byte) : Z :=
  match bs with
  | [] => 0
  | b :: rest => Z_of_byte b + 256 * le_decode rest
  end.

(** The component types of the templates: [bool], [int], [uint16_t],
    [uint32_t] (also [unsigned int]) and [float]. *)
Inductive CompType := CBool | CInt | CUint16 | CUint32 | CFloat.

Definition sizeof (T : CompType) : nat :=
  match T with CBool => 1 | CUint16 => 2 | _ => 4 end.

(** [TheType] and [TheCount] of each [CallFor_] function; [CallFor_Count]
    has neither. *)
Definition CallFor (ty : DataFieldType.t) : option (CompType * nat) :=
  match ty with
  | DataFieldType.Int => Some (CInt, 1)
  | DataFieldType.Int2 => Some (CInt, 2)
  | DataFieldType.Int3 => Some (CInt, 3)
  | DataFieldType.Int4 => Some (CInt, 4)
  | DataFieldType.Uint => Some (CUint32, 1)
  | DataFieldType.Uint2 => Some (CUint32, 2)
  | DataFieldType.Uint3 => Some (CUint32, 3)
  | DataFieldType.Uint4 => Some (CUint32, 4)
  | DataFieldType.Float => Some (CFloat, 1)
  | DataFieldType.Float2 => Some (CFloat, 2)
  | DataFieldType.Float3 => Some (CFloat, 3)
  | DataFieldType.Float4 => Some (CFloat, 4)
  | DataFieldType.Bool => Some (CBool, 1)
  | DataFieldType.Float4x4 => Some (CFloat, 16)
  | DataFieldType.Uint_16 => Some (CUint16, 1)
  | DataFieldType.Count => None
  end%nat.

(** A key of the variable storage: the tuple (name, type). *)
Abbreviation Key := (string * DataFieldType.t)%type.

(** A pointer: null, into the vector the variable storage holds for a key,
    or into a local [std::vector<char>], which nothing writes once the
    pointer is taken and which the pointer therefore carries. *)
Inductive Ptr :=
  | PNull
  | PStorage (k : Key) (off : nat)
  | PLocal (buf : list byte) (off : nat).

Definition ptr_is_null (p : Ptr) : bool :=
  match p with PNull => true | _ => false end.

(** [&p[i]] for components of [w] bytes. *)
Definition ptr_index (p : Ptr) (i : Z) (w : nat) : option Ptr :=
  if (i <? 0)%Z then None
  else match p with
       | PNull => None
       | PStorage k off => Some (PStorage k (off + Z.to_nat i * w))
       | PLocal buf off => Some (PLocal buf (off + Z.to_nat i * w))
       end.

(** The [n] bytes of [buf] from [off] on, when they are all inside. *)
Definition slice (buf : list byte) (off n : nat) : option (list byte) :=
  if (off + n <=? length buf)%nat then Some (take n (drop off buf)) else None.

(** [buf] with [bs] written at [off], when that stays inside. *)
Definition splice (buf : list byte) (off : nat) (bs : list byte) : option (list byte) :=
  if (off + length bs <=? length buf)%nat
  then Some (take off buf ++ bs ++ drop (off + length bs) buf)
  else None.

(** [VariableStorage::Storage] *)
Module Storage.
Record t := {
  value : Ptr;
  dflt : Ptr;
  size : nat
}.
Definition empty : t := {| value := PNull; dflt := PNull; size := 0 |}.
End Storage.

(** ** Text conversion *)

(** Modelled from the spec: the overloads of [VariableStorage::SetFromString]
    and [GetAsString] for each component type are declared in the header
    and their definitions are not among the sources. They are taken as an
    interface. [SetFromString T text count old] is the content of the
    [count] components at the target pointer after the call, [old] being
    their content before it; [GetAsString T count bs] is the text of the
    [count] components [bs]. *)
Class TextIO := {
  SetFromString : CompType -> string -> nat -> list byte -> list byte;
  GetAsString : CompType -> nat -> list byte -> string
}.

(** [sprintf_s] with the formats "%u" and "%i". *)
Definition sprintf_u (z : Z) : string := pretty (Z.to_N (z mod 2 ^ 32)).
Definition sprintf_i (z : Z) : string := pretty (wrap I32 z).

(** ** State and failure

    A computation on a state [S]: [None] when the code runs into undefined
    behaviour, the result and the state it leaves otherwise. *)
Definition M (S A : Type) : Type := S -> option (A * S).

#[global] Instance M_ret S : MRet (M S) := fun A a s => Some (a, s).
#[global] Instance M_bind S : MBind (M S) := fun A B f m s =>
  match m s with
  | Some (a, s') => f a s'
  | None => None
  end.

Definition get {S} : M S S := fun s => Some (s, s).
Definition modify {S} (f : S -> S) : M S unit := fun s => Some (tt, f s).
Definition undefined {S A} : M S A := fun _ => None.
Definition defined {S A} (o : option A) : M S A :=
  fun s => match o with Some a => Some (a, s) | None => None end.

(** ** [VariableStorage] *)

Module VariableStorage.

(** [m_storage]: the [TupleCache] from (name, type) to a vector of bytes. *)
Abbreviation t := (gmap Key (list byte)).

Section VariableStorage.
Context `{TIO : TextIO}.

Definition Clear : M t unit := modify (fun _ => ∅).

(** The [n] bytes at [p]. *)
Definition read (m : t) (p : Ptr) (n : nat) : option (list byte) :=
  match p with
  | PNull => None
  | PStorage k off => match m !! k with Some v => slice v off n | None => None end
  | PLocal buf off => slice buf off n
  end.

(** Writing [bs] at [p], a pointer into the storage. *)
Definition write (p : Ptr) (bs : list byte) : M t unit :=
  fun m =>
    match p with
    | PStorage k off =>
        match m !! k with
        | Some v =>
            match splice v off bs with
            | Some v' => Some (tt, <[k := v']> m)
            | None => None
            end
        | None => None
        end
    | _ => None
    end.

(** [SetFromString(text, count, (T* )p)]: the call parses into the [count]
    components at [p]. For a local buffer the result is the pointer to the
    buffer as the call leaves it. *)
Definition SetFromString_at (T : CompType) (text : string) (count : nat) (p : Ptr) : M t Ptr :=
  fun m =>
    match p with
    | PNull => None
    | PStorage k off =>
        match read m p (count * sizeof T) with
        | Some old =>
            match write p (SetFromString T text count old) m with
            | Some (_, m') => Some (p, m')
            | None => None
            end
        | None => None
        end
    | PLocal buf off =>
        match slice buf off (count * sizeof T) with
        | Some old =>
            match splice buf off (SetFromString T text count old) with
            | Some buf' => Some (PLocal buf' off, m)
            | None => None
            end
        | None => None
        end
    end.

(** The private template [Get(variable, count, (T* )dummy)]. The vector
    holds the value and, right after it, the default. The default is
    parsed on every call; the value is set from it when the storage is
    new. *)
Definition Get_typed (variable : Variable_.t) (count : nat) (T : CompType) : M t Storage.t :=
  fun m =>
    let key := (Variable_.name variable, Variable_.type variable) in
    let newStorage := bool_decide (m !! key = None) in
    let storage := default [] (m !! key) in
    let storage := if newStorage then replicate (sizeof T * count * 2) x00 else storage in
    let size := (sizeof T * count)%nat in
    let ret := {| Storage.size := size;
                  Storage.value := PStorage key 0;
                  Storage.dflt := PStorage key size |} in
    match SetFromString_at T (Variable_.dflt variable) count (Storage.dflt ret)
            (<[key := storage]> m) with
    | Some (_, m) =>
        if newStorage then
          match read m (Storage.dflt ret) size with
          | Some d =>
              match write (Storage.value ret) d m with
              | Some (_, m) => Some (ret, m)
              | None => None
              end
          | None => None
          end
        else Some (ret, m)
    | None => None
    end.

(** [CallForVariable]: the switch over the type of the variable and the
    [CallFor_] function it selects, which gets the storage and hands the
    count and the typed value pointer to [lambda]. [CallFor_Count] does
    nothing. *)
Definition CallForVariable {A} (variable : Variable_.t)
    (lambda : nat -> CompType -> Ptr -> M t A) : M t (option A) :=
  match CallFor (Variable_.type variable) with
  | Some (T, TheCount) =>
      storage ← Get_typed variable TheCount T;
      a ← lambda TheCount T (Storage.value storage);
      mret (Some a)
  | None => mret None
  end.

Definition SetValueFromString (variable : Variable_.t) (textValue : string) : M t unit :=
  _ ← CallForVariable variable (fun count T value =>
         _ ← SetFromString_at T textValue count value; mret tt);
  mret tt.

Definition GetValueAsString (variable : Variable_.t) : M t string :=
  ret ← CallForVariable variable (fun count T value m =>
           match read m value (count * sizeof T) with
           | Some bs => Some (GetAsString T count bs, m)
           | None => None
           end);
  mret (default EmptyString ret).

Definition Get (variable : Variable_.t) : M t Storage.t :=
  ret ← CallForVariable variable (fun count T value => Get_typed variable count T);
  mret (default Storage.empty ret).

End VariableStorage.
End VariableStorage.

(** ** The interpreter and its collaborators *)

(** The schema headers: [DataFieldTypeInfo] and, for each alternative of
    the node variant, the name of its member (the [_NAME] of
    [VARIANT_TYPE]). *)
Class Schema := {
  DataFieldTypeInfo : DataFieldType.t -> DataFieldTypeInfoStruct.t;
  variantName : NodeKind -> string
}.

(** [TRuntimeTypes], the template parameter: the runtime data of each node
    kind, how it is default-constructed, and the fields the interpreter
    reads from texture and buffer resources. *)
Class RuntimeTypes := {
  RuntimeData : Type;
  rt_default : NodeKind -> RuntimeData;
  m_size : RuntimeData -> Z * Z * Z;
  m_count : RuntimeData -> Z
}.

(** The host: the subclass that implements [OnNodeAction] and the hooks,
    the external graph compiler, and the platform. A node action sees the
    node, its runtime data and the state of the host; it returns whether it
    succeeded and what it left of the last two. *)
Class Host `{RuntimeTypes} := {
  HostState : Type;
  OnNodeAction : RenderGraphNode.t -> RuntimeData -> NodeAction.t -> HostState ->
                 bool * RuntimeData * HostState;
  OnPreCompile : HostState -> HostState;
  OnCompileOK : HostState -> HostState;
  GigiCompile : GigiBuildFlavor.t -> string -> string ->
                (RenderGraph.t -> RenderGraph.t) -> RenderGraph.t -> HostState ->
                GigiCompileResult.t * RenderGraph.t * HostState;
  temp_directory_path : string;
  _getpid : Z;
  remove_all : string -> HostState -> HostState;
  create_directories : string -> HostState -> HostState
}.

Section Interpreter.
Context `{FL : FloatLib} `{TIO : TextIO} `{SC : Schema} `{RT : RuntimeTypes} `{H : !Host}.

(** [IGigiInterpreter::RuntimeVariable]; [variable] is the variable of the
    graph it points to. The record holds the variable in place of the
    pointer. The two agree as long as the pointer is valid: from
    [CreateVariableStorage], which takes it, to the next [Compile], which
    replaces the graph it goes into. After a [Compile] that the external
    compiler fails the table is not rebuilt and the pointers of the code
    dangle; what the record holds then is what they pointed to before. *)
Record RuntimeVariable := {
  variable : Variable_.t;
  storage : Storage.t
}.

(** The members of the interpreter, with the state of the host, the
    messages handed to [m_logFn], and the calls of [OnNodeAction] made so
    far, oldest first, each with what it returned. *)
Record State := {
  m_compileResult : GigiCompileResult.t;
  m_renderGraph : RenderGraph.t;
  m_tempDirectory : string;
  m_variableStorage : VariableStorage.t;
  m_runtimeVariables : list RuntimeVariable;
  m_RuntimeData : NodeKind -> gmap string RuntimeData;
  host : HostState;
  logged : list (LogLevel.t * string);
  calls : list (RenderGraphNode.t * NodeAction.t * bool)
}.

Definition set_compileResult (r : GigiCompileResult.t) (s : State) : State :=
  {| m_compileResult := r; m_renderGraph := m_renderGraph s;
     m_tempDirectory := m_tempDirectory s; m_variableStorage := m_variableStorage s;
     m_runtimeVariables := m_runtimeVariables s; m_RuntimeData := m_RuntimeData s;
     host := host s; logged := logged s; calls := calls s |}.

Definition set_renderGraph (g : RenderGraph.t) (s : State) : State :=
  {| m_compileResult := m_compileResult s; m_renderGraph := g;
     m_tempDirectory := m_tempDirectory s; m_variableStorage := m_variableStorage s;
     m_runtimeVariables := m_runtimeVariables s; m_RuntimeData := m_RuntimeData s;
     host := host s; logged := logged s; calls := calls s |}.

Definition set_tempDirectory (d : string) (s : State) : State :=
  {| m_compileResult := m_compileResult s; m_renderGraph := m_renderGraph s;
     m_tempDirectory := d; m_variableStorage := m_variableStorage s;
     m_runtimeVariables := m_runtimeVariables s; m_RuntimeData := m_RuntimeData s;
     host := host s; logged := logged s; calls := calls s |}.

Definition set_variableStorage (v : VariableStorage.t) (s : State) : State :=
  {| m_compileResult := m_compileResult s; m_renderGraph := m_renderGraph s;
     m_tempDirectory := m_tempDirectory s; m_variableStorage := v;
     m_runtimeVariables := m_runtimeVariables s; m_RuntimeData := m_RuntimeData s;
     host := host s; logged := logged s; calls := calls s |}.

Definition set_runtimeVariables (v : list RuntimeVariable) (s : State) : State :=
  {| m_compileResult := m_compileResult s; m_renderGraph := m_renderGraph s;
     m_tempDirectory := m_tempDirectory s; m_variableStorage := m_variableStorage s;
     m_runtimeVariables := v; m_RuntimeData := m_RuntimeData s;
     host := host s; logged := logged s; calls := calls s |}.

Definition set_RuntimeData (r : NodeKind -> gmap string RuntimeData) (s : State) : State :=
  {| m_compileResult := m_compileResult s; m_renderGraph := m_renderGraph s;
     m_tempDirectory := m_tempDirectory s; m_variableStorage := m_variableStorage s;
     m_runtimeVariables := m_runtimeVariables s; m_RuntimeData := r;
     host := host s; logged := logged s; calls := calls s |}.

Definition set_host (h : HostState) (s : State) : State :=
  {| m_compileResult := m_compileResult s; m_renderGraph := m_renderGraph s;
     m_tempDirectory := m_tempDirectory s; m_variableStorage := m_variableStorage s;
     m_runtimeVariables := m_runtimeVariables s; m_RuntimeData := m_RuntimeData s;
     host := h; logged := logged s; calls := calls s |}.

Definition set_logged (l : list (LogLevel.t * string)) (s : State) : State :=
  {| m_compileResult := m_compileResult s; m_renderGraph := m_renderGraph s;
     m_tempDirectory := m_tempDirectory s; m_variableStorage := m_variableStorage s;
     m_runtimeVariables := m_runtimeVariables s; m_RuntimeData := m_RuntimeData s;
     host := host s; logged := l; calls := calls s |}.

Definition set_calls (c : list (RenderGraphNode.t * NodeAction.t * bool)) (s : State) : State :=
  {| m_compileResult := m_compileResult s; m_renderGraph := m_renderGraph s;
     m_tempDirectory := m_tempDirectory s; m_variableStorage := m_variableStorage s;
     m_runtimeVariables := m_runtimeVariables s; m_RuntimeData := m_RuntimeData s;
     host := host s; logged := logged s; calls := c |}.

(** A computation of the variable storage, run on [m_variableStorage]. *)
Definition on_storage {A} (m : M VariableStorage.t A) : M State A :=
  fun s =>
    match m (m_variableStorage s) with
    | Some (a, v) => Some (a, set_variableStorage v s)
    | None => None
    end.

(** [m_<TYPE>_RuntimeData.GetOrCreate(name)]: the entry, default-constructed
    and registered when there is none. *)
Definition GetOrCreate (kind : NodeKind) (name : string) : M State RuntimeData :=
  fun s =>
    match m_RuntimeData s kind !! name with
    | Some rd => Some (rd, s)
    | None =>
        Some (rt_default kind,
              set_RuntimeData (<[kind := <[name := rt_default kind]> (m_RuntimeData s kind)]>
                                 (m_RuntimeData s)) s)
    end.

Definition GetRuntimeVariable (index : Z) : M State RuntimeVariable :=
  fun s => defined (at_index (m_runtimeVariables s) index) s.

(** *** Typed components *)

Definition int_type (T : CompType) : option IntType :=
  match T with
  | CInt => Some I32
  | CUint16 => Some U16
  | CUint32 => Some U32
  | _ => None
  end.

Definition decode_int (T : IntType) (bs : list byte) : Z := wrap T (le_decode bs).
Definition decode_bool (bs : list byte) : bool := negb (le_decode bs =? 0).
Definition decode_float (bs : list byte) : float := f_of_bits (le_decode bs).

(** [DoOp(A, B, dest, op)] at the type [T], on the bytes of the three
    components: the bytes of [dest] after the call. *)
Definition DoOp_bytes (T : CompType) (A B dest : list byte) (op : SetVariableOperator.t)
    : option (list byte) :=
  match T with
  | CBool => Some (le_encode 1 (Z.b2z (DoOp_bool (decode_bool A) (decode_bool B)
                                                  (decode_bool dest) op)))
  | CFloat => Some (le_encode 4 (f_to_bits (DoOp_float (decode_float A) (decode_float B)
                                                        (decode_float dest) op)))
  | CInt => r ← DoOp_int I32 (decode_int I32 A) (decode_int I32 B) (decode_int I32 dest) op;
            Some (le_encode 4 r)
  | CUint16 => r ← DoOp_int U16 (decode_int U16 A) (decode_int U16 B) (decode_int U16 dest) op;
               Some (le_encode 2 r)
  | CUint32 => r ← DoOp_int U32 (decode_int U32 A) (decode_int U32 B) (decode_int U32 dest) op;
               Some (le_encode 4 r)
  end.

Definition DoComparison_bytes (T : CompType) (A B : list byte) (op : ConditionComparison.t)
    : bool :=
  match T with
  | CBool => DoComparison_bool (decode_bool A) (decode_bool B) op
  | CFloat => DoComparison_float (decode_float A) (decode_float B) op
  | CInt => DoComparison_int (decode_int I32 A) (decode_int I32 B) op
  | CUint16 => DoComparison_int (decode_int U16 A) (decode_int U16 B) op
  | CUint32 => DoComparison_int (decode_int U32 A) (decode_int U32 B) op
  end.

(** [p[i]] read at the type [T]. *)
Definition read_component (T : CompType) (p : Ptr) (i : nat) : M State (list byte) :=
  fun s =>
    match ptr_index p (Z.of_nat i) (sizeof T) with
    | Some q => defined (VariableStorage.read (m_variableStorage s) q (sizeof T)) s
    | None => None
    end.

Definition write_component (T : CompType) (p : Ptr) (i : nat) (bs : list byte) : M State unit :=
  q ← defined (ptr_index p (Z.of_nat i) (sizeof T));
  on_storage (VariableStorage.write q bs).

(** *** SetVariable statements *)

(** The value of one operand of a SetVariable statement, as the block
    that [DoSetVarOperation] runs for [A] and again for [B] sets it: from
    the size of the texture, else from the count of the buffer, else from
    the literal when no variable is given; [XBytes], which [ExecuteSetvar]
    points at the variable, stays otherwise. *)
Definition resolve_operand (T : CompType) (XNode : NodeReference.t)
    (XVar : VariableReference.t) (XLiteral : string) (XBytes : Ptr)
    (componentCount componentByteCount : nat) : M State Ptr :=
  match NodeReference.textureNode XNode with
  | Some node =>
      runtimeResourceData ← GetOrCreate RenderGraphNode_Resource_Texture
                               (RenderGraphNode.name node);
      let '(s0, s1, s2) := m_size runtimeResourceData in
      let sizeAsString := (sprintf_u s0 +:+ ", " +:+ sprintf_u s1 +:+ ", " +:+ sprintf_u s2) in
      let XBuffer := replicate (3 * componentByteCount) x00 in
      on_storage (VariableStorage.SetFromString_at T sizeAsString 3 (PLocal XBuffer 0))
  | None =>
      match NodeReference.bufferNode XNode with
      | Some node =>
          runtimeResourceData ← GetOrCreate RenderGraphNode_Resource_Buffer
                                   (RenderGraphNode.name node);
          let sizeAsString := sprintf_u (m_count runtimeResourceData) in
          let XBuffer := replicate (1 * componentByteCount) x00 in
          on_storage (VariableStorage.SetFromString_at T sizeAsString 1 (PLocal XBuffer 0))
      | None =>
          if VariableReference.variableIndex XVar =? -1
          then on_storage (VariableStorage.SetFromString_at T XLiteral componentCount XBytes)
          else mret XBytes
      end
  end.

(** The loop over the components, from [i] on, [n] of them left. *)
Fixpoint DoOp_loop (T : CompType) (A B dest : Ptr) (op : SetVariableOperator.t)
    (i n : nat) : M State unit :=
  match n with
  | O => mret tt
  | S n' =>
      a ← read_component T A i;
      b ← read_component T B i;
      d ← read_component T dest i;
      r ← defined (DoOp_bytes T a b d op);
      _ ← write_component T dest i r;
      DoOp_loop T A B dest op (S i) n'
  end.

Definition DoSetVarOperation (T : CompType) (setVar : SetVariable.t)
    (ABytes BBytes destBytes : Ptr) (componentCount componentByteCount : nat) : M State unit :=
  let dest := destBytes in
  A ← resolve_operand T (SetVariable.ANode setVar) (SetVariable.AVar setVar)
        (SetVariable.ALiteral setVar) ABytes componentCount componentByteCount;
  B ← resolve_operand T (SetVariable.BNode setVar) (SetVariable.BVar setVar)
        (SetVariable.BLiteral setVar) BBytes componentCount componentByteCount;
  '(componentCount, dest) ←
    (if negb (SetVariable.destinationIndex setVar =? -1)
     then dest ← defined (ptr_index dest (SetVariable.destinationIndex setVar) (sizeof T));
          mret (1%nat, dest)
     else mret (componentCount, dest));
  '(componentCount, A) ←
    (if negb (SetVariable.AVarIndex setVar =? -1)
     then A ← defined (ptr_index A (SetVariable.AVarIndex setVar) (sizeof T));
          mret (1%nat, A)
     else mret (componentCount, A));
  '(componentCount, B) ←
    (if negb (SetVariable.BVarIndex setVar =? -1)
     then B ← defined (ptr_index B (SetVariable.BVarIndex setVar) (sizeof T));
          mret (1%nat, B)
     else mret (componentCount, B));
  DoOp_loop T A B dest (SetVariable.op setVar) 0 componentCount.

(** The pointer to the bytes of an operand that [ExecuteSetvar] hands to
    [DoSetVarOperation]: the value of the variable when one is given, and
    a zeroed local buffer of the size of the type when none is, or when
    the variable has no storage. *)
Definition operand_bytes (XVar : VariableReference.t) (typeBytes : nat) : M State Ptr :=
  XBytes ← (if negb (VariableReference.variableIndex XVar =? -1)
            then rv ← GetRuntimeVariable (VariableReference.variableIndex XVar);
                 mret (Storage.value (storage rv))
            else mret PNull);
  if ptr_is_null XBytes then mret (PLocal (replicate typeBytes x00) 0) else mret XBytes.

Definition ExecuteSetvar (setVar : SetVariable.t) : M State unit :=
  s ← get;
  var ← defined (at_index (RenderGraph.variables (m_renderGraph s))
                   (VariableReference.variableIndex (SetVariable.destination setVar)));
  let type := Variable_.type var in
  let typeInfo := DataFieldTypeInfo type in
  rv ← GetRuntimeVariable (VariableReference.variableIndex (SetVariable.destination setVar));
  let destBytes := Storage.value (storage rv) in
  ABytes ← operand_bytes (SetVariable.AVar setVar) (DataFieldTypeInfoStruct.typeBytes typeInfo);
  BBytes ← operand_bytes (SetVariable.BVar setVar) (DataFieldTypeInfoStruct.typeBytes typeInfo);
  let componentCount := DataFieldTypeInfoStruct.componentCount typeInfo in
  match DataFieldTypeInfoStruct.componentType2 typeInfo with
  | DataFieldType.Bool => DoSetVarOperation CBool setVar ABytes BBytes destBytes componentCount 4
  | DataFieldType.Int =>
      DoSetVarOperation CInt setVar ABytes BBytes destBytes componentCount (sizeof CInt)
  | DataFieldType.Uint_16 =>
      DoSetVarOperation CUint16 setVar ABytes BBytes destBytes componentCount (sizeof CUint16)
  | DataFieldType.Uint =>
      DoSetVarOperation CUint32 setVar ABytes BBytes destBytes componentCount (sizeof CUint32)
  | DataFieldType.Float =>
      DoSetVarOperation CFloat setVar ABytes BBytes destBytes componentCount (sizeof CFloat)
  | _ => mret tt
  end.

(** *** Conditions *)

(** [ret = ret && DoComparison(A[i], B[i], op)] for the components from [i]
    on: once [ret] is false no further component is read. *)
Fixpoint DoComparison_loop (T : CompType) (A B : Ptr) (op : ConditionComparison.t)
    (ret : bool) (i n : nat) : M State bool :=
  match n with
  | O => mret ret
  | S n' =>
      ret ← (if ret
             then a ← read_component T A i;
                  b ← read_component T B i;
                  mret (DoComparison_bytes T a b op)
             else mret false);
      DoComparison_loop T A B op ret (S i) n'
  end.

Definition EvaluateConditionTyped_Enum (condition : Condition.t) (ABytes BBytes : Ptr)
    (componentCount : nat) : M State bool :=
  s ← get;
  var ← defined (at_index (RenderGraph.variables (m_renderGraph s))
                   (Condition.variable1Index condition));
  e ← defined (at_index (RenderGraph.enums (m_renderGraph s)) (Variable_.enumIndex var));
  let b := le_encode 4 (EnumLabelToValue e (Condition.value2 condition)) in
  B ← (match BBytes with
       | PLocal buf off => B ← defined (splice buf off b); mret (PLocal B off)
       | _ => _ ← on_storage (VariableStorage.write BBytes b); mret BBytes
       end);
  DoComparison_loop CInt ABytes B (Condition.comparison condition) true 0 componentCount.

Definition EvaluateConditionTyped (T : CompType) (condition : Condition.t)
    (ABytes BBytes : Ptr) (componentCount : nat) : M State bool :=
  B ← (if Condition.variable2Index condition =? -1
       then on_storage (VariableStorage.SetFromString_at T (Condition.value2 condition)
                          componentCount BBytes)
       else mret BBytes);
  DoComparison_loop T ABytes B (Condition.comparison condition) true 0 componentCount.

Definition IsConditional (condition : Condition.t) : bool :=
  negb (bool_decide (Condition.comparison condition = ConditionComparison.Count))
  || Condition.alwaysFalse condition.

Definition EvaluateCondition (condition : Condition.t) : M State bool :=
  if Condition.alwaysFalse condition then mret false
  else if (Condition.variable1Index condition =? -1)
          || bool_decide (Condition.comparison condition = ConditionComparison.Count)
  then mret true
  else
    s ← get;
    var ← defined (at_index (RenderGraph.variables (m_renderGraph s))
                     (Condition.variable1Index condition));
    let type := Variable_.type var in
    let typeInfo := DataFieldTypeInfo type in
    rv ← GetRuntimeVariable (Condition.variable1Index condition);
    let ABytes := Storage.value (storage rv) in
    BBytes ← (if negb (Condition.variable2Index condition =? -1)
              then rv ← GetRuntimeVariable (Condition.variable2Index condition);
                   mret (Storage.value (storage rv))
              else mret (PLocal (replicate (DataFieldTypeInfoStruct.typeBytes typeInfo) x00) 0));
    let componentCount := DataFieldTypeInfoStruct.componentCount typeInfo in
    if bool_decide (type = DataFieldType.Bool)
    then EvaluateConditionTyped CBool condition ABytes BBytes componentCount
    else
      match DataFieldTypeInfoStruct.componentType typeInfo with
      | DataFieldComponentType._int =>
          if negb (Variable_.enumIndex var =? -1) && (Condition.variable2Index condition =? -1)
          then EvaluateConditionTyped_Enum condition ABytes BBytes componentCount
          else EvaluateConditionTyped CInt condition ABytes BBytes componentCount
      | DataFieldComponentType._uint16_t =>
          EvaluateConditionTyped CUint16 condition ABytes BBytes componentCount
      | DataFieldComponentType._uint32_t =>
          EvaluateConditionTyped CUint32 condition ABytes BBytes componentCount
      | DataFieldComponentType._float =>
          EvaluateConditionTyped CFloat condition ABytes BBytes componentCount
      | DataFieldComponentType.Count => mret true
      end.

(** The loop of [ExecuteSetVars] over the statements. *)
Fixpoint ExecuteSetVars_loop (beforeExecution : bool) (setVars : list SetVariable.t)
    : M State unit :=
  match setVars with
  | [] => mret tt
  | setVar :: rest =>
      _ ← (if (VariableReference.variableIndex (SetVariable.destination setVar) =? -1)
              || negb (eqb (SetVariable.setBefore setVar) beforeExecution)
           then mret tt
           else
             ok ← EvaluateCondition (SetVariable.condition setVar);
             if negb ok then mret tt else ExecuteSetvar setVar);
      ExecuteSetVars_loop beforeExecution rest
  end.

Definition ExecuteSetVars (beforeExecution : bool) : M State unit :=
  s ← get;
  ExecuteSetVars_loop beforeExecution (RenderGraph.setVars (m_renderGraph s)).

(** *** The driver *)

(** One case of the switch over [node._index]: the runtime data of the
    node is fetched, or created, in the registry of its kind and handed to
    [OnNodeAction] by reference. *)
Definition NodeAction_call (node : RenderGraphNode.t) (action : NodeAction.t) : M State bool :=
  runtimeData ← GetOrCreate (RenderGraphNode._index node) (RenderGraphNode.name node);
  s ← get;
  let '(ok, runtimeData, h) := OnNodeAction node runtimeData action (host s) in
  _ ← modify (fun s =>
         set_calls (calls s ++ [(node, action, ok)])
           (set_host h
              (set_RuntimeData
                 (<[RenderGraphNode._index node :=
                      <[RenderGraphNode.name node := runtimeData]>
                        (m_RuntimeData s (RenderGraphNode._index node))]> (m_RuntimeData s)) s)));
  mret ok.

(** The loop of [Execute] over the flattened node list; [false] is the
    early [return false]. *)
Fixpoint Execute_loop (flattenedNodeList : list Z) : M State bool :=
  match flattenedNodeList with
  | [] => mret true
  | nodeIndex :: rest =>
      s ← get;
      node ← defined (at_index (RenderGraph.nodes (m_renderGraph s)) nodeIndex);
      ok ← NodeAction_call node NodeAction.Execute;
      if negb ok then mret false else Execute_loop rest
  end.

Definition Execute : M State bool :=
  s ← get;
  if negb (bool_decide (m_compileResult s = GigiCompileResult.OK)) then mret true
  else
    _ ← ExecuteSetVars true;
    s ← get;
    ok ← Execute_loop (RenderGraph.flattenedNodeList (m_renderGraph s));
    if negb ok then mret false
    else
      _ ← ExecuteSetVars false;
      mret true.

Definition Clear : M State unit :=
  _ ← modify (set_compileResult GigiCompileResult.NotCompiledYet);
  _ ← on_storage VariableStorage.Clear;
  modify (set_runtimeVariables []).

(** The loop of [CreateVariableStorage] over the variables of the graph. *)
Fixpoint CreateVariableStorage_loop (variables : list Variable_.t) : M State unit :=
  match variables with
  | [] => mret tt
  | v :: rest =>
      storage ← on_storage (VariableStorage.Get v);
      _ ← modify (fun s => set_runtimeVariables
                             (m_runtimeVariables s ++ [{| variable := v; storage := storage |}]) s);
      CreateVariableStorage_loop rest
  end.

Definition CreateVariableStorage (renderGraph : RenderGraph.t) : M State unit :=
  _ ← modify (set_runtimeVariables []);
  CreateVariableStorage_loop (RenderGraph.variables renderGraph).

(** The message of a failed Init action. *)
Definition Init_error_message (node : RenderGraphNode.t) : string :=
  "Error during IGigiInterpreter::Compile OnNodeAction(Init) in node "
  +:+ RenderGraphNode.name node +:+ " (" +:+ variantName (RenderGraphNode._index node) +:+ ")".

(** The initialization loop of [Compile]; [false] is the early return of
    [InterpreterError]. *)
Fixpoint Compile_loop (flattenedNodeList : list Z) : M State bool :=
  match flattenedNodeList with
  | [] => mret true
  | nodeIndex :: rest =>
      s ← get;
      node ← defined (at_index (RenderGraph.nodes (m_renderGraph s)) nodeIndex);
      ok ← NodeAction_call node NodeAction.Init;
      if negb ok
      then _ ← modify (fun s => set_logged (logged s ++ [(LogLevel.Error, Init_error_message node)]) s);
           mret false
      else Compile_loop rest
  end.

Definition Compile (fileName : string) (PostLoad : RenderGraph.t -> RenderGraph.t)
    : M State GigiCompileResult.t :=
  _ ← modify (fun s => set_host (OnPreCompile (host s)) s);
  _ ← modify (set_renderGraph RenderGraph.empty);
  _ ← modify (set_tempDirectory
               (temp_directory_path +:+ "Gigi\" +:+ sprintf_i _getpid +:+ "\"));
  _ ← modify (fun s => set_host (create_directories (m_tempDirectory s)
                                    (remove_all (m_tempDirectory s) (host s))) s);
  s ← get;
  let '(result, renderGraph, h) :=
    GigiCompile GigiBuildFlavor.Interpreter_Interpreter fileName (m_tempDirectory s)
      PostLoad (m_renderGraph s) (host s) in
  _ ← modify (fun s => set_compileResult result (set_renderGraph renderGraph (set_host h s)));
  if negb (bool_decide (result = GigiCompileResult.OK)) then mret result
  else
    _ ← CreateVariableStorage renderGraph;
    _ ← modify (fun s => set_host (OnCompileOK (host s)) s);
    _ ← modify (set_RuntimeData (fun _ => ∅));
    s ← get;
    ok ← Compile_loop (RenderGraph.flattenedNodeList (m_renderGraph s));
    if negb ok then mret GigiCompileResult.InterpreterError
    else mret GigiCompileResult.OK.

(** *** Runtime variables *)

(** The search of [GetRuntimeVariableIndex]: [index] is the position
    before the variables left. *)
Fixpoint GetRuntimeVariableIndex_loop (rtVars : list RuntimeVariable) (name : string)
    (index : Z) : Z :=
  match rtVars with
  | [] => -1
  | rtVar :: rest =>
      let index := index + 1 in
      if String.eqb (Variable_.name (variable rtVar)) name then wrap I32 index
      else GetRuntimeVariableIndex_loop rest name index
  end.

Definition GetRuntimeVariableIndex (s : State) (name : string) : Z :=
  GetRuntimeVariableIndex_loop (m_runtimeVariables s) name (-1).

Definition GetRuntimeVariableCount (s : State) : Z :=
  wrap I32 (Z.of_nat (length (m_runtimeVariables s))).

Definition GetRuntimeVariableValueAsString (index : Z) : M State string :=
  rv ← GetRuntimeVariable index;
  on_storage (VariableStorage.GetValueAsString (variable rv)).

Definition SetRuntimeVariableFromString (index : Z) (textValue : string) : M State unit :=
  rv ← GetRuntimeVariable index;
  s ← get;
  handled ←
    (if negb (Variable_.enumIndex (variable rv) =? -1)
     then
       e ← defined (at_index (RenderGraph.enums (m_renderGraph s))
                      (Variable_.enumIndex (variable rv)));
       let valueInt := EnumLabelToValue e textValue in
       if valueInt >=? 0
       then
         let valueIntString := sprintf_i valueInt in
         _ ← on_storage (VariableStorage.SetValueFromString (variable rv) valueIntString);
         mret true
       else mret false
     else mret false);
  if (handled : bool) then mret tt
  else on_storage (VariableStorage.SetValueFromString (variable rv) textValue).

Definition SetRuntimeVariableToDflt (index : Z) : M State unit :=
  rv ← GetRuntimeVariable index;
  if (Storage.size (storage rv) =? 0)%nat then mret tt
  else
    s ← get;
    d ← defined (VariableStorage.read (m_variableStorage s) (Storage.dflt (storage rv))
                   (Storage.size (storage rv)));
    on_storage (VariableStorage.write (Storage.value (storage rv)) d).

End Interpreter.

(** The interpreter as constructed, on a given host state. *)
Definition initial_state `{RT : RuntimeTypes} `{H : !Host} (h : HostState) : State :=
  {| m_compileResult := GigiCompileResult.NotCompiledYet;
     m_renderGraph := RenderGraph.empty;
     m_tempDirectory := EmptyString;
     m_variableStorage := ∅;
     m_runtimeVariables := [];
     m_RuntimeData := fun _ => ∅;
     host := h;
     logged := [];
     calls := [] |}.

(** * Vocabulary of the properties *)

(** ** Laws of the text conversion *)

(** The text [DoSetVarOperation] writes for the size of a texture. *)
Definition sizes_text (a b c : Z) : string :=
  (sprintf_u a +:+ ", " +:+ sprintf_u b +:+ ", " +:+ sprintf_u c)%string.

(** The parser reads what the interpreter prints: the three sizes of a
    texture and the count of a buffer as unsigned integers, and an enum
    index as an [int]. *)
Record reads_decimal (TIO : TextIO) : Prop := {
  reads_sizes : forall a b c old, length old = 12%nat ->
    SetFromString CUint32 (sizes_text a b c) 3 old
    = le_encode 4 a ++ le_encode 4 b ++ le_encode 4 c;
  reads_count : forall a old, length old = 4%nat ->
    SetFromString CUint32 (sprintf_u a) 1 old = le_encode 4 a;
  reads_index : forall i old, length old = 4%nat ->
    SetFromString CInt (sprintf_i i) 1 old = le_encode 4 i
}.

(** The values of [count] components of type [T] that text can express:
    for [bool], the bytes 0 and 1. *)
Definition representable (T : CompType) (bs : list byte) : Prop :=
  match T with
  | CBool => Forall (fun b => b = x00 \/ b = x01) bs
  | _ => True
  end.

(** Modelled from the spec: the definitions of the [SetFromString] and
    [GetAsString] overloads are missing, and this is the law the
    specification gives for them. Serialization is inverse to parsing for
    [count] components of type [T], on the values in [P]. *)
Definition round_trips (TIO : TextIO) (T : CompType) (count : nat)
    (P : list byte -> Prop) : Prop :=
  forall v old,
    length v = (count * sizeof T)%nat -> length old = (count * sizeof T)%nat -> P v ->
    SetFromString T (GetAsString T count v) count old = v.

(** Modelled from the spec: the [SetFromString] overloads, whose
    definitions are missing, parse [count] components of the type into the
    target. The parser writes the components it is given and nothing
    else. *)
Definition writes_in_place (TIO : TextIO) : Prop :=
  forall T text count old,
    length old = (count * sizeof T)%nat ->
    length (SetFromString T text count old) = (count * sizeof T)%nat.

(** ** Stored variables *)

(** The storage of [v] holds the value [val] followed by the default
    [dfl], [n] components of type [T] each. *)
Definition stored (m : VariableStorage.t) (v : Variable_.t) (T : CompType) (n : nat)
    (val dfl : list byte) : Prop :=
  m !! (Variable_.name v, Variable_.type v) = Some (val ++ dfl)
  /\ length val = (n * sizeof T)%nat
  /\ length dfl = (n * sizeof T)%nat.

(** The storage either has no entry for [v] yet or holds [n] components
    of type [T] for it. *)
Definition ready (m : VariableStorage.t) (v : Variable_.t) (T : CompType) (n : nat) : Prop :=
  m !! (Variable_.name v, Variable_.type v) = None
  \/ exists val dfl, stored m v T n val dfl.

(** ** The driver *)

Section Driver.
Context `{TIO : TextIO} `{SC : Schema} `{RT : RuntimeTypes} `{H : !Host}.

(** The nodes that a list of indices names in the graph of [s]. *)
Definition names_nodes (s : State) (indices : list Z) (nodes : list RenderGraphNode.t) : Prop :=
  Forall2 (fun i n => at_index (RenderGraph.nodes (m_renderGraph s)) i = Some n) indices nodes.

(** The calls of [action] on [nodes], each with the result [true]. *)
Definition succeeded (action : NodeAction.t) (nodes : list RenderGraphNode.t)
    : list (RenderGraphNode.t * NodeAction.t * bool) :=
  map (fun n => (n, action, true)) nodes.

(** The runtime data registered for the node of kind [kind] named [name],
    default-constructed when none is registered. *)
Definition runtime_data_of (s : State) (kind : NodeKind) (name : string) : RuntimeData :=
  default (rt_default kind) (m_RuntimeData s kind !! name).

(** The state once the runtime data of that node has been looked up:
    runtime data is created lazily, on the first lookup. *)
Definition looked_up (kind : NodeKind) (name : string) (s : State) : State :=
  match m_RuntimeData s kind !! name with
  | Some _ => s
  | None =>
      set_RuntimeData (<[kind := <[name := rt_default kind]> (m_RuntimeData s kind)]>
                         (m_RuntimeData s)) s
  end.

(** What the host answers when [action] is asked of [node] in the state
    [s]: the result of [OnNodeAction] on the node, the runtime data of the
    node and the state of the host. *)
Definition asked (node : RenderGraphNode.t) (action : NodeAction.t) (s : State)
    : bool * RuntimeData * HostState :=
  OnNodeAction node
    (runtime_data_of s (RenderGraphNode._index node) (RenderGraphNode.name node))
    action (host s).

(** The state once the host has answered: the runtime data of the node
    and the state of the host are what [OnNodeAction] left, and the call is
    on record with its result. *)
Definition answered (node : RenderGraphNode.t) (action : NodeAction.t) (s : State) : State :=
  let kind := RenderGraphNode._index node in
  let name := RenderGraphNode.name node in
  let '(ok, runtimeData, h) := asked node action s in
  let s' := looked_up kind name s in
  set_calls (calls s ++ [(node, action, ok)])
    (set_host h
       (set_RuntimeData (<[kind := <[name := runtimeData]> (m_RuntimeData s' kind)]>
                           (m_RuntimeData s')) s')).

(** The node loop in the words of the specification: [action] is asked of
    the nodes in list order; the first node whose [OnNodeAction] returns
    false ends the loop, and no later node is asked. The result is that
    node, if there is one, and the state the loop leaves. *)
Fixpoint run_nodes (action : NodeAction.t) (nodes : list RenderGraphNode.t) (s : State)
    : option RenderGraphNode.t * State :=
  match nodes with
  | [] => (None, s)
  | node :: rest =>
      if (asked node action s).1.1
      then run_nodes action rest (answered node action s)
      else (Some node, answered node action s)
  end.

(** [s'] differs from [s] in the variable storage and the runtime
    variables at most. *)
Definition same_but_variables (s s' : State) : Prop :=
  m_compileResult s' = m_compileResult s
  /\ m_renderGraph s' = m_renderGraph s
  /\ m_RuntimeData s' = m_RuntimeData s
  /\ host s' = host s
  /\ logged s' = logged s
  /\ calls s' = calls s.

(** The state in which [Compile] calls the external compiler. *)
Definition before_GigiCompile (s : State) : State :=
  let d := (temp_directory_path +:+ "Gigi\" +:+ sprintf_i _getpid +:+ "\")%string in
  let s := set_tempDirectory d (set_renderGraph RenderGraph.empty
                                  (set_host (OnPreCompile (host s)) s)) in
  set_host (create_directories d (remove_all d (host s))) s.

End Driver.

(** ** Storage objects *)

(** The storage object of [n] components of type [T] under the key of
    [v]: the value at the start of the vector and the default after it. *)
Definition storage_of (v : Variable_.t) (T : CompType) (n : nat) : Storage.t :=
  {| Storage.value := PStorage (Variable_.name v, Variable_.type v) 0;
     Storage.dflt := PStorage (Variable_.name v, Variable_.type v) (sizeof T * n);
     Storage.size := sizeof T * n |}.

(** The storage object that [Get] returns for [v]. *)
Definition storage_for (v : Variable_.t) : Storage.t :=
  match CallFor (Variable_.type v) with
  | Some (T, n) => storage_of v T n
  | None => Storage.empty
  end.

(** The storage has no entry for [v] or one of the size of its type. *)
Definition variable_ready (m : VariableStorage.t) (v : Variable_.t) : Prop :=
  forall T n, CallFor (Variable_.type v) = Some (T, n) -> ready m v T n.

(** Every value that [m] stores is the value that [m'] stores. *)
Definition keeps_values (m m' : VariableStorage.t) : Prop :=
  forall v T n val dfl,
    CallFor (Variable_.type v) = Some (T, n) ->
    stored m v T n val dfl -> exists dfl', stored m' v T n val dfl'.

(** ** Components and operands *)

(** The component [p[i]] of type [T] in the storage [m], when it is
    inside what [p] points into. *)
Definition component (m : VariableStorage.t) (T : CompType) (p : Ptr) (i : nat)
    : option (list byte) :=
  match ptr_index p (Z.of_nat i) (sizeof T) with
  | Some q => VariableStorage.read m q (sizeof T)
  | None => None
  end.

(** The component type that [ExecuteSetvar] instantiates
    [DoSetVarOperation] at for a [componentType2]. *)
Definition component_type_of (componentType2 : DataFieldType.t) : option CompType :=
  match componentType2 with
  | DataFieldType.Bool => Some CBool
  | DataFieldType.Int => Some CInt
  | DataFieldType.Uint_16 => Some CUint16
  | DataFieldType.Uint => Some CUint32
  | DataFieldType.Float => Some CFloat
  | _ => None
  end.

(** What a pointer to the start of a vector points into: the vector of
    the storage, or the local buffer. *)
Definition pointee (m : VariableStorage.t) (p : Ptr) : option (list byte) :=
  match p with
  | PStorage k O => m !! k
  | PLocal buf O => Some buf
  | _ => None
  end.

(** The component type that [EvaluateCondition] compares a variable at:
    [bool] for the type [Bool], else by the component type of the
    type. *)
Definition condition_type_of (type : DataFieldType.t)
    (componentType : DataFieldComponentType.t) : option CompType :=
  if bool_decide (type = DataFieldType.Bool) then Some CBool
  else match componentType with
       | DataFieldComponentType._int => Some CInt
       | DataFieldComponentType._uint16_t => Some CUint16
       | DataFieldComponentType._uint32_t => Some CUint32
       | DataFieldComponentType._float => Some CFloat
       | DataFieldComponentType.Count => None
       end.

(** The component that a component index of a SetVariable statement
    selects: the first one when the index is -1. *)
Definition selected (index : Z) : nat := if index =? -1 then 0%nat else Z.to_nat index.


(** The pointer [p], which points to the start of a vector, moved [off]
    bytes on. *)
Definition shift (p : Ptr) (off : nat) : Ptr :=
  match p with
  | PNull => PNull
  | PStorage k _ => PStorage k off
  | PLocal buf _ => PLocal buf off
  end.

Section Componentwise.
Context `{FL : FloatLib}.

(** The new bytes of the components [i], ..., [i + n - 1] of the
    destination, each computed by [DoOp] from the components of the
    operands and of the destination at the same index. *)
Fixpoint DoOp_each (T : CompType) (op : SetVariableOperator.t) (A B dest : list byte)
    (i n : nat) : option (list byte) :=
  match n with
  | O => Some []
  | S n' =>
      match slice A (i * sizeof T) (sizeof T), slice B (i * sizeof T) (sizeof T),
            slice dest (i * sizeof T) (sizeof T) with
      | Some a, Some b, Some d =>
          match DoOp_bytes T a b d op, DoOp_each T op A B dest (S i) n' with
          | Some r, Some rest => Some (r ++ rest)
          | _, _ => None
          end
      | _, _, _ => None
      end
  end.

End Componentwise.

(** ** Statements and configuration *)

(** A SetVariable statement that [ExecuteSetVars] passes over in the
    phase [beforeExecution]: it has no destination, belongs to the other
    phase, or its condition is always false. *)
Definition skipped (beforeExecution : bool) (setVar : SetVariable.t) : bool :=
  (VariableReference.variableIndex (SetVariable.destination setVar) =? -1)
  || negb (eqb (SetVariable.setBefore setVar) beforeExecution)
  || Condition.alwaysFalse (SetVariable.condition setVar).

Section Configuration.
Context `{TIO : TextIO} `{RT : RuntimeTypes} `{H : !Host}.

(** An operand of a SetVariable statement that is bound to no node holds
    the bytes [bx]: those of the variable [XVar], or else the literal
    parsed into a zeroed buffer of [typeBytes] bytes. *)
Definition operand_holds (T : CompType) (n typeBytes : nat) (s : State)
    (XVar : VariableReference.t) (XLiteral : string) (bx : list byte) : Prop :=
  if VariableReference.variableIndex XVar =? -1
  then (n * sizeof T <= typeBytes)%nat
       /\ bx = SetFromString T XLiteral n (replicate (n * sizeof T) x00)
                ++ replicate (typeBytes - n * sizeof T) x00
  else exists rv,
         at_index (m_runtimeVariables s) (VariableReference.variableIndex XVar) = Some rv
         /\ pointee (m_variableStorage s) (Storage.value (storage rv)) = Some bx.







(** What [Compile] sets up and running the graph leaves alone: the
    compile result, the graph, the temporary directory, the table of
    runtime variables, and the log. *)
Definition keeps_configuration (s s' : State) : Prop :=
  m_compileResult s' = m_compileResult s
  /\ m_renderGraph s' = m_renderGraph s
  /\ m_tempDirectory s' = m_tempDirectory s
  /\ m_runtimeVariables s' = m_runtimeVariables s
  /\ logged s' = logged s.

(** A computation that keeps the configuration whenever it returns. *)
Definition preserves {A} (m : M State A) : Prop :=
  forall s a s', m s = Some (a, s') -> keeps_configuration s s'.

End Configuration.

(** ** The sizes of the storage *)

(** Every vector of the storage has the size [Get] gave it: twice the
    size of the type of its key, for the value and the default. *)
Definition well_sized (m : VariableStorage.t) : Prop :=
  forall (k : Key) (bytes : list byte),
    m !! k = Some bytes ->
    exists T n, CallFor k.2 = Some (T, n) /\ length bytes = (2 * (n * sizeof T))%nat.

Section Sizes.
Context `{TIO : TextIO} `{RT : RuntimeTypes} `{H : !Host}.

(** A computation of the storage, or of the interpreter, that keeps the
    sizes whenever it returns. *)
Definition keeps_sizes {A} (m : M VariableStorage.t A) : Prop :=
  forall v a v', m v = Some (a, v') -> well_sized v -> well_sized v'.

Definition keeps_storage_sizes {A} (m : M State A) : Prop :=
  forall s a s', m s = Some (a, s') ->
    well_sized (m_variableStorage s) -> well_sized (m_variableStorage s').

End Sizes.

(** * Reference collaborators

    Instances of the interfaces the interpreter is written against, for
    running it on concrete graphs. *)

Module Reference.

(** Runtime data that is just the size of a texture and the count of a
    buffer. *)
#[global] Instance runtime_types : RuntimeTypes := {|
  RuntimeData := Z * Z * Z * Z;
  rt_default := fun _ => (0, 0, 0, 0);
  m_size := fun rd => let '(a, b, c, _) := rd in (a, b, c);
  m_count := fun rd => let '(_, _, _, n) := rd in n
|}.

(** A host whose node actions leave everything as it is and fail on the
    nodes named "broken", and on those named "fragile" when the action is
    Execute; its graph compiler hands back the graph [g] with the result
    [r]. *)
Definition host (r : GigiCompileResult.t) (g : RenderGraph.t) : Host := {|
  HostState := unit;
  OnNodeAction := fun node rd action h =>
    (negb (String.eqb (RenderGraphNode.name node) "broken"
           || String.eqb (RenderGraphNode.name node) "fragile"
              && match action with NodeAction.Execute => true | _ => false end), rd, h);
  OnPreCompile := fun h => h;
  OnCompileOK := fun h => h;
  GigiCompile := fun _ _ _ PostLoad _ h => (r, PostLoad g, h);
  temp_directory_path := "C:\Temp\";
  _getpid := 4242;
  remove_all := fun _ h => h;
  create_directories := fun _ h => h
|}.

(** A host that keeps a journal: each of its node actions writes the name
    of the node and the action at the end of the state of the host, and
    fails on the same nodes as those of [host]. *)
Definition journal_host (r : GigiCompileResult.t) (g : RenderGraph.t) : Host := {|
  HostState := list (string * NodeAction.t);
  OnNodeAction := fun node rd action h =>
    (negb (String.eqb (RenderGraphNode.name node) "broken"
           || String.eqb (RenderGraphNode.name node) "fragile"
              && match action with NodeAction.Execute => true | _ => false end), rd,
     h ++ [(RenderGraphNode.name node, action)]);
  OnPreCompile := fun h => h;
  OnCompileOK := fun h => h;
  GigiCompile := fun _ _ _ PostLoad _ h => (r, PostLoad g, h);
  temp_directory_path := "C:\Temp\";
  _getpid := 4242;
  remove_all := fun _ h => h;
  create_directories := fun _ h => h
|}.

(** The type table: a type has as many bytes as its components take. *)
Definition type_info (ty : DataFieldType.t) : DataFieldTypeInfoStruct.t :=
  match CallFor ty with
  | Some (T, n) =>
      {| DataFieldTypeInfoStruct.typeBytes := n * sizeof T;
         DataFieldTypeInfoStruct.componentCount := n;
         DataFieldTypeInfoStruct.componentType :=
           match T with
           | CInt | CBool => DataFieldComponentType._int
           | CUint16 => DataFieldComponentType._uint16_t
           | CUint32 => DataFieldComponentType._uint32_t
           | CFloat => DataFieldComponentType._float
           end;
         DataFieldTypeInfoStruct.componentType2 :=
           match T with
           | CInt => DataFieldType.Int
           | CBool => DataFieldType.Bool
           | CUint16 => DataFieldType.Uint_16
           | CUint32 => DataFieldType.Uint
           | CFloat => DataFieldType.Float
           end |}
  | None =>
      {| DataFieldTypeInfoStruct.typeBytes := 0;
         DataFieldTypeInfoStruct.componentCount := 0;
         DataFieldTypeInfoStruct.componentType := DataFieldComponentType.Count;
         DataFieldTypeInfoStruct.componentType2 := DataFieldType.Count |}
  end.

#[global] Instance schema : Schema := {|
  DataFieldTypeInfo := type_info;
  variantName := fun k =>
    match k with
    | RenderGraphNode_Resource_Texture => "resourceTexture"
    | RenderGraphNode_Resource_Buffer => "resourceBuffer"
    | RenderGraphNode_Other _ => "action"
    end
|}.


(** *** A decimal text format

    Modelled from the spec: an instance of the text conversion, whose
    definitions are missing from the sources. Components are written in decimal and separated by a comma and a
    space, as the interpreter itself writes sizes ("%u, %u, %u"); booleans
    are written "true" and "false". Reading is best effort: it stops at
    the first component that is not a number and leaves the rest as it
    was. Floats are read from integer text only and not written. *)

Local Open Scope string_scope.

Definition digit_of (c : ascii) : option N :=
  let n := N_of_ascii c in
  if (48 <=? n)%N && (n <=? 57)%N then Some (n - 48)%N else None.

(** The number the leading digits of [s] spell after [acc], and the rest
    of [s]. *)
Fixpoint parse_digits (s : string) (acc : N) : N * string :=
  match s with
  | String c s' =>
      match digit_of c with
      | Some d => parse_digits s' (10 * acc + d)%N
      | None => (acc, s)
      end
  | EmptyString => (acc, s)
  end.

Definition starts_with_digit (s : string) : bool :=
  match s with
  | String c _ => bool_decide (is_Some (digit_of c))
  | EmptyString => false
  end.

(** A decimal integer with an optional sign. *)
Definition parse_Z (s : string) : option (Z * string) :=
  match s with
  | String "-" s' =>
      if starts_with_digit s'
      then let '(n, rest) := parse_digits s' 0 in Some (- Z.of_N n, rest)
      else None
  | _ =>
      if starts_with_digit s
      then let '(n, rest) := parse_digits s 0 in Some (Z.of_N n, rest)
      else None
  end.

Fixpoint skip_spaces (s : string) : string :=
  match s with
  | String " " s' => skip_spaces s'
  | _ => s
  end.

Definition skip_separator (s : string) : string :=
  match skip_spaces s with
  | String "," s' => s'
  | s' => s'
  end.

(** One component of type [T] at the head of [s]. *)
Definition parse_component (T : CompType) (s : string) : option (list byte * string) :=
  match T with
  | CBool =>
      if StringBeginsWithCaseInsensitive s "true" then Some ([x01], advance 4 s)
      else if StringBeginsWithCaseInsensitive s "false" then Some ([x00], advance 5 s)
      else '(z, rest) ← parse_Z s; Some (le_encode 1 (Z.b2z (negb (z =? 0)%Z)), rest)
  | CFloat => '(z, rest) ← parse_Z s; Some (le_encode 4 (Binary32.to_bits (Binary32.of_Z z)), rest)
  | _ => '(z, rest) ← parse_Z s; Some (le_encode (sizeof T) z, rest)
  end.

Fixpoint set_components (T : CompType) (s : string) (count : nat) (old : list byte)
    : list byte :=
  match count with
  | O => old
  | S n =>
      match parse_component T (skip_spaces s) with
      | Some (bs, rest) =>
          take (sizeof T) bs ++ set_components T (skip_separator rest) n (drop (sizeof T) old)
      | None => old
      end
  end.

Definition print_component (T : CompType) (bs : list byte) : string :=
  match T with
  | CBool => if (le_decode bs =? 0)%Z then "false" else "true"
  | CInt => pretty (wrap I32 (le_decode bs))
  | CFloat => ""
  | _ => pretty (Z.to_N (le_decode bs))
  end.

Fixpoint print_components (T : CompType) (count : nat) (bs : list byte) : string :=
  match count with
  | O => ""
  | S O => print_component T (take (sizeof T) bs)
  | S n => print_component T (take (sizeof T) bs) +:+ ", "
           +:+ print_components T n (drop (sizeof T) bs)
  end.

#[global] Instance text_io : TextIO := {|
  SetFromString := fun T text count old => set_components T text count old;
  GetAsString := print_components
|}.

Local Close Scope string_scope.


(** A text that does not go on with a digit. *)
Definition ends_number (rest : string) : Prop := starts_with_digit rest = false.

(** The text of a number starts with a digit or a sign, not a space. *)
Definition starts_number (s : string) : Prop :=
  match s with
  | String c _ => c <> " "%char
  | EmptyString => True
  end.

(** An integer component type. *)
Definition is_int (T : CompType) : Prop := T = CInt \/ T = CUint16 \/ T = CUint32.

(** What follows a component in the printed text. *)
Definition tail_text (T : CompType) (n : nat) (bs : list byte) : string :=
  match n with
  | O => ""
  | S _ => ", " +:+ print_components T n bs
  end.

(** *** Sample graphs *)

Local Open Scope string_scope.

Definition unbound : NodeReference.t :=
  {| NodeReference.textureNode := None; NodeReference.bufferNode := None |}.

Definition no_variable : VariableReference.t := {| VariableReference.variableIndex := -1 |}.

Definition unconditional : Condition.t :=
  {| Condition.variable1Index := -1; Condition.variable2Index := -1;
     Condition.value2 := ""; Condition.comparison := ConditionComparison.Count;
     Condition.alwaysFalse := false |}.

Definition texture_node : RenderGraphNode.t :=
  {| RenderGraphNode._index := RenderGraphNode_Resource_Texture; RenderGraphNode.name := "tex" |}.
Definition broken_node : RenderGraphNode.t :=
  {| RenderGraphNode._index := RenderGraphNode_Other 3; RenderGraphNode.name := "broken" |}.
Definition blur_node : RenderGraphNode.t :=
  {| RenderGraphNode._index := RenderGraphNode_Other 3; RenderGraphNode.name := "blur" |}.

(** [radius = radius * 2], before execution. *)
Definition double_radius : SetVariable.t :=
  {| SetVariable.destination := {| VariableReference.variableIndex := 0 |};
     SetVariable.destinationIndex := -1;
     SetVariable.AVar := {| VariableReference.variableIndex := 0 |};
     SetVariable.AVarIndex := -1;
     SetVariable.ALiteral := "";
     SetVariable.ANode := unbound;
     SetVariable.BVar := no_variable;
     SetVariable.BVarIndex := -1;
     SetVariable.BLiteral := "2";
     SetVariable.BNode := unbound;
     SetVariable.op := SetVariableOperator.Multiply;
     SetVariable.setBefore := true;
     SetVariable.condition := unconditional |}.

Definition radius : Variable_.t :=
  {| Variable_.name := "radius"; Variable_.type := DataFieldType.Uint;
     Variable_.dflt := "1"; Variable_.enumIndex := -1 |}.

Definition mode_enum : Enum :=
  {| originalName := "ModeName"; items := [ {| label := "Slow" |}; {| label := "Fast" |} ] |}.

Definition mode : Variable_.t :=
  {| Variable_.name := "mode"; Variable_.type := DataFieldType.Int;
     Variable_.dflt := "0"; Variable_.enumIndex := 0 |}.

(** A graph whose nodes all succeed. *)
Definition blur_graph : RenderGraph.t :=
  {| RenderGraph.nodes := [texture_node; blur_node];
     RenderGraph.flattenedNodeList := [0; 1];
     RenderGraph.variables := [radius; mode];
     RenderGraph.enums := [mode_enum];
     RenderGraph.setVars := [double_radius] |}.

(** A graph whose second node fails. *)
Definition broken_graph : RenderGraph.t :=
  {| RenderGraph.nodes := [texture_node; broken_node; blur_node];
     RenderGraph.flattenedNodeList := [0; 1; 2];
     RenderGraph.variables := [];
     RenderGraph.enums := [];
     RenderGraph.setVars := [] |}.

Definition fragile_node : RenderGraphNode.t :=
  {| RenderGraphNode._index := RenderGraphNode_Other 5; RenderGraphNode.name := "fragile" |}.

(** A graph whose second node initializes and then fails to execute. *)
Definition fragile_graph : RenderGraph.t :=
  {| RenderGraph.nodes := [texture_node; fragile_node; blur_node];
     RenderGraph.flattenedNodeList := [0; 1; 2];
     RenderGraph.variables := [];
     RenderGraph.enums := [];
     RenderGraph.setVars := [] |}.

(** The state a computation leaves, [s] itself when it is undefined. *)
Definition state_after `{RT : RuntimeTypes} `{H : !Host} {A} (m : M State A) (s : State) : State :=
  match m s with Some (_, s') => s' | None => s end.

Local Close Scope string_scope.

End Reference.

(** * Properties of the expression evaluator *)

Lemma in_rangeb_spec T z : in_rangeb T z = true <-> in_range T z.
Proof. unfold in_rangeb, in_range. rewrite andb_true_iff, !Z.leb_le. tauto. Qed.

Lemma ExactAtb_sound A : ExactAtb A = true -> ExactAt Binary32.lib A.
Proof.
  unfold ExactAtb. rewrite !andb_true_iff, !bool_decide_eq_true.
  intros [[H1 H2] H3]. split; assumption.
Qed.

(** The reference library is exact on the small integers, the tested
    inputs of the specification among them. *)
Lemma Binary32_exact_small A : 1 <= A <= 64 -> ExactAt Binary32.lib A.
Proof.
  intros HA. apply ExactAtb_sound.
  assert (H : Forall (fun A => ExactAtb A = true) (seqZ 1 64)).
  { apply (bool_decide_unpack _). vm_compute. reflexivity. }
  rewrite Forall_forall in H. apply H, list_elem_of_In, elem_of_seqZ. lia.
Qed.


Lemma smallest_pow2_ge_unique A r r' :
  smallest_pow2_ge A r -> smallest_pow2_ge A r' -> r = r'.
Proof.
  intros ([k [Hk ->]] & H1 & H2) ([k' [Hk' ->]] & H1' & H2').
  apply Z.le_antisymm; [apply H2 | apply H2']; assumption.
Qed.

Lemma quot_nonneg_bounds a b : 0 <= a -> 0 < b -> 0 <= Z.quot a b <= a.
Proof.
  intros Ha Hb. split; [apply Z.quot_pos; lia|].
  apply Z.quot_le_upper_bound; [lia|nia].
Qed.

Lemma quot_nonneg_half a b : 0 <= a -> 2 <= b -> 2 * Z.quot a b <= a.
Proof.
  intros Ha Hb.
  pose proof (Z.mul_quot_le a b Ha ltac:(lia)).
  pose proof (quot_nonneg_bounds a b Ha ltac:(lia)). nia.
Qed.

(** The truncated quotient of two values of [T] is a value of [T], except
    for [INT_MIN / -1]. *)
Lemma c_quot_in_range T A B :
  B <> 0 -> in_range T A -> in_range T B ->
  ~ (T = I32 /\ A = - 2 ^ 31 /\ B = -1) ->
  in_range T (Z.quot A B).
Proof.
  intros HB HA HB' Hov. unfold in_range in *.
  destruct (Z.le_gt_cases 0 A) as [HA0|HA0], (Z.le_gt_cases 0 B) as [HB0|HB0].
  - pose proof (quot_nonneg_bounds A B HA0 ltac:(lia)). destruct T; cbn in *; lia.
  - pose proof (quot_nonneg_bounds A (- B) HA0 ltac:(lia)) as H.
    rewrite Z.quot_opp_r in H by lia. destruct T; cbn in *; lia.
  - pose proof (quot_nonneg_bounds (- A) B ltac:(lia) ltac:(lia)) as H.
    rewrite Z.quot_opp_l in H by lia. destruct T; cbn in *; lia.
  - pose proof (quot_nonneg_bounds (- A) (- B) ltac:(lia) ltac:(lia)) as H.
    rewrite Z.quot_opp_opp in H by lia.
    destruct T; cbn in *; try lia.
    destruct (Z.eq_dec B (-1)) as [->|HB1].
    + assert (A <> - 2 ^ 31) by (intros ->; apply Hov; auto). lia.
    + pose proof (quot_nonneg_half (- A) (- B) ltac:(lia) ltac:(lia)) as H'.
      rewrite Z.quot_opp_opp in H' by lia. lia.
Qed.

(** C5 (as amended). Integer [Divide] is guarded against a zero divisor:
    it stores 0, with no fault, for [int], [uint16_t] and [uint32_t] alike.
    A non-zero divisor stores the truncated quotient [A / B] for every pair
    of operands but [INT_MIN / -1] at the type [int]. The [float]
    specialization divides without a guard: whatever [B] is, the
    destination is the library quotient, which under IEEE 754 is an infinity
    for [x / 0] and NaN for [0 / 0]. *)
Theorem DoOp_Divide_guarded :
  forall (FL : FloatLib) (T : IntType) (A B dest : Z) (fa fb fdest : float),
    DoOp_int T A 0 dest SetVariableOperator.Divide = Some 0
    /\ (B <> 0 -> in_range T A -> in_range T B ->
        ~ (T = I32 /\ A = - 2 ^ 31 /\ B = -1) ->
        DoOp_int T A B dest SetVariableOperator.Divide = Some (Z.quot A B))
    /\ DoOp_float fa fb fdest SetVariableOperator.Divide = f_div fa fb
    /\ (forall d,
          @DoOp_float Binary32.lib (Binary32.of_Z 1) (Binary32.of_Z 0) d
            SetVariableOperator.Divide = S754_infinity false
          /\ @DoOp_float Binary32.lib (Binary32.of_Z (-1)) (Binary32.of_Z 0) d
               SetVariableOperator.Divide = S754_infinity true
          /\ @DoOp_float Binary32.lib (Binary32.of_Z 0) (Binary32.of_Z 0) d
               SetVariableOperator.Divide = S754_nan).
Proof.
  intros FL T A B dest fa fb fdest. repeat split.
  intros HB HA HB' Hov. cbn.
  destruct (Z.eqb_spec B 0) as [|_]; [contradiction|]. cbn.
  unfold c_div. destruct (Z.eqb_spec B 0) as [|_]; [contradiction|].
  assert (Hq : in_range T (Z.quot A B)).
  { apply c_quot_in_range; assumption. }
  apply in_rangeb_spec in Hq. rewrite Hq. reflexivity.
Qed.

Lemma DoOp_Divide_guarded_witness :
  @DoOp_int Binary32.lib I32 (-7) 2 0 SetVariableOperator.Divide = Some (-3).
Proof.
  apply (DoOp_Divide_guarded Binary32.lib I32 (-7) 2 0 S754_nan S754_nan S754_nan).
  - lia.
  - unfold in_range; cbn; lia.
  - unfold in_range; cbn; lia.
  - intros (_ & H & _). discriminate H.
Defined.

(** C5 fails as stated, for all operands: the guard tests the divisor for
    zero only and lets [INT_MIN / -1] through at the type [int]. The
    quotient, 2^31, is not an [int]: the division overflows, which is
    undefined and a fault on x86, whatever the float library and the
    destination are. *)
Lemma DoOp_Divide_INT_MIN_overflows :
  ~ (forall (FL : FloatLib) (T : IntType) (A B dest : Z),
       in_range T A -> in_range T B -> B <> 0 ->
       DoOp_int T A B dest SetVariableOperator.Divide = Some (Z.quot A B))
  /\ in_range I32 (- 2 ^ 31) /\ in_range I32 (-1)
  /\ ~ in_range I32 (Z.quot (- 2 ^ 31) (-1))
  /\ (forall (FL : FloatLib) (dest : Z),
        DoOp_int I32 (- 2 ^ 31) (-1) dest SetVariableOperator.Divide = None).
Proof.
  assert (HA : in_range I32 (- 2 ^ 31)) by (apply in_rangeb_spec; reflexivity).
  assert (HB : in_range I32 (-1)) by (apply in_rangeb_spec; reflexivity).
  assert (Hrun : forall (FL : FloatLib) (dest : Z),
            DoOp_int I32 (- 2 ^ 31) (-1) dest SetVariableOperator.Divide = None)
    by (intros FL dest; reflexivity).
  split; [|split; [exact HA|split; [exact HB|split; [|exact Hrun]]]].
  - intros Hall.
    specialize (Hall Binary32.lib I32 (- 2 ^ 31) (-1) 0 HA HB ltac:(lia)).
    rewrite Hrun in Hall. discriminate Hall.
  - intros Hq. apply in_rangeb_spec in Hq. discriminate Hq.
Qed.

(** The tested inputs of the specification, on the reference library:
    1 -> 1, 5 -> 8, 8 -> 8, 9 -> 16, in every instantiation. *)
Example PowerOf2GE_tested_inputs :
  forall T, In T [I32; U16; U32] ->
    map (fun A => @DoOp_int Binary32.lib T A 0 0 SetVariableOperator.PowerOf2GE) [1; 5; 8; 9]
    = [Some 1; Some 8; Some 8; Some 16]
    /\ map (fun A => @DoOp_float Binary32.lib (Binary32.of_Z A) S754_nan S754_nan
                       SetVariableOperator.PowerOf2GE) [1; 5; 8; 9]
       = map Binary32.of_Z [1; 8; 8; 16].
Proof.
  intros T HT. cbn in HT.
  destruct HT as [<-|[<-|[<-|[]]]]; split; vm_compute; reflexivity.
Qed.




(** * Properties of enum label resolution *)

Local Open Scope string_scope.

Lemma append_cons c a b : String c a ++ b = String c (a ++ b).
Proof. reflexivity. Qed.

(** The lambda of [StringBeginsWithCaseInsensitive] maps each capital
    letter to its lower-case form and leaves every other character. *)
Lemma ToLower_lower_case c : ToLower c = lower_case c.
Proof. destruct c as [[] [] [] [] [] [] [] []]; reflexivity. Qed.

Lemma lower_app a b : lower (a ++ b) = lower a ++ lower b.
Proof.
  induction a as [|c a IH]; [reflexivity|].
  rewrite append_cons. simpl. rewrite append_cons. now f_equal.
Qed.

Lemma lower_length a : String.length (lower a) = String.length a.
Proof. induction a as [|c a IH]; simpl; [reflexivity | now f_equal]. Qed.

Lemma eq_ci_length a b : eq_ci a b -> String.length a = String.length b.
Proof. intros H. rewrite <- (lower_length a), <- (lower_length b). now rewrite H. Qed.

Lemma advance_app a b : advance (String.length a) (a ++ b) = b.
Proof.
  induction a as [|c a IH]; [now destruct b|].
  rewrite append_cons. simpl. exact IH.
Qed.

Lemma StringBeginsWithCaseInsensitive_spec hayStack needle :
  StringBeginsWithCaseInsensitive hayStack needle = true
  <-> exists a b, hayStack = a ++ b /\ eq_ci a needle.
Proof.
  revert hayStack. induction needle as [|n needle IH]; intros hayStack; simpl.
  - split; [|reflexivity]. intros _. exists "", hayStack. split; reflexivity.
  - destruct hayStack as [|h hayStack].
    + split; [discriminate|]. intros (a & b & Hab & Heq).
      destruct a; [discriminate Heq | discriminate Hab].
    + rewrite !ToLower_lower_case.
      destruct (Ascii.eqb_spec (lower_case h) (lower_case n)) as [Hc|Hc].
      * rewrite IH. split.
        -- intros (a & b & -> & Heq). exists (String h a), b. split; [reflexivity|].
           unfold eq_ci in *. simpl. now rewrite Hc, Heq.
        -- intros (a & b & Hab & Heq). destruct a as [|c a]; [discriminate Heq|].
           rewrite append_cons in Hab. injection Hab as -> ->.
           exists a, b. split; [reflexivity|].
           unfold eq_ci in *. simpl in Heq. now injection Heq.
      * split; [discriminate|]. intros (a & b & Hab & Heq).
        destruct a as [|c a]; [discriminate Heq|].
        rewrite append_cons in Hab. injection Hab as -> ->.
        unfold eq_ci in Heq. simpl in Heq.
        injection Heq as Hc' _. contradiction.
Qed.

Lemma _stricmp_spec a b : _stricmp a b = 0%Z <-> eq_ci a b.
Proof.
  unfold eq_ci. revert b. induction a as [|x a IH]; intros [|y b]; simpl;
    try (split; [reflexivity + discriminate | reflexivity + discriminate]).
  rewrite !ToLower_lower_case.
  destruct (Ascii.eqb_spec (lower_case x) (lower_case y)) as [Hc|Hc].
  - rewrite IH, Hc. split; [intros ->; reflexivity | intros H; now injection H].
  - split.
    + destruct (_ <? _)%nat; discriminate.
    + intros H. injection H as H _. contradiction.
Qed.

Lemma EnumLabelToValue_loop_spec s its i :
  (0 <= i)%Z -> (i + Z.of_nat (length its) <= 2 ^ 31)%Z ->
  EnumLabelToValue_loop s its i =
    match list_find (fun it => eq_ci s (label it)) its with
    | Some (j, _) => (i + Z.of_nat j)%Z
    | None => (-1)%Z
    end.
Proof.
  revert i. induction its as [|it rest IH]; intros i Hi Hlen; simpl; [reflexivity|].
  cbn [list_find].
  destruct (decide (eq_ci s (label it))) as [Hm|Hm].
  - apply _stricmp_spec in Hm. rewrite Hm. simpl.
    rewrite Z.add_0_r. unfold wrap. rewrite Z.mod_small by (simpl in Hlen; lia). lia.
  - destruct (Z.eqb_spec (_stricmp s (label it)) 0) as [Hz|Hz];
      [apply _stricmp_spec in Hz; contradiction|].
    rewrite IH by (simpl in Hlen; lia).
    destruct (list_find _ rest) as [[j x]|]; simpl; [lia | reflexivity].
Qed.

(** C7. [EnumLabelToValue e s] is the index of the first item of [e] whose
    label equals [s] case-insensitively, once a leading "EnumName::" scope
    prefix (matched case-insensitively) has been stripped from [s], and the
    sentinel -1 when no label matches. Two texts are equal
    case-insensitively when they are the same once each capital letter is
    replaced by its lower-case form ([eq_ci], by the alphabet). The index
    is returned as an [int], so the enum holds at most [INT_MAX] items. *)
Theorem EnumLabelToValue_first_match :
  forall (e : Enum) (s : string),
    (Z.of_nat (length (items e)) <= int_max I32)%Z ->
    exists s', scope_stripped e s s'
               /\ EnumLabelToValue e s = first_match_index (items e) s'.
Proof.
  intros e s Hlen. unfold EnumLabelToValue, first_match_index.
  assert (Hloop : forall s', EnumLabelToValue_loop s' (items e) 0 =
            match list_find (fun it => eq_ci s' (label it)) (items e) with
            | Some (i, _) => Z.of_nat i | None => (-1)%Z end).
  { intros s'. rewrite EnumLabelToValue_loop_spec; [|lia|unfold int_max in Hlen; lia].
    destruct (list_find _ _) as [[j x]|]; [lia | reflexivity]. }
  destruct (StringBeginsWithCaseInsensitive s (originalName e ++ "::")) eqn:Hb.
  - apply StringBeginsWithCaseInsensitive_spec in Hb as (a & b & -> & Heq).
    exists b. split; [left; exists a; auto|].
    rewrite <- (eq_ci_length _ _ Heq), advance_app. apply Hloop.
  - exists s. split; [|apply Hloop]. right. split; [|reflexivity].
    intros a b -> Heq.
    assert (Ht : StringBeginsWithCaseInsensitive (a ++ b) (originalName e ++ "::") = true)
      by (apply StringBeginsWithCaseInsensitive_spec; eauto).
    congruence.
Qed.

Lemma EnumLabelToValue_first_match_witness :
  let e := {| originalName := "ModeName";
              items := [ {| label := "Slow" |}; {| label := "Fast" |} ] |} in
  exists s', scope_stripped e "modename::FAST" s'
             /\ s' = "FAST"
             /\ EnumLabelToValue e "modename::FAST" = 1%Z.
Proof.
  intros e.
  destruct (EnumLabelToValue_first_match e "modename::FAST" ltac:(simpl; lia))
    as (s' & Hs & Hr).
  assert (Hs' : s' = "FAST").
  { destruct Hs as [(a & Hsplit & Heq) | (Hno & _)].
    - apply eq_ci_length in Heq.
      rewrite <- (advance_app a s'), <- Hsplit, Heq. reflexivity.
    - exfalso. exact (Hno "modename::" "FAST" eq_refl eq_refl). }
  exists s'. split; [exact Hs|]. split; [exact Hs'|].
  rewrite Hr, Hs'. reflexivity.
Defined.

(** The scenario of the specification: whatever the case of the prefix and
    of the label, "ModeName::Fast" resolves to the index of "Fast". *)
Example EnumLabelToValue_scenario :
  let e := {| originalName := "ModeName";
              items := [ {| label := "Slow" |}; {| label := "Fast" |} ] |} in
  map (EnumLabelToValue e) ["ModeName::Fast"; "MODENAME::fast"; "fast"; "Fastest"; "Other::Fast"]
  = [1; 1; 1; -1; -1]%Z.
Proof. vm_compute. reflexivity. Qed.

Local Close Scope string_scope.




(** * Properties of the variable storage *)

Lemma length_le_encode n z : length (le_encode n z) = n.
Proof. revert z. induction n as [|n IH]; intros z; cbn; [reflexivity | now rewrite IH]. Qed.

Lemma Z_of_byte_range b : 0 <= Z_of_byte b < 256.
Proof.
  unfold Z_of_byte. pose proof (Byte.to_N_bounded b) as Hb.
  change 256 with (Z.of_N 256). lia.
Qed.

Lemma Z_of_byte_of_Z z : Z_of_byte (byte_of_Z z) = z mod 256.
Proof.
  unfold Z_of_byte, byte_of_Z.
  assert (Hz : 0 <= z mod 256 < 256) by (apply Z.mod_pos_bound; lia).
  destruct (Byte.of_N (Z.to_N (z mod 256))) as [b|] eqn:E.
  - apply Byte.to_of_N in E. rewrite E. lia.
  - apply Byte.of_N_None_iff in E. lia.
Qed.

Lemma byte_of_Z_of_byte b : byte_of_Z (Z_of_byte b) = b.
Proof.
  unfold byte_of_Z. rewrite Z.mod_small by apply Z_of_byte_range.
  unfold Z_of_byte. rewrite N2Z.id, Byte.of_to_N. reflexivity.
Qed.

Lemma le_decode_range bs : 0 <= le_decode bs < 2 ^ (8 * Z.of_nat (length bs)).
Proof.
  induction bs as [|b bs IH]; cbn [le_decode length]; [cbn; lia|].
  pose proof (Z_of_byte_range b).
  replace (8 * Z.of_nat (S (length bs))) with (8 + 8 * Z.of_nat (length bs)) by lia.
  rewrite Z.pow_add_r by lia. change (2 ^ 8) with 256. nia.
Qed.

Lemma le_decode_encode n z : le_decode (le_encode n z) = z mod 2 ^ (8 * Z.of_nat n).
Proof.
  revert z. induction n as [|n IH]; intros z; cbn [le_encode le_decode].
  - cbn. now rewrite Z.mod_1_r.
  - rewrite IH, Z_of_byte_of_Z.
    replace (8 * Z.of_nat (S n)) with (8 + 8 * Z.of_nat n) by lia.
    rewrite Z.pow_add_r by lia. change (2 ^ 8) with 256.
    rewrite Z.rem_mul_r by lia. reflexivity.
Qed.

Lemma le_encode_decode bs : le_encode (length bs) (le_decode bs) = bs.
Proof.
  induction bs as [|b bs IH]; cbn [le_encode le_decode length]; [reflexivity|].
  pose proof (Z_of_byte_range b).
  replace (Z_of_byte b + 256 * le_decode bs) with (Z_of_byte b + le_decode bs * 256) by lia.
  f_equal.
  - rewrite <- (byte_of_Z_of_byte b) at 2. unfold byte_of_Z.
    rewrite Z.mod_add by lia. reflexivity.
  - rewrite Z.div_add by lia.
    rewrite Z.div_small by lia. exact IH.
Qed.

Lemma slice_app_l (a b : list byte) : slice (a ++ b) 0 (length a) = Some a.
Proof.
  unfold slice. rewrite length_app.
  destruct (Nat.leb_spec (0 + length a) (length a + length b)) as [_|]; [|lia].
  rewrite drop_0, take_app_length. reflexivity.
Qed.

Lemma slice_app_r (a b : list byte) : slice (a ++ b) (length a) (length b) = Some b.
Proof.
  unfold slice. rewrite length_app.
  destruct (Nat.leb_spec (length a + length b) (length a + length b)) as [_|]; [|lia].
  rewrite drop_app_length, firstn_all. reflexivity.
Qed.

Lemma splice_app_l (a b a' : list byte) :
  length a' = length a -> splice (a ++ b) 0 a' = Some (a' ++ b).
Proof.
  intros Hl. unfold splice. rewrite length_app, Hl.
  destruct (Nat.leb_spec (0 + length a) (length a + length b)) as [_|]; [|lia].
  rewrite take_0, Nat.add_0_l, drop_app_length. reflexivity.
Qed.

Lemma splice_app_r (a b b' : list byte) :
  length b' = length b -> splice (a ++ b) (length a) b' = Some (a ++ b').
Proof.
  intros Hl. unfold splice. rewrite length_app, Hl.
  destruct (Nat.leb_spec (length a + length b) (length a + length b)) as [_|]; [|lia].
  rewrite take_app_length.
  rewrite drop_ge by (rewrite length_app; lia). rewrite app_nil_r. reflexivity.
Qed.

Section StorageProperties.
Context `{TIO : TextIO}.
Hypothesis Hlen : writes_in_place TIO.

Lemma Get_typed_present m v T n val dfl :
  stored m v T n val dfl ->
  VariableStorage.Get_typed v n T m =
    Some ({| Storage.value := PStorage (Variable_.name v, Variable_.type v) 0;
             Storage.dflt := PStorage (Variable_.name v, Variable_.type v) (sizeof T * n);
             Storage.size := sizeof T * n |},
          <[(Variable_.name v, Variable_.type v) :=
              val ++ SetFromString T (Variable_.dflt v) n dfl]> m).
Proof using Hlen.
  intros (Hm & Hv & Hd). unfold VariableStorage.Get_typed.
  rewrite Hm. rewrite bool_decide_eq_false_2 by discriminate. cbn [default from_option]. unfold id.
  cbn [Storage.dflt Storage.value Storage.size].
  unfold VariableStorage.SetFromString_at, VariableStorage.read, VariableStorage.write.
  rewrite !lookup_insert_eq.
  replace (sizeof T * n)%nat with (length val) by lia.
  replace (n * sizeof T)%nat with (length dfl) by lia.
  rewrite slice_app_r.
  rewrite splice_app_r by (rewrite Hlen; lia).
  rewrite insert_insert_eq. reflexivity.
Qed.

Lemma Get_typed_absent m v T n :
  m !! (Variable_.name v, Variable_.type v) = None ->
  let d := SetFromString T (Variable_.dflt v) n (replicate (n * sizeof T) x00) in
  VariableStorage.Get_typed v n T m =
    Some ({| Storage.value := PStorage (Variable_.name v, Variable_.type v) 0;
             Storage.dflt := PStorage (Variable_.name v, Variable_.type v) (sizeof T * n);
             Storage.size := sizeof T * n |},
          <[(Variable_.name v, Variable_.type v) := d ++ d]> m).
Proof using Hlen.
  intros Hm. cbv zeta. unfold VariableStorage.Get_typed.
  rewrite Hm. rewrite bool_decide_eq_true_2 by reflexivity. cbn [default from_option].
  cbn [Storage.dflt Storage.value Storage.size].
  assert (Hz : replicate (sizeof T * n * 2) x00
               = replicate (n * sizeof T) x00 ++ replicate (n * sizeof T) x00).
  { rewrite <- replicate_add. f_equal. lia. }
  rewrite Hz. clear Hz.
  assert (Hzl : length (replicate (n * sizeof T) x00) = (n * sizeof T)%nat)
    by apply length_replicate.
  remember (replicate (n * sizeof T) x00) as z eqn:Ez. clear Ez.
  assert (Hdl : length (SetFromString T (Variable_.dflt v) n z) = (n * sizeof T)%nat)
    by (apply Hlen; exact Hzl).
  remember (SetFromString T (Variable_.dflt v) n z) as d eqn:Ed.
  unfold VariableStorage.SetFromString_at, VariableStorage.read, VariableStorage.write.
  rewrite !lookup_insert_eq.
  replace (sizeof T * n)%nat with (length z) by lia.
  replace (n * sizeof T)%nat with (length z) by lia.
  rewrite slice_app_r. rewrite <- Ed.
  rewrite splice_app_r by lia.
  rewrite insert_insert_eq, !lookup_insert_eq.
  replace (slice (z ++ d) (length z) (length z)) with (slice (z ++ d) (length z) (length d))
    by (f_equal; lia).
  rewrite slice_app_r.
  rewrite splice_app_l by lia.
  rewrite insert_insert_eq. reflexivity.
Qed.

(** Setting the value of a stored variable from text: the text is parsed
    into the value, and the default is parsed again into its place. *)
Lemma SetValueFromString_present m v T n val dfl text :
  CallFor (Variable_.type v) = Some (T, n) ->
  stored m v T n val dfl ->
  VariableStorage.SetValueFromString v text m =
    Some (tt, <[(Variable_.name v, Variable_.type v) :=
                  SetFromString T text n val ++ SetFromString T (Variable_.dflt v) n dfl]> m).
Proof using Hlen.
  intros HT Hs. pose proof Hs as (Hm & Hv & Hd).
  unfold VariableStorage.SetValueFromString, VariableStorage.CallForVariable.
  rewrite HT. unfold mbind, M_bind, mret, M_ret.
  rewrite (Get_typed_present _ _ _ _ _ _ Hs). cbn [Storage.value].
  unfold VariableStorage.SetFromString_at, VariableStorage.read, VariableStorage.write.
  rewrite !lookup_insert_eq.
  replace (n * sizeof T)%nat with (length val) by lia.
  rewrite slice_app_l.
  rewrite splice_app_l by (rewrite Hlen; lia).
  rewrite insert_insert_eq. reflexivity.
Qed.

Lemma GetValueAsString_present m v T n val dfl :
  CallFor (Variable_.type v) = Some (T, n) ->
  stored m v T n val dfl ->
  VariableStorage.GetValueAsString v m =
    Some (GetAsString T n val,
          <[(Variable_.name v, Variable_.type v) :=
              val ++ SetFromString T (Variable_.dflt v) n dfl]> m).
Proof using Hlen.
  intros HT Hs. pose proof Hs as (Hm & Hv & Hd).
  unfold VariableStorage.GetValueAsString, VariableStorage.CallForVariable.
  rewrite HT. unfold mbind, M_bind, mret, M_ret.
  rewrite (Get_typed_present _ _ _ _ _ _ Hs). cbn [Storage.value].
  unfold VariableStorage.read.
  rewrite !lookup_insert_eq.
  replace (n * sizeof T)%nat with (length val) by lia.
  rewrite slice_app_l. reflexivity.
Qed.

Lemma stored_insert m v T n val dfl :
  length val = (n * sizeof T)%nat -> length dfl = (n * sizeof T)%nat ->
  stored (<[(Variable_.name v, Variable_.type v) := val ++ dfl]> m) v T n val dfl.
Proof. intros Hv Hd. split; [apply lookup_insert_eq | auto]. Qed.

Lemma SetValueFromString_absent m v T n text :
  CallFor (Variable_.type v) = Some (T, n) ->
  m !! (Variable_.name v, Variable_.type v) = None ->
  let d := SetFromString T (Variable_.dflt v) n (replicate (n * sizeof T) x00) in
  VariableStorage.SetValueFromString v text m =
    Some (tt, <[(Variable_.name v, Variable_.type v) := SetFromString T text n d ++ d]> m).
Proof using Hlen.
  intros HT Hm d.
  assert (Hd : length d = (n * sizeof T)%nat) by (apply Hlen, length_replicate).
  unfold VariableStorage.SetValueFromString, VariableStorage.CallForVariable.
  rewrite HT. unfold mbind, M_bind, mret, M_ret.
  rewrite (Get_typed_absent _ _ _ _ Hm). fold d. cbn [Storage.value].
  unfold VariableStorage.SetFromString_at, VariableStorage.read, VariableStorage.write.
  rewrite !lookup_insert_eq.
  replace (n * sizeof T)%nat with (length d) by lia.
  rewrite slice_app_l.
  rewrite splice_app_l by (rewrite Hlen; lia).
  rewrite insert_insert_eq. reflexivity.
Qed.

(** C3. For every variable type and component count, parsing the text that
    [GetValueAsString] produces for a stored value [val] restores exactly
    [val], whatever the variable held before and whether or not its storage
    existed. The overloads of [SetFromString] and [GetAsString] that do the
    conversion for one component type are taken with the law the
    specification states for them: [round_trips]. *)
Theorem SetValueFromString_GetValueAsString :
  forall (v : Variable_.t) (T : CompType) (n : nat) (P : list byte -> Prop)
         (m m' : VariableStorage.t) (val dfl : list byte),
    CallFor (Variable_.type v) = Some (T, n) ->
    round_trips TIO T n P ->
    stored m v T n val dfl -> P val ->
    ready m' v T n ->
    exists text m1 m2 dfl2,
      VariableStorage.GetValueAsString v m = Some (text, m1)
      /\ VariableStorage.SetValueFromString v text m' = Some (tt, m2)
      /\ stored m2 v T n val dfl2.
Proof using Hlen.
  intros v T n P m m' val dfl HT Hrt Hs HP Hready.
  pose proof Hs as (_ & Hv & Hd).
  exists (GetAsString T n val). eexists.
  destruct Hready as [Hnone|(val' & dfl' & Hs')].
  - do 2 eexists. split; [apply (GetValueAsString_present _ _ _ _ _ _ HT Hs)|].
    split; [apply (SetValueFromString_absent _ _ _ _ _ HT Hnone)|].
    rewrite Hrt by (try assumption; apply Hlen, length_replicate).
    apply stored_insert; [assumption | apply Hlen, length_replicate].
  - pose proof Hs' as (_ & Hv' & Hd').
    do 2 eexists. split; [apply (GetValueAsString_present _ _ _ _ _ _ HT Hs)|].
    split; [apply (SetValueFromString_present _ _ _ _ _ _ _ HT Hs')|].
    rewrite Hrt by assumption.
    apply stored_insert; [assumption | apply Hlen; assumption].
Qed.

End StorageProperties.

Lemma le_encode_congr n : forall z z',
  z mod 2 ^ (8 * Z.of_nat n) = z' mod 2 ^ (8 * Z.of_nat n) -> le_encode n z = le_encode n z'.
Proof.
  induction n as [|n IH]; intros z z' Hz; cbn [le_encode]; [reflexivity|].
  replace (8 * Z.of_nat (S n)) with (8 + 8 * Z.of_nat n) in Hz by lia.
  rewrite Z.pow_add_r in Hz by lia. change (2 ^ 8) with 256 in Hz.
  rewrite !Z.rem_mul_r in Hz by lia.
  pose proof (Z.mod_pos_bound z 256 ltac:(lia)).
  pose proof (Z.mod_pos_bound z' 256 ltac:(lia)).
  assert (H1 : z mod 256 = z' mod 256) by lia.
  assert (H2 : (z / 256) mod 2 ^ (8 * Z.of_nat n) = (z' / 256) mod 2 ^ (8 * Z.of_nat n)) by lia.
  f_equal; [unfold byte_of_Z; now rewrite H1 | apply IH; exact H2].
Qed.

Lemma le_encode_mod n z : le_encode n (z mod 2 ^ (8 * Z.of_nat n)) = le_encode n z.
Proof.
  apply le_encode_congr. apply Z.mod_mod.
  apply Z.pow_nonzero; lia.
Qed.

Lemma le_encode_wrap_I32 z : le_encode 4 (wrap I32 z) = le_encode 4 z.
Proof.
  apply le_encode_congr. unfold wrap. change (2 ^ (8 * Z.of_nat 4)) with (2 ^ 32).
  rewrite Zminus_mod_idemp_l. f_equal. lia.
Qed.

(** * Properties of the reference text format *)

Module ReferenceText.
Import Reference.
Local Open Scope string_scope.

Lemma digit_of_pretty_N_char d : (d < 10)%N -> digit_of (pretty_N_char d) = Some d.
Proof.
  intros Hd.
  assert (Hc : (d = 0 \/ d = 1 \/ d = 2 \/ d = 3 \/ d = 4 \/ d = 5 \/ d = 6 \/ d = 7
                \/ d = 8 \/ d = 9)%N) by lia.
  destruct Hc as [->|[->|[->|[->|[->|[->|[->|[->|[->| ->]]]]]]]]]; reflexivity.
Qed.

Lemma pretty_N_go_app x : forall s r, pretty_N_go x s +:+ r = pretty_N_go x (s +:+ r).
Proof.
  induction (N.lt_wf_0 x) as [x _ IH]. intros s r.
  destruct (N.eq_dec x 0%N) as [->|Hx]; [reflexivity|].
  rewrite (pretty_N_go_step x s), (pretty_N_go_step x (s +:+ r)) by lia.
  rewrite IH by (apply N.div_lt; lia). reflexivity.
Qed.

(** Reading back the digits written for [x]: they extend the number read
    so far by [x]. *)
Lemma parse_digits_pretty_N_go x : forall s,
  exists k, forall acc,
    parse_digits (pretty_N_go x s) acc = parse_digits s (acc * 10 ^ k + x)%N.
Proof.
  induction (N.lt_wf_0 x) as [x _ IH]. intros s.
  destruct (N.eq_dec x 0%N) as [->|Hx].
  - exists 0%N. intros acc. rewrite pretty_N_go_0. f_equal. lia.
  - destruct (IH (x `div` 10)%N ltac:(apply N.div_lt; lia)
               (String (pretty_N_char (x `mod` 10)) s)) as [k Hk].
    exists (k + 1)%N. intros acc.
    rewrite pretty_N_go_step by lia. rewrite Hk.
    cbn [parse_digits]. rewrite digit_of_pretty_N_char by (apply N.mod_lt; lia).
    f_equal. rewrite N.pow_add_r, N.pow_1_r.
    pose proof (N.div_mod x 10 ltac:(lia)). lia.
Qed.

Lemma starts_with_digit_pretty_N_go x : forall s,
  (0 < x)%N \/ starts_with_digit s = true -> starts_with_digit (pretty_N_go x s) = true.
Proof.
  induction (N.lt_wf_0 x) as [x _ IH]. intros s Hs.
  destruct (N.eq_dec x 0%N) as [->|Hx].
  - rewrite pretty_N_go_0. destruct Hs as [Hs|Hs]; [lia | exact Hs].
  - rewrite pretty_N_go_step by lia. apply IH; [apply N.div_lt; lia|].
    right. cbn. rewrite digit_of_pretty_N_char by (apply N.mod_lt; lia).
    reflexivity.
Qed.

Lemma parse_digits_stop rest acc : ends_number rest -> parse_digits rest acc = (acc, rest).
Proof.
  unfold ends_number. destruct rest as [|c rest]; cbn; [reflexivity|].
  destruct (digit_of c); [|reflexivity].
  rewrite bool_decide_eq_true_2 by eauto. discriminate.
Qed.

Lemma pretty_N_parse (n : N) rest :
  ends_number rest ->
  starts_with_digit (pretty n +:+ rest) = true
  /\ parse_digits (pretty n +:+ rest) 0 = (n, rest).
Proof.
  intros Hr. unfold pretty, pretty_N. destruct (decide (n = 0%N)) as [->|Hn].
  - split; [reflexivity|].
    change (parse_digits ("0" +:+ rest) 0) with (parse_digits rest 0).
    apply parse_digits_stop. exact Hr.
  - rewrite pretty_N_go_app. change ("" +:+ rest) with rest. split.
    + apply starts_with_digit_pretty_N_go. left. lia.
    + destruct (parse_digits_pretty_N_go n rest) as [k Hk]. rewrite Hk.
      rewrite N.mul_0_l, N.add_0_l. apply parse_digits_stop. exact Hr.
Qed.

Lemma parse_Z_pretty_N (n : N) rest :
  ends_number rest -> parse_Z (pretty n +:+ rest) = Some (Z.of_N n, rest).
Proof.
  intros Hr. destruct (pretty_N_parse n rest Hr) as [Hd Hp].
  unfold parse_Z. destruct (pretty n +:+ rest) as [|c t] eqn:E; [discriminate Hd|].
  assert (Hc : c <> "-"%char).
  { intros ->. cbn in Hd. discriminate Hd. }
  destruct (Ascii.eqb_spec c "-") as [|_]; [contradiction|].
  replace (match c with
           | "-"%char => _
           | _ => if starts_with_digit (String c t)
                  then let '(n0, rest0) := parse_digits (String c t) 0 in Some (Z.of_N n0, rest0)
                  else None
           end)
    with (if starts_with_digit (String c t)
          then let '(n0, rest0) := parse_digits (String c t) 0 in Some (Z.of_N n0, rest0)
          else None).
  - rewrite Hd, Hp. reflexivity.
  - destruct c as [[] [] [] [] [] [] [] []]; try reflexivity. contradiction.
Qed.

Lemma append_nil_r s : s +:+ "" = s.
Proof.
  induction s as [|c s IH]; [reflexivity|].
  change (String c s +:+ "") with (String c (s +:+ "")). now rewrite IH.
Qed.

Lemma parse_Z_pretty_Z (z : Z) rest :
  ends_number rest -> parse_Z (pretty z +:+ rest) = Some (z, rest).
Proof.
  intros Hr. destruct z as [|p|p]; unfold pretty, pretty_Z.
  - change (pretty 0%N +:+ rest) with ("0" +:+ rest).
    apply (parse_Z_pretty_N 0 rest Hr).
  - apply (parse_Z_pretty_N (N.pos p) rest Hr).
  - change (("-" +:+ pretty p) +:+ rest) with (String "-" (pretty (N.pos p) +:+ rest)).
    destruct (pretty_N_parse (N.pos p) rest Hr) as [Hd Hp].
    cbn [parse_Z]. rewrite Hd, Hp. reflexivity.
Qed.

Lemma skip_spaces_number s : starts_number s -> skip_spaces s = s.
Proof.
  destruct s as [|c s]; [reflexivity|]. cbn. intros Hc.
  destruct c as [[] [] [] [] [] [] [] []]; try reflexivity. contradiction.
Qed.

Lemma starts_number_pretty_N (n : N) rest : starts_number (pretty n +:+ rest).
Proof.
  destruct (pretty_N_parse n "" eq_refl) as [Hd _]. rewrite append_nil_r in Hd.
  destruct (pretty n) as [|c t]; [discriminate Hd|].
  change (String c t +:+ rest) with (String c (t +:+ rest)). cbn in *.
  intros ->. discriminate Hd.
Qed.

Lemma starts_number_pretty_Z (z : Z) rest : starts_number (pretty z +:+ rest).
Proof.
  destruct z as [|p|p]; unfold pretty, pretty_Z.
  - cbn. discriminate.
  - apply (starts_number_pretty_N (N.pos p)).
  - cbn. discriminate.
Qed.

Lemma parse_component_length T s bs rest :
  parse_component T s = Some (bs, rest) -> length bs = sizeof T.
Proof.
  destruct T; cbn;
    repeat match goal with
           | |- context [if ?b then _ else _] => destruct b
           | |- context [parse_Z ?s] => destruct (parse_Z s) as [[z r]|]
           end;
    cbn; intros Hq; inversion Hq; subst; try reflexivity; apply length_le_encode.
Qed.

(** The reference parser writes in place. *)
Lemma text_io_writes_in_place : writes_in_place text_io.
Proof.
  intros T text count. revert text. cbn [SetFromString text_io].
  induction count as [|n IH]; intros text old Hl; cbn [set_components]; [exact Hl|].
  destruct (parse_component T (skip_spaces text)) as [[bs rest]|] eqn:E; [|exact Hl].
  apply parse_component_length in E.
  rewrite length_app, length_take, IH by (rewrite length_drop; lia). lia.
Qed.

(** One number, followed by text that is not a digit. *)
Lemma set_components_number T (z : Z) (numtext : string) rest count old :
  is_int T ->
  starts_number (numtext +:+ rest) ->
  parse_Z (numtext +:+ rest) = Some (z, rest) ->
  set_components T (numtext +:+ rest) (S count) old
  = (le_encode (sizeof T) z
     ++ set_components T (skip_separator rest) count (drop (sizeof T) old))%list.
Proof.
  intros HT Hs Hp. cbn [set_components]. rewrite skip_spaces_number by exact Hs.
  assert (Hc : parse_component T (numtext +:+ rest) = Some (le_encode (sizeof T) z, rest)).
  { destruct HT as [->|[->| ->]]; cbn; rewrite Hp; reflexivity. }
  rewrite Hc. rewrite take_ge by (rewrite length_le_encode; lia). reflexivity.
Qed.

Lemma set_components_space T s count old :
  set_components T (String " " s) (S count) old = set_components T s (S count) old.
Proof. reflexivity. Qed.

Lemma sprintf_u_parse z rest :
  ends_number rest ->
  starts_number (sprintf_u z +:+ rest)
  /\ parse_Z (sprintf_u z +:+ rest) = Some (z mod 2 ^ 32, rest).
Proof.
  intros Hr. unfold sprintf_u. split; [apply starts_number_pretty_N|].
  rewrite parse_Z_pretty_N by exact Hr. f_equal. f_equal.
  apply Z2N.id. apply Z.mod_pos_bound. lia.
Qed.

(** The reference parser reads what the interpreter prints. *)
Lemma text_io_reads_decimal : reads_decimal text_io.
Proof.
  split.
  - intros a b c old Hl. cbn [SetFromString text_io]. unfold sizes_text.
    destruct (sprintf_u_parse a (", " +:+ sprintf_u b +:+ ", " +:+ sprintf_u c) eq_refl)
      as [Hs Hp].
    rewrite (set_components_number CUint32 _ _ _ _ _ ltac:(right; right; reflexivity) Hs Hp).
    change (skip_separator (", " +:+ sprintf_u b +:+ ", " +:+ sprintf_u c))
      with (String " " (sprintf_u b +:+ ", " +:+ sprintf_u c)).
    rewrite set_components_space.
    destruct (sprintf_u_parse b (", " +:+ sprintf_u c) eq_refl) as [Hs' Hp'].
    rewrite (set_components_number CUint32 _ _ _ _ _ ltac:(right; right; reflexivity) Hs' Hp').
    change (skip_separator (", " +:+ sprintf_u c)) with (String " " (sprintf_u c)).
    rewrite set_components_space.
    destruct (sprintf_u_parse c "" eq_refl) as [Hs'' Hp'']. rewrite append_nil_r in Hs'', Hp''.
    rewrite <- (append_nil_r (sprintf_u c)) at 1.
    rewrite (set_components_number CUint32 (c mod 2 ^ 32) _ _ _ _
               ltac:(right; right; reflexivity)) by (rewrite append_nil_r; assumption).
    cbn [set_components sizeof].
    rewrite !drop_drop. rewrite drop_ge by lia. rewrite app_nil_r.
    change (2 ^ 32) with (2 ^ (8 * Z.of_nat 4)). rewrite !le_encode_mod. reflexivity.
  - intros a old Hl. cbn [SetFromString text_io].
    destruct (sprintf_u_parse a "" eq_refl) as [Hs Hp]. rewrite append_nil_r in Hs, Hp.
    rewrite <- (append_nil_r (sprintf_u a)).
    rewrite (set_components_number CUint32 (a mod 2 ^ 32) _ _ _ _
               ltac:(right; right; reflexivity)) by (rewrite append_nil_r; assumption).
    cbn [set_components sizeof]. rewrite drop_ge by lia. rewrite app_nil_r.
    change (2 ^ 32) with (2 ^ (8 * Z.of_nat 4)). apply le_encode_mod.
  - intros i old Hl. cbn [SetFromString text_io]. unfold sprintf_i.
    rewrite <- (append_nil_r (pretty (wrap I32 i))).
    rewrite (set_components_number CInt (wrap I32 i) _ _ _ _ ltac:(left; reflexivity)).
    + cbn [set_components sizeof]. rewrite drop_ge by lia. rewrite app_nil_r.
      apply le_encode_wrap_I32.
    + apply starts_number_pretty_Z.
    + apply parse_Z_pretty_Z. reflexivity.
Qed.

Lemma print_components_S T n bs :
  print_components T (S n) bs
  = print_component T (take (sizeof T) bs) +:+ tail_text T n (drop (sizeof T) bs).
Proof. destruct n; cbn [print_components tail_text]; [now rewrite append_nil_r | reflexivity]. Qed.

Lemma ends_number_tail_text T n bs : ends_number (tail_text T n bs).
Proof. destruct n; reflexivity. Qed.

Lemma print_component_parse T bs rest :
  T <> CFloat -> length bs = sizeof T -> representable T bs -> ends_number rest ->
  parse_component T (skip_spaces (print_component T bs +:+ rest)) = Some (bs, rest).
Proof.
  intros HT Hl Hrep Hr. destruct T; try contradiction; cbn [print_component].
  - destruct bs as [|b [|? ?]]; try discriminate Hl.
    cbn in Hrep. inversion Hrep as [|? ? Hb _]; subst.
    destruct Hb as [-> | ->]; reflexivity.
  - rewrite skip_spaces_number by apply starts_number_pretty_Z.
    cbn [parse_component]. rewrite parse_Z_pretty_Z by exact Hr.
    cbn [mbind option_bind sizeof] in *.
    rewrite le_encode_wrap_I32. rewrite <- Hl. now rewrite le_encode_decode.
  - rewrite skip_spaces_number by apply starts_number_pretty_N.
    cbn [parse_component]. rewrite parse_Z_pretty_N by exact Hr.
    cbn [mbind option_bind sizeof] in *.
    rewrite Z2N.id by apply le_decode_range. rewrite <- Hl. now rewrite le_encode_decode.
  - rewrite skip_spaces_number by apply starts_number_pretty_N.
    cbn [parse_component]. rewrite parse_Z_pretty_N by exact Hr.
    cbn [mbind option_bind sizeof] in *.
    rewrite Z2N.id by apply le_decode_range. rewrite <- Hl. now rewrite le_encode_decode.
Qed.

Lemma representable_take T n bs : representable T bs -> representable T (take n bs).
Proof. destruct T; cbn; auto. apply Forall_take. Qed.

Lemma representable_drop T n bs : representable T bs -> representable T (drop n bs).
Proof. destruct T; cbn; auto. apply Forall_drop. Qed.

(** For booleans and integers the reference format round-trips, whatever
    the number of components. *)
Lemma text_io_round_trips T count :
  T <> CFloat -> round_trips text_io T count (representable T).
Proof.
  intros HT. unfold round_trips. cbn [SetFromString GetAsString text_io].
  induction count as [|n IH]; intros v old Hv Hold Hrep.
  - destruct v; [|discriminate Hv]. destruct old; [reflexivity | discriminate Hold].
  - assert (Hw : (0 < sizeof T)%nat) by (destruct T; cbn; lia).
    rewrite print_components_S. cbn [set_components].
    rewrite print_component_parse;
      [|exact HT|rewrite length_take; lia|apply representable_take; exact Hrep
       |apply ends_number_tail_text].
    rewrite take_take, Nat.min_id.
    etrans; [|apply (take_drop (sizeof T) v)]. f_equal.
    destruct n as [|n'].
    + cbn. rewrite !drop_ge by lia. reflexivity.
    + change (skip_separator (tail_text T (S n') (drop (sizeof T) v)))
        with (String " " (print_components T (S n') (drop (sizeof T) v))).
      rewrite set_components_space.
      apply IH; [rewrite length_drop; lia | rewrite length_drop; lia
                |apply representable_drop; exact Hrep].
Qed.

End ReferenceText.

(** * Properties of the interpreter *)

Section InterpreterProperties.
Context `{FL : FloatLib} `{TIO : TextIO} `{SC : Schema} `{RT : RuntimeTypes} `{H : !Host}.

(** C4. [EvaluateCondition] is false whenever [alwaysFalse] is set; when it
    is not set, the condition is true whenever variable 1 is unset (index
    -1) or the comparison is unset ([Count]), whatever the other fields
    are. The state is left as it was. *)
Theorem EvaluateCondition_vacuous :
  forall (v1 v2 : Z) (value2 : string) (cmp : ConditionComparison.t) (s : State),
    EvaluateCondition
      {| Condition.variable1Index := v1; Condition.variable2Index := v2;
         Condition.value2 := value2; Condition.comparison := cmp;
         Condition.alwaysFalse := true |} s = Some (false, s)
    /\ EvaluateCondition
         {| Condition.variable1Index := -1; Condition.variable2Index := v2;
            Condition.value2 := value2; Condition.comparison := cmp;
            Condition.alwaysFalse := false |} s = Some (true, s)
    /\ EvaluateCondition
         {| Condition.variable1Index := v1; Condition.variable2Index := v2;
            Condition.value2 := value2; Condition.comparison := ConditionComparison.Count;
            Condition.alwaysFalse := false |} s = Some (true, s).
Proof.
  intros v1 v2 value2 cmp s. repeat split.
  unfold EvaluateCondition. cbn.
  rewrite orb_true_r. reflexivity.
Qed.

(** C9 (as amended). [Clear] sets the compile result to [NotCompiledYet]
    and empties the variable storage and the list of runtime variables. It
    leaves the runtime data of every node kind, and the render graph, as
    they were. *)
Theorem Clear_resets_variables :
  forall (s : State),
    exists s', Clear s = Some (tt, s')
      /\ m_compileResult s' = GigiCompileResult.NotCompiledYet
      /\ m_variableStorage s' = ∅
      /\ m_runtimeVariables s' = []
      /\ m_RuntimeData s' = m_RuntimeData s
      /\ m_renderGraph s' = m_renderGraph s.
Proof. intros s. eexists. repeat split. Qed.

(** *** The node loops *)

(** A node action always returns; it appends itself to the calls and
    leaves the graph, the log and the variables alone. *)
Lemma NodeAction_call_spec node action s :
  exists ok s', NodeAction_call node action s = Some (ok, s')
    /\ calls s' = calls s ++ [(node, action, ok)]
    /\ m_renderGraph s' = m_renderGraph s
    /\ logged s' = logged s.
Proof.
  unfold NodeAction_call, GetOrCreate, mbind, M_bind, get, modify, mret, M_ret.
  destruct (m_RuntimeData s (RenderGraphNode._index node) !! RenderGraphNode.name node) as [rd|];
    cbn.
  - destruct (OnNodeAction node rd action (host s)) as [[ok rd'] h] eqn:E.
    exists ok. eexists. repeat split.
  - destruct (OnNodeAction node (rt_default (RenderGraphNode._index node)) action (host s))
      as [[ok rd'] h] eqn:E.
    exists ok. eexists. repeat split.
Qed.

Lemma Execute_loop_spec indices : forall nodes s,
  names_nodes s indices nodes ->
  (exists s', Execute_loop indices s = Some (true, s')
     /\ calls s' = calls s ++ succeeded NodeAction.Execute nodes
     /\ m_renderGraph s' = m_renderGraph s
     /\ logged s' = logged s)
  \/ (exists k node s', nodes !! k = Some node
        /\ Execute_loop indices s = Some (false, s')
        /\ calls s' = calls s ++ succeeded NodeAction.Execute (take k nodes)
                        ++ [(node, NodeAction.Execute, false)]
        /\ m_renderGraph s' = m_renderGraph s
        /\ logged s' = logged s).
Proof.
  induction indices as [|i indices IH]; intros nodes s Hn.
  - inversion Hn; subst. left. exists s. cbn. rewrite app_nil_r. auto.
  - inversion Hn as [|? node ? nodes' Hi Hrest]; subst.
    destruct (NodeAction_call_spec node NodeAction.Execute s) as (ok & s1 & Hc & Hcalls & Hg & Hl).
    cbn [Execute_loop]. unfold mbind, M_bind, get, defined. rewrite Hi. cbn. rewrite Hc.
    destruct ok; cbn.
    + assert (Hn' : names_nodes s1 indices nodes') by (unfold names_nodes; rewrite Hg; exact Hrest).
      destruct (IH nodes' s1 Hn') as [(s' & He & Hcs & Hg' & Hl')|(k & n & s' & Hk & He & Hcs & Hg' & Hl')].
      * left. exists s'. rewrite He. repeat split; try congruence.
        rewrite Hcs, Hcalls. cbn. rewrite <- app_assoc. reflexivity.
      * right. exists (S k), n, s'. rewrite He. repeat split; try congruence; [exact Hk|].
        rewrite Hcs, Hcalls. cbn. rewrite <- !app_assoc. reflexivity.
    + right. exists 0%nat, node, s1. repeat split; auto.
Qed.

Lemma Compile_loop_spec indices : forall nodes s,
  names_nodes s indices nodes ->
  (exists s', Compile_loop indices s = Some (true, s')
     /\ calls s' = calls s ++ succeeded NodeAction.Init nodes
     /\ m_renderGraph s' = m_renderGraph s
     /\ logged s' = logged s)
  \/ (exists k node s', nodes !! k = Some node
        /\ Compile_loop indices s = Some (false, s')
        /\ calls s' = calls s ++ succeeded NodeAction.Init (take k nodes)
                        ++ [(node, NodeAction.Init, false)]
        /\ m_renderGraph s' = m_renderGraph s
        /\ logged s' = logged s ++ [(LogLevel.Error, Init_error_message node)]).
Proof.
  induction indices as [|i indices IH]; intros nodes s Hn.
  - inversion Hn; subst. left. exists s. cbn. rewrite app_nil_r. auto.
  - inversion Hn as [|? node ? nodes' Hi Hrest]; subst.
    destruct (NodeAction_call_spec node NodeAction.Init s) as (ok & s1 & Hc & Hcalls & Hg & Hl).
    cbn [Compile_loop]. unfold mbind, M_bind, get, defined. rewrite Hi. cbn. rewrite Hc.
    destruct ok; cbn.
    + assert (Hn' : names_nodes s1 indices nodes') by (unfold names_nodes; rewrite Hg; exact Hrest).
      destruct (IH nodes' s1 Hn') as [(s' & He & Hcs & Hg' & Hl')|(k & n & s' & Hk & He & Hcs & Hg' & Hl')].
      * left. exists s'. rewrite He. repeat split; try congruence.
        rewrite Hcs, Hcalls. cbn. rewrite <- app_assoc. reflexivity.
      * right. exists (S k), n, s'. rewrite He. repeat split; try congruence; [exact Hk|].
        rewrite Hcs, Hcalls. cbn. rewrite <- !app_assoc. reflexivity.
    + right. exists 0%nat, node. eexists. repeat split; cbn; auto.
      rewrite Hl. reflexivity.
Qed.

(** A node action is the question put to the host: it returns what
    [OnNodeAction] answers and leaves the state the answer gives. *)
Lemma NodeAction_call_asked node action s :
  NodeAction_call node action s = Some ((asked node action s).1.1, answered node action s).
Proof.
  unfold NodeAction_call, GetOrCreate, answered, asked, runtime_data_of, looked_up,
    mbind, M_bind, get, modify, mret, M_ret.
  destruct (m_RuntimeData s (RenderGraphNode._index node) !! RenderGraphNode.name node) as [rd|];
    cbn [default from_option id host set_RuntimeData].
  - destruct (OnNodeAction node rd action (host s)) as [[ok rd'] h]. reflexivity.
  - destruct (OnNodeAction node (rt_default (RenderGraphNode._index node)) action (host s))
      as [[ok rd'] h]. reflexivity.
Qed.

Lemma answered_renderGraph node action s : m_renderGraph (answered node action s) = m_renderGraph s.
Proof.
  unfold answered, looked_up. destruct (asked node action s) as [[ok rd] h].
  destruct (m_RuntimeData s _ !! _); reflexivity.
Qed.

Lemma answered_logged node action s : logged (answered node action s) = logged s.
Proof.
  unfold answered, looked_up. destruct (asked node action s) as [[ok rd] h].
  destruct (m_RuntimeData s _ !! _); reflexivity.
Qed.

Lemma run_nodes_logged action nodes : forall s, logged (run_nodes action nodes s).2 = logged s.
Proof.
  induction nodes as [|node rest IH]; intros s; cbn [run_nodes]; [reflexivity|].
  destruct ((asked node action s).1.1); cbn [snd].
  - rewrite IH. apply answered_logged.
  - apply answered_logged.
Qed.


(** The loop of [Compile] is the node loop of the specification, followed
    by the message when a node has failed. *)
Lemma Compile_loop_run indices : forall nodes s,
  names_nodes s indices nodes ->
  Compile_loop indices s
  = match run_nodes NodeAction.Init nodes s with
    | (None, s') => Some (true, s')
    | (Some node, s') =>
        Some (false, set_logged (logged s' ++ [(LogLevel.Error, Init_error_message node)]) s')
    end.
Proof.
  induction indices as [|i indices IH]; intros nodes s Hn.
  - inversion Hn; subst. reflexivity.
  - inversion Hn as [|? node ? nodes' Hi Hrest]; subst.
    cbn [Compile_loop run_nodes]. unfold mbind, M_bind, get, defined, modify. rewrite Hi.
    rewrite NodeAction_call_asked.
    destruct ((asked node NodeAction.Init s).1.1); cbn [negb]; [|reflexivity].
    apply IH. unfold names_nodes. rewrite answered_renderGraph. exact Hrest.
Qed.


(** *** Compile *)

Lemma same_but_variables_refl s : same_but_variables s s.
Proof. repeat split. Qed.

Lemma same_but_variables_trans s1 s2 s3 :
  same_but_variables s1 s2 -> same_but_variables s2 s3 -> same_but_variables s1 s3.
Proof. unfold same_but_variables. intuition congruence. Qed.

Lemma on_storage_frame {A} (m : M VariableStorage.t A) s a s' :
  on_storage m s = Some (a, s') -> same_but_variables s s'.
Proof.
  unfold on_storage. destruct (m (m_variableStorage s)) as [[a' v]|]; [|discriminate].
  intros [= <- <-]. repeat split.
Qed.

Lemma CreateVariableStorage_loop_frame variables : forall s s',
  CreateVariableStorage_loop variables s = Some (tt, s') -> same_but_variables s s'.
Proof.
  induction variables as [|v rest IH]; intros s s'; cbn.
  - intros [= <-]. apply same_but_variables_refl.
  - unfold mbind, M_bind, modify.
    destruct (on_storage (VariableStorage.Get v) s) as [[st s1]|] eqn:E; [|discriminate].
    intros Hrest. apply on_storage_frame in E. apply IH in Hrest.
    eapply same_but_variables_trans; [exact E|].
    eapply same_but_variables_trans; [|exact Hrest]. repeat split.
Qed.

Lemma CreateVariableStorage_frame g s s' :
  CreateVariableStorage g s = Some (tt, s') -> same_but_variables s s'.
Proof.
  unfold CreateVariableStorage, mbind, M_bind, modify. intros Hl.
  apply CreateVariableStorage_loop_frame in Hl.
  eapply same_but_variables_trans; [|exact Hl]. repeat split.
Qed.

(** [Compile], with the state of each stage named. *)
Lemma Compile_unfold fileName PostLoad s :
  Compile fileName PostLoad s =
    let s0 := before_GigiCompile s in
    let '(result, g, h) :=
      GigiCompile GigiBuildFlavor.Interpreter_Interpreter fileName (m_tempDirectory s0)
        PostLoad RenderGraph.empty (host s0) in
    let s' := set_compileResult result (set_renderGraph g (set_host h s0)) in
    if negb (bool_decide (result = GigiCompileResult.OK)) then Some (result, s')
    else
      match CreateVariableStorage g s' with
      | Some (_, s1) =>
          let s2 := set_RuntimeData (fun _ => ∅) (set_host (OnCompileOK (host s1)) s1) in
          match Compile_loop (RenderGraph.flattenedNodeList (m_renderGraph s2)) s2 with
          | Some (true, s3) => Some (GigiCompileResult.OK, s3)
          | Some (false, s3) => Some (GigiCompileResult.InterpreterError, s3)
          | None => None
          end
      | None => None
      end.
Proof.
  unfold Compile, mbind, M_bind, modify, get. cbv beta iota zeta.
  change (m_renderGraph (before_GigiCompile s)) with RenderGraph.empty.
  destruct (GigiCompile _ _ _ _ _ _) as [[result g] h].
  cbv beta iota zeta.
  destruct (negb (bool_decide (result = GigiCompileResult.OK))); [reflexivity|].
  destruct (CreateVariableStorage g _) as [[[] s1]|]; [|reflexivity].
  cbv beta iota zeta.
  destruct (Compile_loop _ _) as [[[] s3]|]; reflexivity.
Qed.

(** C2. When the external compile succeeds with the graph [g] and the
    runtime variable storage is created, [Compile] asks the host, through
    [OnNodeAction], for the Init action of the nodes of [flattenedNodeList]
    in list order ([run_nodes]), starting from empty registries. When the
    [OnNodeAction] of a node returns false, no later node is asked,
    [Compile] hands one message to the log function, an error with the
    name of that node and of its kind, and returns [InterpreterError]. When
    every [OnNodeAction] returns true, [Compile] returns OK and logs
    nothing. *)
Theorem Compile_init_short_circuits :
  forall (fileName : string) (PostLoad : RenderGraph.t -> RenderGraph.t) (s : State)
         (g : RenderGraph.t) (h : HostState) (s1 : State) (nodes : list RenderGraphNode.t),
    GigiCompile GigiBuildFlavor.Interpreter_Interpreter fileName
      (m_tempDirectory (before_GigiCompile s)) PostLoad RenderGraph.empty
      (host (before_GigiCompile s)) = (GigiCompileResult.OK, g, h) ->
    CreateVariableStorage g
      (set_compileResult GigiCompileResult.OK
         (set_renderGraph g (set_host h (before_GigiCompile s)))) = Some (tt, s1) ->
    Forall2 (fun i n => at_index (RenderGraph.nodes g) i = Some n)
      (RenderGraph.flattenedNodeList g) nodes ->
    match run_nodes NodeAction.Init nodes
            (set_RuntimeData (fun _ => ∅) (set_host (OnCompileOK (host s1)) s1)) with
    | (None, s3) =>
        Compile fileName PostLoad s = Some (GigiCompileResult.OK, s3)
        /\ logged s3 = logged s
    | (Some failed, s3) =>
        Compile fileName PostLoad s
        = Some (GigiCompileResult.InterpreterError,
                set_logged
                  (logged s ++
                   [(LogLevel.Error,
                     ("Error during IGigiInterpreter::Compile OnNodeAction(Init) in node "
                      +:+ RenderGraphNode.name failed
                      +:+ " (" +:+ variantName (RenderGraphNode._index failed) +:+ ")")%string)])
                  s3)
    end.
Proof.
  intros fileName PostLoad s g h s1 nodes Hc Hv Hn.
  pose proof (CreateVariableStorage_frame _ _ _ Hv) as (Hr & Hg & _ & _ & Hl & Hcalls).
  cbn in Hr, Hg, Hl, Hcalls.
  set (s2 := set_RuntimeData (fun _ => ∅) (set_host (OnCompileOK (host s1)) s1)).
  assert (HC : Compile fileName PostLoad s =
               match Compile_loop (RenderGraph.flattenedNodeList g) s2 with
               | Some (true, s3) => Some (GigiCompileResult.OK, s3)
               | Some (false, s3) => Some (GigiCompileResult.InterpreterError, s3)
               | None => None
               end).
  { rewrite Compile_unfold. cbv zeta. rewrite Hc.
    rewrite bool_decide_eq_true_2 by reflexivity. cbn [negb]. rewrite Hv.
    fold s2. replace (m_renderGraph s2) with g by (symmetry; exact Hg).
    destruct (Compile_loop _ s2) as [[[] s3]|]; reflexivity. }
  assert (Hn2 : names_nodes s2 (RenderGraph.flattenedNodeList g) nodes).
  { unfold names_nodes. cbn. rewrite Hg. exact Hn. }
  rewrite (Compile_loop_run _ nodes s2 Hn2) in HC.
  pose proof (run_nodes_logged NodeAction.Init nodes s2) as Hlog.
  destruct (run_nodes NodeAction.Init nodes s2) as [[failed|] s3]; cbn [snd] in Hlog.
  - rewrite HC. unfold Init_error_message. rewrite Hlog. cbn [logged set_RuntimeData set_host s2].
    rewrite Hl. reflexivity.
  - split; [exact HC|]. rewrite Hlog. cbn. exact Hl.
Qed.

(** The node actions leave the compile result alone. *)
Lemma NodeAction_call_compileResult node action s ok s' :
  NodeAction_call node action s = Some (ok, s') -> m_compileResult s' = m_compileResult s.
Proof.
  unfold NodeAction_call, GetOrCreate, mbind, M_bind, get, modify, mret, M_ret.
  destruct (m_RuntimeData s (RenderGraphNode._index node) !! RenderGraphNode.name node) as [rd|];
    cbn.
  - destruct (OnNodeAction node rd action (host s)) as [[ok' rd'] h].
    intros Hq; inversion Hq; subst. reflexivity.
  - destruct (OnNodeAction node (rt_default (RenderGraphNode._index node)) action (host s))
      as [[ok' rd'] h].
    intros Hq; inversion Hq; subst. reflexivity.
Qed.

Lemma Compile_loop_compileResult indices : forall s ok s',
  Compile_loop indices s = Some (ok, s') -> m_compileResult s' = m_compileResult s.
Proof.
  induction indices as [|i indices IH]; intros s ok s'; cbn [Compile_loop].
  - intros Hq; inversion Hq; subst. reflexivity.
  - unfold mbind, M_bind, get, defined, modify, mret, M_ret.
    destruct (at_index (RenderGraph.nodes (m_renderGraph s)) i) as [node|]; [|discriminate].
    destruct (NodeAction_call node NodeAction.Init s) as [[b s1]|] eqn:Hc; [|discriminate].
    apply NodeAction_call_compileResult in Hc.
    destruct b; cbn [negb].
    + intros Hrest. apply IH in Hrest. congruence.
    + intros Hq; inversion Hq; subst. cbn. exact Hc.
Qed.

(** X1. Whatever [Compile] returns, the member [m_compileResult] holds the
    result of the external compiler. The value returned is that result,
    or [InterpreterError] when an Init action failed: in that case the
    member is still OK, which is what [Execute] tests, so [Execute] is not
    the no-op of an interpreter that is not compiled. *)
Theorem Compile_stores_compiler_result :
  forall (fileName : string) (PostLoad : RenderGraph.t -> RenderGraph.t) (s : State)
         (r : GigiCompileResult.t) (s3 : State),
    Compile fileName PostLoad s = Some (r, s3) ->
    m_compileResult s3
    = (GigiCompile GigiBuildFlavor.Interpreter_Interpreter fileName
         (m_tempDirectory (before_GigiCompile s)) PostLoad RenderGraph.empty
         (host (before_GigiCompile s))).1.1
    /\ (r = m_compileResult s3
        \/ r = GigiCompileResult.InterpreterError
           /\ m_compileResult s3 = GigiCompileResult.OK).
Proof.
  intros fileName PostLoad s r s3. rewrite Compile_unfold. cbv zeta.
  destruct (GigiCompile _ _ _ _ _ _) as [[result g] h]. cbn [fst].
  destruct (bool_decide (result = GigiCompileResult.OK)) eqn:Hok; cbn [negb].
  - apply bool_decide_eq_true_1 in Hok. subst result.
    destruct (CreateVariableStorage g _) as [[[] s1]|] eqn:Hv; [|discriminate].
    apply CreateVariableStorage_frame in Hv. destruct Hv as (Hr & _). cbn in Hr.
    destruct (Compile_loop _ _) as [[ok s3']|] eqn:Hl; [|discriminate].
    apply Compile_loop_compileResult in Hl. cbn in Hl.
    assert (Hm : m_compileResult s3' = GigiCompileResult.OK) by congruence.
    destruct ok; intros Hq; inversion Hq; subst; rewrite Hm; auto.
  - intros Hq; inversion Hq; subst. cbn. auto.
Qed.

(** *** Runtime variables and operands *)

(** C10. [SetRuntimeVariableFromString] on a variable with an enum first
    resolves the text as a label of the enum (case-insensitively, with an
    optional "EnumName::" prefix, as [EnumLabelToValue] does). When
    the index is not negative, the variable is set from the decimal text
    of the index, so that an [int] variable then holds the index itself;
    when no label matches, and for a variable without an enum, the text is
    handed to the parser of the type of the variable. *)
Theorem SetRuntimeVariableFromString_enum :
  forall (s : State) (index : Z) (textValue : string) (rv : RuntimeVariable),
    at_index (m_runtimeVariables s) index = Some rv ->
    (Variable_.enumIndex (variable rv) = -1 ->
       SetRuntimeVariableFromString index textValue s
       = on_storage (VariableStorage.SetValueFromString (variable rv) textValue) s)
    /\ (forall e,
          Variable_.enumIndex (variable rv) <> -1 ->
          at_index (RenderGraph.enums (m_renderGraph s)) (Variable_.enumIndex (variable rv))
            = Some e ->
          (EnumLabelToValue e textValue < 0 ->
             SetRuntimeVariableFromString index textValue s
             = on_storage (VariableStorage.SetValueFromString (variable rv) textValue) s)
          /\ (0 <= EnumLabelToValue e textValue ->
                SetRuntimeVariableFromString index textValue s
                = on_storage (VariableStorage.SetValueFromString (variable rv)
                                (sprintf_i (EnumLabelToValue e textValue))) s
                /\ (writes_in_place TIO -> reads_decimal TIO ->
                    Variable_.type (variable rv) = DataFieldType.Int ->
                    forall val dfl,
                      stored (m_variableStorage s) (variable rv) CInt 1 val dfl ->
                      exists s' dfl',
                        SetRuntimeVariableFromString index textValue s = Some (tt, s')
                        /\ stored (m_variableStorage s') (variable rv) CInt 1
                             (le_encode 4 (EnumLabelToValue e textValue)) dfl'))).
Proof.
  intros s index textValue rv Hrv.
  assert (Hget : GetRuntimeVariable index s = Some (rv, s)).
  { unfold GetRuntimeVariable, defined. rewrite Hrv. reflexivity. }
  split.
  - intros He. unfold SetRuntimeVariableFromString, mbind, M_bind, get.
    rewrite Hget. rewrite He. reflexivity.
  - intros e He Henum.
    assert (Hne : negb (Variable_.enumIndex (variable rv) =? -1) = true).
    { apply negb_true_iff, Z.eqb_neq. exact He. }
    split.
    + intros Hneg. unfold SetRuntimeVariableFromString, mbind, M_bind, get, defined, mret, M_ret.
      rewrite Hget, Hne, Henum.
      destruct (Z.geb_spec (EnumLabelToValue e textValue) 0) as [|_]; [lia|]. reflexivity.
    + intros Hpos.
      assert (Hrun : SetRuntimeVariableFromString index textValue s
                     = on_storage (VariableStorage.SetValueFromString (variable rv)
                                     (sprintf_i (EnumLabelToValue e textValue))) s).
      { unfold SetRuntimeVariableFromString, mbind, M_bind, get, defined, mret, M_ret.
        rewrite Hget, Hne, Henum.
        destruct (Z.geb_spec (EnumLabelToValue e textValue) 0) as [_|]; [|lia].
        destruct (on_storage _ s) as [[[] s']|]; reflexivity. }
      split; [exact Hrun|].
      intros Hlen Hdec Hty val dfl Hs. rewrite Hrun. unfold on_storage.
      assert (HT : CallFor (Variable_.type (variable rv)) = Some (CInt, 1%nat))
        by (rewrite Hty; reflexivity).
      rewrite (SetValueFromString_present Hlen _ _ _ _ _ _ _ HT Hs).
      pose proof Hs as (_ & Hv & Hd).
      do 2 eexists. split; [reflexivity|]. cbn [m_variableStorage set_variableStorage].
      rewrite (reads_index _ Hdec) by exact Hv.
      apply stored_insert; [apply length_le_encode | apply Hlen; exact Hd].
Qed.

End InterpreterProperties.

(** C9 fails as stated: after a graph with a texture has been compiled,
    [Clear] leaves the runtime data of the texture in its registry. *)
Lemma Clear_keeps_runtime_data :
  let H := Reference.host GigiCompileResult.OK Reference.blur_graph in
  let s := Reference.state_after (Compile "blur.gg" id) (initial_state tt) in
  let s' := Reference.state_after Clear s in
  Clear s = Some (tt, s')
  /\ m_RuntimeData s' RenderGraphNode_Resource_Texture !! "tex"%string = Some (0, 0, 0, 0)
  /\ m_RuntimeData s' RenderGraphNode_Resource_Texture <> ∅.
Proof.
  intros H s s'. split; [reflexivity|].
  assert (Hl : m_RuntimeData s' RenderGraphNode_Resource_Texture !! "tex"%string
               = Some (0, 0, 0, 0)) by (vm_compute; reflexivity).
  split; [exact Hl|]. intros He. rewrite He in Hl. discriminate Hl.
Qed.


Lemma Compile_init_short_circuits_witness :
  let H := Reference.journal_host GigiCompileResult.OK Reference.broken_graph in
  let s := initial_state [] in
  exists s3,
    Compile "broken.gg" id s = Some (GigiCompileResult.InterpreterError, s3)
    /\ host s3 = [("tex"%string, NodeAction.Init); ("broken"%string, NodeAction.Init)]
    /\ logged s3
       = [(LogLevel.Error,
           "Error during IGigiInterpreter::Compile OnNodeAction(Init) in node broken (action)"%string)].
Proof.
  intros H s.
  pose proof (Compile_init_short_circuits (H := H) "broken.gg" id s Reference.broken_graph []
           (set_runtimeVariables []
              (set_compileResult GigiCompileResult.OK
                 (set_renderGraph Reference.broken_graph
                    (set_host (H := H) [] (before_GigiCompile s)))))
           [Reference.texture_node; Reference.broken_node; Reference.blur_node]
           eq_refl eq_refl ltac:(repeat constructor)) as Hrun.
  eexists. split; [exact Hrun|]. split; reflexivity.
Defined.

Lemma Compile_stores_compiler_result_witness :
  let H := Reference.host GigiCompileResult.OK Reference.broken_graph in
  match Compile "broken.gg" id (initial_state tt) with
  | Some (r, s3) => m_compileResult s3 = GigiCompileResult.OK
  | None => True
  end.
Proof.
  intros H.
  destruct (Compile "broken.gg" id (initial_state (H := H) tt)) as [[r s3]|] eqn:E.
  - destruct (Compile_stores_compiler_result "broken.gg" id (initial_state (H := H) tt) r s3 E)
      as [Hm _].
    exact Hm.
  - exact I.
Defined.

(** The scenarios of the specification, run on the reference
    collaborators: a failing Init makes [Compile] return
    [InterpreterError] after the calls of the nodes up to the failing one;
    a failing Execute makes [Execute] return false likewise; and
    [radius = radius * 2] before execution turns 1 into 2 and then 4. *)
Example Compile_stops_at_broken_node :
  let H := Reference.host GigiCompileResult.OK Reference.broken_graph in
  match Compile "broken.gg" id (initial_state tt) with
  | Some (r, s) => Some (r, calls s, logged s)
  | None => None
  end
  = Some (GigiCompileResult.InterpreterError,
          [(Reference.texture_node, NodeAction.Init, true);
           (Reference.broken_node, NodeAction.Init, false)],
          [(LogLevel.Error,
            "Error during IGigiInterpreter::Compile OnNodeAction(Init) in node broken (action)"%string)]).
Proof. vm_compute. reflexivity. Qed.

Example Execute_doubles_radius :
  let H := Reference.host GigiCompileResult.OK Reference.blur_graph in
  let FL := Binary32.lib in
  ('(_, s) ← Compile "blur.gg" id (initial_state tt);
   '(b1, s) ← Execute s;
   '(t1, s) ← GetRuntimeVariableValueAsString 0 s;
   '(b2, s) ← Execute s;
   '(t2, s) ← GetRuntimeVariableValueAsString 0 s;
   Some (b1, t1, b2, t2))
  = Some (true, "2"%string, true, "4"%string).
Proof. vm_compute. reflexivity. Qed.

Lemma SetValueFromString_GetValueAsString_witness :
  let v := {| Variable_.name := "size"; Variable_.type := DataFieldType.Uint3;
              Variable_.dflt := "1, 1, 1"; Variable_.enumIndex := -1 |} in
  let val := le_encode 4 640 ++ le_encode 4 480 ++ le_encode 4 1 in
  let m : VariableStorage.t :=
    {[ (Variable_.name v, Variable_.type v) := val ++ replicate 12 x00 ]} in
  exists text m1 m2 dfl2,
    VariableStorage.GetValueAsString v m = Some (text, m1)
    /\ VariableStorage.SetValueFromString v text ∅ = Some (tt, m2)
    /\ stored m2 v CUint32 3 val dfl2.
Proof.
  intros v val m.
  apply (SetValueFromString_GetValueAsString (TIO := Reference.text_io)
           ReferenceText.text_io_writes_in_place
           v CUint32 3 (representable CUint32) m ∅ val (replicate 12 x00)).
  - reflexivity.
  - apply ReferenceText.text_io_round_trips. discriminate.
  - split; [apply lookup_singleton_eq | split; reflexivity].
  - exact I.
  - left. apply lookup_empty.
Defined.

Lemma SetRuntimeVariableFromString_enum_witness :
  let H := Reference.host GigiCompileResult.OK Reference.blur_graph in
  let key := (Variable_.name Reference.mode, Variable_.type Reference.mode) in
  let rv := {| variable := Reference.mode;
               storage := {| Storage.value := PStorage key 0;
                             Storage.dflt := PStorage key 4;
                             Storage.size := 4 |} |} in
  let s := set_runtimeVariables [rv]
             (set_variableStorage {[ key := replicate 4 x00 ++ replicate 4 x00 ]}
                (set_renderGraph Reference.blur_graph (initial_state tt))) in
  exists s' dfl',
    SetRuntimeVariableFromString 0 "modename::FAST" s = Some (tt, s')
    /\ stored (m_variableStorage s') Reference.mode CInt 1 (le_encode 4 1) dfl'.
Proof.
  intros H key rv s.
  destruct (SetRuntimeVariableFromString_enum s 0 "modename::FAST" rv eq_refl) as [_ Henum].
  destruct (Henum Reference.mode_enum ltac:(discriminate) eq_refl) as [_ Hlabel].
  destruct (Hlabel ltac:(vm_compute; discriminate)) as [_ Hvalue].
  apply (Hvalue ReferenceText.text_io_writes_in_place ReferenceText.text_io_reads_decimal
           eq_refl (replicate 4 x00) (replicate 4 x00)).
  split; [apply lookup_singleton_eq | split; reflexivity].
Defined.

(** * Further properties of the expression evaluator *)

Lemma wrap_in_range T z : in_range T (wrap T z).
Proof.
  unfold in_range, int_min, int_max, wrap. destruct T.
  - pose proof (Z.mod_pos_bound (z + 2 ^ 31) (2 ^ 32) ltac:(lia)). lia.
  - pose proof (Z.mod_pos_bound z (2 ^ 16) ltac:(lia)). lia.
  - pose proof (Z.mod_pos_bound z (2 ^ 32) ltac:(lia)). lia.
Qed.

Lemma wrap_small T z : in_range T z -> wrap T z = z.
Proof.
  unfold in_range, int_min, int_max, wrap. destruct T; intros Hz.
  - rewrite Z.mod_small by lia. lia.
  - apply Z.mod_small. lia.
  - apply Z.mod_small. lia.
Qed.

(** X2. Integer Modulo is not guarded the way Divide is. With [B = 0]
    the remainder is undefined, and so is [INT_MIN % -1]. Everywhere else
    the result is the remainder of the truncating division: it completes
    the quotient, is smaller than [B] in magnitude, has the sign of [A] and
    is a value of the type. *)
Theorem DoOp_Modulo_unguarded :
  forall (FL : FloatLib) (T : IntType) (A B dest : Z),
    in_range T A -> in_range T B ->
    (B = 0 -> DoOp_int T A B dest SetVariableOperator.Modulo = None)
    /\ (T = I32 -> A = - 2 ^ 31 -> B = -1 ->
        DoOp_int T A B dest SetVariableOperator.Modulo = None)
    /\ (B <> 0 -> ~ (T = I32 /\ A = - 2 ^ 31 /\ B = -1) ->
        exists r, DoOp_int T A B dest SetVariableOperator.Modulo = Some r
                  /\ A = B * Z.quot A B + r
                  /\ Z.abs r < Z.abs B
                  /\ 0 <= r * A
                  /\ in_range T r).
Proof.
  intros FL T A B dest HA HB. cbn [DoOp_int]. unfold c_rem. split; [|split].
  - intros ->. reflexivity.
  - intros -> -> ->. reflexivity.
  - intros HB0 Hov.
    destruct (Z.eqb_spec B 0) as [|_]; [contradiction|].
    pose proof (c_quot_in_range T A B HB0 HA HB Hov) as Hq.
    apply in_rangeb_spec in Hq. rewrite Hq.
    exists (Z.rem A B).
    pose proof (Z.quot_rem' A B) as Hqr.
    pose proof (Z.rem_bound_abs A B HB0) as Hb.
    pose proof (Z.rem_sign_mul A B HB0) as Hs.
    pose proof (Z.rem_abs A B HB0) as Habs.
    assert (Hr : in_range T (Z.rem A B)).
    { unfold in_range, int_min, int_max in *.
      destruct (Z.le_gt_cases 0 A) as [HA0|HA0].
      - pose proof (Z.rem_nonneg A B HB0 HA0). destruct T; lia.
      - pose proof (Z.rem_nonpos A B HB0 ltac:(lia)). destruct T; lia. }
    repeat split; try lia; apply Hr.
Qed.

Lemma lxor_bound n a b :
  0 <= n -> 0 <= a < 2 ^ n -> 0 <= b < 2 ^ n -> 0 <= Z.lxor a b < 2 ^ n.
Proof.
  intros Hn Ha Hb.
  assert (H0 : 0 <= Z.lxor a b) by (apply Z.lxor_nonneg; lia).
  split; [exact H0|].
  destruct (Z.eq_dec a 0) as [->|Ha0]; [rewrite Z.lxor_0_l; lia|].
  destruct (Z.eq_dec b 0) as [->|Hb0]; [rewrite Z.lxor_0_r; lia|].
  destruct (Z.eq_dec (Z.lxor a b) 0) as [->|Hx0]; [lia|].
  apply Z.log2_lt_pow2; [lia|].
  pose proof (Z.log2_lxor a b ltac:(lia) ltac:(lia)) as Hl.
  assert (Z.log2 a < n) by (apply Z.log2_lt_pow2; lia).
  assert (Z.log2 b < n) by (apply Z.log2_lt_pow2; lia).
  lia.
Qed.

Lemma lxor_signed_bound n a b :
  0 <= n -> - 2 ^ n <= a < 2 ^ n -> - 2 ^ n <= b < 2 ^ n -> - 2 ^ n <= Z.lxor a b < 2 ^ n.
Proof.
  intros Hn Ha Hb.
  assert (Hnot : forall x, Z.lnot x = - x - 1) by (intros x; unfold Z.lnot; lia).
  destruct (Z.le_gt_cases 0 a) as [Ha0|Ha0], (Z.le_gt_cases 0 b) as [Hb0|Hb0].
  - pose proof (lxor_bound n a b Hn ltac:(lia) ltac:(lia)). lia.
  - pose proof (lxor_bound n a (Z.lnot b) Hn ltac:(lia) ltac:(rewrite Hnot; lia)) as H.
    rewrite Z.lxor_comm, <- Z.lnot_lxor_l, Hnot, Z.lxor_comm in H. lia.
  - pose proof (lxor_bound n (Z.lnot a) b Hn ltac:(rewrite Hnot; lia) ltac:(lia)) as H.
    rewrite <- Z.lnot_lxor_l, Hnot in H. lia.
  - pose proof (lxor_bound n (Z.lnot a) (Z.lnot b) Hn ltac:(rewrite Hnot; lia)
                  ltac:(rewrite Hnot; lia)) as H.
    rewrite Z.lxor_lnot_lnot in H. lia.
Qed.

Lemma lxor_in_range T A B : in_range T A -> in_range T B -> in_range T (Z.lxor A B).
Proof.
  unfold in_range, int_min, int_max. intros HA HB. destruct T.
  - pose proof (lxor_signed_bound 31 A B ltac:(lia) ltac:(lia) ltac:(lia)). lia.
  - pose proof (lxor_bound 16 A B ltac:(lia) ltac:(lia) ltac:(lia)). lia.
  - pose proof (lxor_bound 32 A B ltac:(lia) ltac:(lia) ltac:(lia)). lia.
Qed.

(** X3. Add, Subtract and Multiply on the integer types store the exact
    result whenever it is a value of the type. On [uint32_t] they store it
    modulo 2^32, and Add and Subtract on [uint16_t] modulo 2^16: an unsigned
    subtraction below zero wraps around. *)
Theorem DoOp_arithmetic_wraps :
  forall (FL : FloatLib) (T : IntType) (A B dest : Z) (op : SetVariableOperator.t) (exact : Z),
    In (op, exact) [(SetVariableOperator.Add, A + B);
                    (SetVariableOperator.Subtract, A - B);
                    (SetVariableOperator.Multiply, A * B)] ->
    exists r, DoOp_int T A B dest op = Some r
              /\ (in_range T exact -> r = exact)
              /\ (T = U32 -> r = exact mod 2 ^ 32)
              /\ (T = U16 -> op <> SetVariableOperator.Multiply -> r = exact mod 2 ^ 16).
Proof.
  intros FL T A B dest op exact Hop.
  assert (Hr : DoOp_int T A B dest op = Some (wrap T exact)).
  { cbn in Hop. destruct Hop as [Hq|[Hq|[Hq|[]]]]; inversion Hq; subst; reflexivity. }
  exists (wrap T exact). split; [exact Hr|]. split; [apply wrap_small|].
  split; intros ->; reflexivity.
Qed.

(** X4. BitwiseXor with the same operand twice gives back the first
    operand, and BitwiseNot twice gives back its operand, on every integer
    type. The exclusive or of two values of the type is one itself; the
    complement of [A] is [max + min - A]. *)
Theorem DoOp_bitwise_involutions :
  forall (FL : FloatLib) (T : IntType) (A B dest dest' : Z),
    in_range T A -> in_range T B ->
    (exists x, DoOp_int T A B dest SetVariableOperator.BitwiseXor = Some x
               /\ x = Z.lxor A B
               /\ DoOp_int T x B dest' SetVariableOperator.BitwiseXor = Some A)
    /\ (exists x, DoOp_int T A B dest SetVariableOperator.BitwiseNot = Some x
                  /\ x = int_max T + int_min T - A
                  /\ DoOp_int T x B dest' SetVariableOperator.BitwiseNot = Some A).
Proof.
  intros FL T A B dest dest' HA HB. split.
  - exists (Z.lxor A B). cbn [DoOp_int].
    rewrite (wrap_small T (Z.lxor A B)) by (apply lxor_in_range; assumption).
    split; [reflexivity|]. split; [reflexivity|].
    rewrite Z.lxor_assoc, Z.lxor_nilpotent, Z.lxor_0_r.
    rewrite wrap_small by exact HA. reflexivity.
  - assert (Hnot : forall x, Z.lnot x = - x - 1) by (intros x; unfold Z.lnot; lia).
    assert (Hw : wrap T (Z.lnot A) = int_max T + int_min T - A).
    { rewrite Hnot. unfold in_range, int_min, int_max, wrap in *. destruct T.
      - rewrite Z.mod_small by lia. lia.
      - replace (- A - 1) with (2 ^ 16 - 1 - A + (-1) * 2 ^ 16) by lia.
        rewrite Z.mod_add by lia. rewrite Z.mod_small by lia. lia.
      - replace (- A - 1) with (2 ^ 32 - 1 - A + (-1) * 2 ^ 32) by lia.
        rewrite Z.mod_add by lia. rewrite Z.mod_small by lia. lia. }
    exists (int_max T + int_min T - A). cbn [DoOp_int]. rewrite Hw.
    split; [reflexivity|]. split; [reflexivity|].
    f_equal. rewrite Hnot. unfold in_range, int_min, int_max, wrap in *. destruct T.
    + rewrite Z.mod_small by lia. lia.
    + replace (- (2 ^ 16 - 1 + 0 - A) - 1) with (A + (-1) * 2 ^ 16) by lia.
      rewrite Z.mod_add by lia. apply Z.mod_small. lia.
    + replace (- (2 ^ 32 - 1 + 0 - A) - 1) with (A + (-1) * 2 ^ 32) by lia.
      rewrite Z.mod_add by lia. apply Z.mod_small. lia.
Qed.

(** X5. On integers the comparisons of [DoComparison] are consistent:
    NotEquals negates Equals, GTE negates LT, LTE negates GT, GT is LT with
    the operands swapped, LTE is LT or Equals, IsFalse negates IsTrue, and
    IsTrue ignores [B]: it is NotEquals against zero. *)
Theorem DoComparison_int_complements :
  forall (A B : Z),
    DoComparison_int A B ConditionComparison.NotEquals
      = negb (DoComparison_int A B ConditionComparison.Equals)
    /\ DoComparison_int A B ConditionComparison.GTE
       = negb (DoComparison_int A B ConditionComparison.LT)
    /\ DoComparison_int A B ConditionComparison.LTE
       = negb (DoComparison_int A B ConditionComparison.GT)
    /\ DoComparison_int A B ConditionComparison.GT
       = DoComparison_int B A ConditionComparison.LT
    /\ DoComparison_int A B ConditionComparison.LTE
       = DoComparison_int A B ConditionComparison.LT
         || DoComparison_int A B ConditionComparison.Equals
    /\ DoComparison_int A B ConditionComparison.IsFalse
       = negb (DoComparison_int A B ConditionComparison.IsTrue)
    /\ DoComparison_int A B ConditionComparison.IsTrue
       = DoComparison_int A 0 ConditionComparison.NotEquals.
Proof.
  intros A B. cbn [DoComparison_int].
  rewrite Z.geb_leb, Z.gtb_ltb, negb_involutive.
  repeat split; try reflexivity.
  - apply Z.leb_antisym.
  - apply Z.leb_antisym.
  - destruct (Z.leb_spec A B), (Z.ltb_spec A B), (Z.eqb_spec A B); try reflexivity; lia.
Qed.

(** X6. On [float] that consistency fails at NaN. With a NaN operand on
    either side Equals, LT, LTE, GT and GTE are all false and NotEquals is
    true, so LT and GTE are both false; and a NaN variable is "true": IsTrue
    holds of it and IsFalse does not. *)
Theorem DoComparison_float_NaN :
  forall (B : spec_float),
    let FL := Binary32.lib in
    Forall (fun op => DoComparison_float S754_nan B op = false
                      /\ DoComparison_float B S754_nan op = false)
      [ConditionComparison.Equals; ConditionComparison.LT; ConditionComparison.LTE;
       ConditionComparison.GT; ConditionComparison.GTE]
    /\ DoComparison_float S754_nan B ConditionComparison.NotEquals = true
    /\ DoComparison_float B S754_nan ConditionComparison.NotEquals = true
    /\ DoComparison_float S754_nan B ConditionComparison.IsTrue = true
    /\ DoComparison_float S754_nan B ConditionComparison.IsFalse = false.
Proof.
  intros B FL.
  split; [|repeat split; destruct B as [[]|[]| |[] m e]; reflexivity].
  repeat constructor; destruct B as [[]|[]| |[] m e]; reflexivity.
Qed.

(** ** Prefixes *)

Local Open Scope string_scope.

Lemma ToLower_idempotent c : ToLower (ToLower c) = ToLower c.
Proof. destruct c as [[] [] [] [] [] [] [] []]; reflexivity. Qed.

Lemma StringBeginsWithCaseInsensitive_lower hayStack needle :
  StringBeginsWithCaseInsensitive (lower hayStack) (lower needle)
  = StringBeginsWithCaseInsensitive hayStack needle.
Proof.
  revert hayStack. induction needle as [|n needle IH]; intros [|h hayStack]; cbn; try reflexivity.
  rewrite <- !ToLower_lower_case, !ToLower_idempotent, IH. reflexivity.
Qed.

Lemma length_append a b : String.length (a ++ b) = (String.length a + String.length b)%nat.
Proof.
  induction a as [|c a IH]; [reflexivity|].
  rewrite append_cons. cbn [String.length]. now rewrite IH.
Qed.

(** X7. [StringBeginsWithCaseInsensitive] holds exactly when the
    haystack starts with a text that equals the needle once each capital
    letter of both is replaced by its lower-case form ([lower], by the
    alphabet). The empty needle is a prefix of every text, a needle longer
    than the haystack of none, and changing the case of letters in either
    text does not change the result. *)
Theorem StringBeginsWithCaseInsensitive_prefix :
  forall (hayStack needle : string),
    (StringBeginsWithCaseInsensitive hayStack needle = true
     <-> exists a b, hayStack = a ++ b /\ lower a = lower needle)
    /\ StringBeginsWithCaseInsensitive hayStack "" = true
    /\ ((String.length hayStack < String.length needle)%nat ->
        StringBeginsWithCaseInsensitive hayStack needle = false)
    /\ (forall hayStack' needle',
          lower hayStack' = lower hayStack -> lower needle' = lower needle ->
          StringBeginsWithCaseInsensitive hayStack' needle'
          = StringBeginsWithCaseInsensitive hayStack needle).
Proof.
  intros hayStack needle.
  split; [apply StringBeginsWithCaseInsensitive_spec|].
  split; [destruct hayStack; reflexivity|].
  split.
  2:{ intros hayStack' needle' Hh Hn.
      rewrite <- (StringBeginsWithCaseInsensitive_lower hayStack' needle'), Hh, Hn.
      apply StringBeginsWithCaseInsensitive_lower. }
  intros Hlen.
  destruct (StringBeginsWithCaseInsensitive hayStack needle) eqn:E; [|reflexivity].
  apply StringBeginsWithCaseInsensitive_spec in E. destruct E as (a & b & -> & Heq).
  apply eq_ci_length in Heq. rewrite length_append in Hlen. lia.
Qed.

Local Close Scope string_scope.

(** * Further properties of the variable storage *)

Section StorageAccess.
Context `{TIO : TextIO}.
Hypothesis Hlen : writes_in_place TIO.

Lemma stored_same_key m v v' T n val dfl :
  Variable_.name v' = Variable_.name v -> Variable_.type v' = Variable_.type v ->
  stored m v T n val dfl -> stored m v' T n val dfl.
Proof. unfold stored. intros -> ->. auto. Qed.

(** [Get] runs the typed [Get] twice, once in the [CallFor_] function and
    once in its own lambda: the default is parsed twice over. *)
Lemma Get_absent m v T n :
  CallFor (Variable_.type v) = Some (T, n) ->
  m !! (Variable_.name v, Variable_.type v) = None ->
  let d := SetFromString T (Variable_.dflt v) n (replicate (n * sizeof T) x00) in
  VariableStorage.Get v m
  = Some (storage_of v T n,
          <[(Variable_.name v, Variable_.type v) :=
              d ++ SetFromString T (Variable_.dflt v) n d]> m).
Proof using Hlen.
  intros HT Hnone d.
  unfold VariableStorage.Get, VariableStorage.CallForVariable.
  rewrite HT. unfold mbind, M_bind, mret, M_ret.
  rewrite (Get_typed_absent Hlen _ _ _ _ Hnone). cbv zeta. fold d.
  assert (Hd : length d = (n * sizeof T)%nat) by (apply Hlen, length_replicate).
  rewrite (Get_typed_present Hlen _ v T n d d (stored_insert _ _ _ _ _ _ Hd Hd)).
  rewrite insert_insert_eq. reflexivity.
Qed.

Lemma Get_present m v T n val dfl :
  CallFor (Variable_.type v) = Some (T, n) ->
  stored m v T n val dfl ->
  VariableStorage.Get v m
  = Some (storage_of v T n,
          <[(Variable_.name v, Variable_.type v) :=
              val ++ SetFromString T (Variable_.dflt v) n
                       (SetFromString T (Variable_.dflt v) n dfl)]> m).
Proof using Hlen.
  intros HT Hs. pose proof Hs as (Hm & Hv & Hd).
  unfold VariableStorage.Get, VariableStorage.CallForVariable.
  rewrite HT. unfold mbind, M_bind, mret, M_ret.
  rewrite (Get_typed_present Hlen _ _ _ _ _ _ Hs).
  assert (Hd2 : length (SetFromString T (Variable_.dflt v) n dfl) = (n * sizeof T)%nat)
    by (apply Hlen; exact Hd).
  rewrite (Get_typed_present Hlen _ v T n val _ (stored_insert _ _ _ _ _ _ Hv Hd2)).
  rewrite insert_insert_eq. reflexivity.
Qed.

Lemma stored_inj m v T n val dfl val' dfl' :
  stored m v T n val dfl -> stored m v T n val' dfl' -> val' = val /\ dfl' = dfl.
Proof.
  intros (Hm & Hv & _) (Hm' & Hv' & _). rewrite Hm in Hm'. injection Hm' as Hq.
  apply app_inj_1 in Hq; [destruct Hq; auto | lia].
Qed.

(** X8. [Get] on a variable of [n] components of type [T]. The storage
    object it returns points at the start of the vector of the key (name,
    type) for the value and right behind the value for the default. A
    variable that had no storage gets the parsed default as its value; one
    that had keeps its value. The storage of no other key changes. *)
Theorem Get_keeps_value :
  forall (v : Variable_.t) (T : CompType) (n : nat) (m : VariableStorage.t),
    CallFor (Variable_.type v) = Some (T, n) ->
    ready m v T n ->
    exists m' val' dfl',
      VariableStorage.Get v m = Some (storage_of v T n, m')
      /\ stored m' v T n val' dfl'
      /\ (m !! (Variable_.name v, Variable_.type v) = None ->
          val' = SetFromString T (Variable_.dflt v) n (replicate (n * sizeof T) x00))
      /\ (forall val dfl, stored m v T n val dfl -> val' = val)
      /\ (forall k, k <> (Variable_.name v, Variable_.type v) -> m' !! k = m !! k).
Proof using Hlen.
  intros v T n m HT Hready.
  destruct Hready as [Hnone|(val & dfl & Hs)].
  - do 3 eexists. split; [apply (Get_absent _ _ _ _ HT Hnone)|].
    split; [apply stored_insert; repeat apply Hlen; apply length_replicate|].
    split; [reflexivity|]. split.
    + intros val dfl (Hm & _). congruence.
    + intros k Hk. apply lookup_insert_ne. congruence.
  - pose proof Hs as (Hm & Hv & Hd).
    do 3 eexists. split; [apply (Get_present _ _ _ _ _ _ HT Hs)|].
    split; [apply stored_insert; [exact Hv | repeat apply Hlen; exact Hd]|].
    split; [intros Hn; congruence|]. split.
    + intros val0 dfl0 Hs0. exact (proj1 (stored_inj _ _ _ _ _ _ _ _ Hs0 Hs)).
    + intros k Hk. apply lookup_insert_ne. congruence.
Qed.

(** X9. [GetValueAsString] is not a pure read: for a variable without
    storage it creates the storage and returns the text of the parsed
    default. For a stored variable it returns the text of the value, which
    stays; the storage of no other key changes. *)
Theorem GetValueAsString_reads :
  forall (v : Variable_.t) (T : CompType) (n : nat) (m : VariableStorage.t),
    CallFor (Variable_.type v) = Some (T, n) ->
    ready m v T n ->
    exists m' val' dfl',
      VariableStorage.GetValueAsString v m = Some (GetAsString T n val', m')
      /\ stored m' v T n val' dfl'
      /\ (m !! (Variable_.name v, Variable_.type v) = None ->
          val' = SetFromString T (Variable_.dflt v) n (replicate (n * sizeof T) x00))
      /\ (forall val dfl, stored m v T n val dfl -> val' = val)
      /\ (forall k, k <> (Variable_.name v, Variable_.type v) -> m' !! k = m !! k).
Proof using Hlen.
  intros v T n m HT Hready.
  destruct Hready as [Hnone|(val & dfl & Hs)].
  - set (d := SetFromString T (Variable_.dflt v) n (replicate (n * sizeof T) x00)).
    assert (Hd : length d = (n * sizeof T)%nat) by (apply Hlen, length_replicate).
    exists (<[(Variable_.name v, Variable_.type v) := d ++ d]> m), d, d.
    split.
    + unfold VariableStorage.GetValueAsString, VariableStorage.CallForVariable.
      rewrite HT. unfold mbind, M_bind, mret, M_ret.
      rewrite (Get_typed_absent Hlen _ _ _ _ Hnone). cbv zeta. fold d.
      cbn [Storage.value]. unfold VariableStorage.read. rewrite lookup_insert_eq.
      replace (n * sizeof T)%nat with (length d) by lia.
      rewrite slice_app_l. reflexivity.
    + split; [apply stored_insert; exact Hd|]. split; [reflexivity|]. split.
      * intros val dfl (Hm & _). congruence.
      * intros k Hk. apply lookup_insert_ne. congruence.
  - pose proof Hs as (Hm & Hv & Hd).
    do 3 eexists. split; [apply (GetValueAsString_present Hlen _ _ _ _ _ _ HT Hs)|].
    split; [apply stored_insert; [exact Hv | apply Hlen; exact Hd]|].
    split; [intros Hn; congruence|]. split.
    + intros val0 dfl0 (Hm0 & Hv0 & _). rewrite Hm in Hm0. injection Hm0 as Hq.
      apply app_inj_1 in Hq; [tauto | lia].
    + intros k Hk. apply lookup_insert_ne. congruence.
Qed.

(** X10. The storage is shared by name and type. After
    [SetValueFromString] on [v], another variable [v'] of the same name and
    type reads the new value, whatever its own default; the storage of
    every other key is as it was. *)
Theorem SetValueFromString_shared_by_key :
  forall (v v' : Variable_.t) (T : CompType) (n : nat) (m : VariableStorage.t)
         (val dfl : list byte) (text : string),
    CallFor (Variable_.type v) = Some (T, n) ->
    stored m v T n val dfl ->
    Variable_.name v' = Variable_.name v -> Variable_.type v' = Variable_.type v ->
    exists m1 m2,
      VariableStorage.SetValueFromString v text m = Some (tt, m1)
      /\ (forall k, k <> (Variable_.name v, Variable_.type v) -> m1 !! k = m !! k)
      /\ VariableStorage.GetValueAsString v' m1
         = Some (GetAsString T n (SetFromString T text n val), m2).
Proof using Hlen.
  intros v v' T n m val dfl text HT Hs Hname Htype.
  pose proof Hs as (Hm & Hv & Hd).
  do 2 eexists. split; [apply (SetValueFromString_present Hlen _ _ _ _ _ _ _ HT Hs)|].
  split; [intros k Hk; apply lookup_insert_ne; congruence|].
  apply (GetValueAsString_present Hlen).
  - rewrite Htype. exact HT.
  - apply (stored_same_key _ v); [exact Hname | exact Htype|].
    apply stored_insert; apply Hlen; assumption.
Qed.

End StorageAccess.

(** X11. [CallFor_Count] has an empty body: for a variable of type
    [Count], [SetValueFromString] changes nothing, [GetValueAsString]
    returns the empty text, and [Get] returns the default-constructed
    storage object, with null pointers and size 0. *)
Theorem CallFor_Count_does_nothing :
  forall (TIO : TextIO) (v : Variable_.t) (text : string) (m : VariableStorage.t),
    Variable_.type v = DataFieldType.Count ->
    VariableStorage.SetValueFromString v text m = Some (tt, m)
    /\ VariableStorage.GetValueAsString v m = Some (EmptyString, m)
    /\ VariableStorage.Get v m = Some (Storage.empty, m).
Proof.
  intros TIO v text m Hty.
  unfold VariableStorage.SetValueFromString, VariableStorage.GetValueAsString,
    VariableStorage.Get, VariableStorage.CallForVariable.
  rewrite Hty. repeat split.
Qed.

(** * Further properties of the interpreter *)

Section InterpreterAccess.
Context `{FL : FloatLib} `{TIO : TextIO} `{SC : Schema} `{RT : RuntimeTypes} `{H : !Host}.

Lemma set_variableStorage_same s : set_variableStorage (m_variableStorage s) s = s.
Proof. destruct s; reflexivity. Qed.

(** X12. When the external compiler fails, [Compile] returns its
    result at once and stores it. The state of the host is the one the
    compiler left: no hook and no node action runs after it, and the
    interpreter logs nothing. The variable storage, the storage objects of
    the runtime variables and the runtime data of the nodes stay what they
    were, while the graph is the one the compiler left. Nothing is said of
    the variables that the runtime variables point to: they belonged to
    the graph that [Compile] has replaced. [Execute] is then a no-op that
    returns true. *)
Theorem Compile_compiler_failure :
  forall (fileName : string) (PostLoad : RenderGraph.t -> RenderGraph.t) (s : State)
         (result : GigiCompileResult.t) (g : RenderGraph.t) (h : HostState),
    GigiCompile GigiBuildFlavor.Interpreter_Interpreter fileName
      (m_tempDirectory (before_GigiCompile s)) PostLoad RenderGraph.empty
      (host (before_GigiCompile s)) = (result, g, h) ->
    result <> GigiCompileResult.OK ->
    exists s',
      Compile fileName PostLoad s = Some (result, s')
      /\ m_compileResult s' = result
      /\ m_renderGraph s' = g
      /\ host s' = h
      /\ calls s' = calls s
      /\ logged s' = logged s
      /\ m_variableStorage s' = m_variableStorage s
      /\ map storage (m_runtimeVariables s') = map storage (m_runtimeVariables s)
      /\ m_RuntimeData s' = m_RuntimeData s
      /\ Execute s' = Some (true, s').
Proof.
  intros fileName PostLoad s result g h Hc Hr.
  eexists. split.
  - rewrite Compile_unfold. cbv zeta. rewrite Hc.
    rewrite bool_decide_eq_false_2 by exact Hr. reflexivity.
  - repeat split.
    unfold Execute, mbind, M_bind, get. cbn [m_compileResult set_compileResult].
    rewrite bool_decide_eq_false_2 by exact Hr. reflexivity.
Qed.

(** X13. After [Clear], [Execute] does nothing and returns true, a
    second [Clear] changes nothing, there is no runtime variable, no name
    has an index, and no index is valid. The graph and the record of node
    actions are as before. *)
Theorem Clear_then_Execute :
  forall (s : State),
    exists s',
      Clear s = Some (tt, s')
      /\ Execute s' = Some (true, s')
      /\ Clear s' = Some (tt, s')
      /\ GetRuntimeVariableCount s' = 0
      /\ (forall name, GetRuntimeVariableIndex s' name = -1)
      /\ (forall index, GetRuntimeVariable index s' = None)
      /\ m_renderGraph s' = m_renderGraph s
      /\ calls s' = calls s.
Proof.
  intros s. eexists. split; [reflexivity|]. repeat split.
  intros index. unfold GetRuntimeVariable, defined, at_index. cbn.
  destruct (index <? 0); reflexivity.
Qed.

(** X14. A node action gets the runtime data registered under the kind
    and name of its node, default-constructed when there was none, and what
    it leaves of them is registered in their place: the next action on the
    node starts from there. The runtime data of every other node, the
    variables and the compile result are as they were. *)
Theorem NodeAction_call_updates_registry :
  forall (node : RenderGraphNode.t) (action : NodeAction.t) (s : State),
    let kind := RenderGraphNode._index node in
    let name := RenderGraphNode.name node in
    let given := default (rt_default kind) (m_RuntimeData s kind !! name) in
    exists s',
      NodeAction_call node action s = Some ((OnNodeAction node given action (host s)).1.1, s')
      /\ m_RuntimeData s' kind !! name = Some (OnNodeAction node given action (host s)).1.2
      /\ host s' = (OnNodeAction node given action (host s)).2
      /\ (forall k n, (k, n) <> (kind, name) -> m_RuntimeData s' k !! n = m_RuntimeData s k !! n)
      /\ m_variableStorage s' = m_variableStorage s
      /\ m_runtimeVariables s' = m_runtimeVariables s
      /\ m_compileResult s' = m_compileResult s.
Proof.
  intros node action s. cbv zeta.
  unfold NodeAction_call, GetOrCreate, mbind, M_bind, get, modify, mret, M_ret.
  destruct node as [kind name]. cbn [RenderGraphNode._index RenderGraphNode.name].
  assert (Hframe : forall (f : NodeKind -> gmap string RuntimeData) (x : RuntimeData) k n,
            (k, n) <> (kind, name) ->
            (<[kind := <[name := x]> (f kind)]> f) k !! n = f k !! n).
  { intros f x k n Hkn. destruct (decide (k = kind)) as [->|Hk].
    - rewrite fn_lookup_insert. apply lookup_insert_ne. congruence.
    - rewrite fn_lookup_insert_ne by congruence. reflexivity. }
  destruct (m_RuntimeData s kind !! name) as [rd|] eqn:E; cbn [default from_option]; unfold id;
    cbv beta iota.
  - destruct (OnNodeAction _ rd action (host s)) as [[ok rd'] h'].
    eexists. split; [reflexivity|].
    cbn [m_RuntimeData m_variableStorage m_runtimeVariables m_compileResult host
         set_calls set_host set_RuntimeData fst snd].
    rewrite fn_lookup_insert, lookup_insert_eq. repeat split.
    intros k n Hkn. apply Hframe. exact Hkn.
  - cbn [host set_RuntimeData].
    destruct (OnNodeAction _ (rt_default kind) action (host s)) as [[ok rd'] h'].
    eexists. split; [reflexivity|].
    cbn [m_RuntimeData m_variableStorage m_runtimeVariables m_compileResult host
         set_calls set_host set_RuntimeData fst snd].
    rewrite !fn_lookup_insert, lookup_insert_eq. repeat split.
    intros k n Hkn.
    destruct (decide (k = kind)) as [->|Hk].
    + rewrite fn_lookup_insert. rewrite !lookup_insert_ne by congruence. reflexivity.
    + rewrite !fn_lookup_insert_ne by congruence. reflexivity.
Qed.

Lemma GetRuntimeVariableIndex_loop_spec (rtVars : list RuntimeVariable) name : forall index,
  -1 <= index -> index + Z.of_nat (length rtVars) <= int_max I32 ->
  GetRuntimeVariableIndex_loop rtVars name index =
    match list_find (fun rv => Variable_.name (variable rv) = name) rtVars with
    | Some (j, _) => index + 1 + Z.of_nat j
    | None => -1
    end.
Proof.
  induction rtVars as [|rv rest IH]; intros index Hi Hlen; [reflexivity|].
  cbn [GetRuntimeVariableIndex_loop list_find length] in *. cbv zeta.
  destruct (String.eqb_spec (Variable_.name (variable rv)) name) as [He|He].
  - rewrite decide_True by exact He.
    rewrite wrap_small; [lia|]. unfold in_range, int_min, int_max in *. lia.
  - rewrite decide_False by exact He.
    rewrite IH by lia.
    destruct (list_find _ rest) as [[j x]|]; cbn; [lia | reflexivity].
Qed.

(** X15. [GetRuntimeVariableIndex] returns -1 exactly when no runtime
    variable has the name, compared case-sensitively. Otherwise it returns
    the index of the first variable of that name, which [GetRuntimeVariable]
    accepts. The table holds at most [INT_MAX] variables. *)
Theorem GetRuntimeVariableIndex_first :
  forall (s : State) (name : string),
    Z.of_nat (length (m_runtimeVariables s)) <= int_max I32 ->
    (GetRuntimeVariableIndex s name = -1
     /\ Forall (fun rv => Variable_.name (variable rv) <> name) (m_runtimeVariables s))
    \/ (exists i rv,
          GetRuntimeVariableIndex s name = Z.of_nat i
          /\ GetRuntimeVariable (Z.of_nat i) s = Some (rv, s)
          /\ Variable_.name (variable rv) = name
          /\ forall j rv', (j < i)%nat -> m_runtimeVariables s !! j = Some rv' ->
               Variable_.name (variable rv') <> name).
Proof.
  intros s name Hlen. unfold GetRuntimeVariableIndex.
  rewrite GetRuntimeVariableIndex_loop_spec by lia.
  destruct (list_find _ (m_runtimeVariables s)) as [[i rv]|] eqn:E.
  - right. apply list_find_Some in E. destruct E as (Hi & Hn & Hfirst).
    exists i, rv. split; [lia|]. split; [|split; [exact Hn|]].
    + unfold GetRuntimeVariable, defined, at_index.
      destruct (Z.ltb_spec (Z.of_nat i) 0) as [|_]; [lia|].
      rewrite Nat2Z.id, Hi. reflexivity.
    + intros j rv' Hj Hrv'. exact (Hfirst j rv' Hrv' Hj).
  - left. split; [reflexivity|]. apply list_find_None in E. exact E.
Qed.

(** X16. [SetRuntimeVariableToDflt] copies the default over the value:
    afterwards both hold the default. The default itself, the storage of
    every other key, and the rest of the interpreter are as they were. *)
Theorem SetRuntimeVariableToDflt_resets :
  forall (s : State) (index : Z) (rv : RuntimeVariable) (v : Variable_.t)
         (T : CompType) (n : nat) (val dfl : list byte),
    at_index (m_runtimeVariables s) index = Some rv ->
    storage rv = storage_of v T n ->
    stored (m_variableStorage s) v T n val dfl ->
    exists s',
      SetRuntimeVariableToDflt index s = Some (tt, s')
      /\ stored (m_variableStorage s') v T n dfl dfl
      /\ (forall k, k <> (Variable_.name v, Variable_.type v) ->
            m_variableStorage s' !! k = m_variableStorage s !! k)
      /\ m_runtimeVariables s' = m_runtimeVariables s
      /\ same_but_variables s s'.
Proof.
  intros s index rv v T n val dfl Hrv Hst (Hm & Hv & Hd).
  unfold SetRuntimeVariableToDflt, mbind, M_bind, get, GetRuntimeVariable, defined.
  rewrite Hrv, Hst. cbn [storage_of Storage.size Storage.dflt Storage.value].
  destruct (Nat.eqb_spec (sizeof T * n) 0) as [Hz|Hz].
  - exists s. split; [reflexivity|].
    assert (val = []) by (apply nil_length_inv; lia).
    assert (dfl = []) by (apply nil_length_inv; lia). subst val dfl.
    repeat split; auto.
  - assert (Hsl : slice (val ++ dfl) (sizeof T * n) (sizeof T * n) = Some dfl).
    { replace (sizeof T * n)%nat with (length val) at 1 by lia.
      replace (sizeof T * n)%nat with (length dfl) by lia. apply slice_app_r. }
    unfold VariableStorage.read. rewrite Hm, Hsl.
    unfold on_storage, VariableStorage.write. rewrite Hm.
    rewrite splice_app_l by lia.
    eexists. split; [reflexivity|].
    cbn [m_variableStorage set_variableStorage m_runtimeVariables].
    split; [split; [apply lookup_insert_eq | lia]|].
    split; [intros k Hk; apply lookup_insert_ne; congruence|].
    repeat split.
Qed.

Lemma read_component_state T p i s bs s' :
  read_component T p i s = Some (bs, s') -> s' = s.
Proof.
  unfold read_component, defined.
  destruct (ptr_index p (Z.of_nat i) (sizeof T)) as [q|]; [|discriminate].
  destruct (VariableStorage.read _ q _); [|discriminate].
  intros Hq; inversion Hq; reflexivity.
Qed.

Lemma DoComparison_loop_state T A B op n : forall ret i s b s',
  DoComparison_loop T A B op ret i n s = Some (b, s') -> s' = s.
Proof.
  induction n as [|n IH]; intros ret i s b s'; cbn [DoComparison_loop].
  - intros Hq; inversion Hq; reflexivity.
  - unfold mbind, M_bind, mret, M_ret. destruct ret.
    + destruct (read_component T A i s) as [[a s1]|] eqn:Ea; [|discriminate].
      apply read_component_state in Ea. subst s1.
      destruct (read_component T B i s) as [[b' s1]|] eqn:Eb; [|discriminate].
      apply read_component_state in Eb. subst s1.
      apply IH.
    + apply IH.
Qed.

Lemma SetFromString_at_local_state T text n buf off s p s' :
  on_storage (VariableStorage.SetFromString_at T text n (PLocal buf off)) s = Some (p, s') ->
  s' = s.
Proof.
  unfold on_storage, VariableStorage.SetFromString_at.
  destruct (slice buf off (n * sizeof T)) as [old|]; [|discriminate].
  destruct (splice buf off _) as [buf'|]; [|discriminate].
  intros Hq; inversion Hq. apply set_variableStorage_same.
Qed.

Lemma EvaluateConditionTyped_state T condition ABytes BBytes n s b s' :
  (Condition.variable2Index condition = -1 -> exists buf off, BBytes = PLocal buf off) ->
  EvaluateConditionTyped T condition ABytes BBytes n s = Some (b, s') -> s' = s.
Proof.
  intros HB. unfold EvaluateConditionTyped, mbind, M_bind, mret, M_ret.
  destruct (Z.eqb_spec (Condition.variable2Index condition) (-1)) as [He|He].
  - destruct (HB He) as (buf & off & ->).
    destruct (on_storage _ s) as [[B s1]|] eqn:E; [|discriminate].
    apply SetFromString_at_local_state in E. subst s1.
    apply DoComparison_loop_state.
  - apply DoComparison_loop_state.
Qed.

Lemma EvaluateConditionTyped_Enum_state condition ABytes buf off n s b s' :
  EvaluateConditionTyped_Enum condition ABytes (PLocal buf off) n s = Some (b, s') -> s' = s.
Proof.
  unfold EvaluateConditionTyped_Enum, mbind, M_bind, mret, M_ret, get, defined.
  destruct (at_index (RenderGraph.variables (m_renderGraph s)) _) as [var|]; [|discriminate].
  destruct (at_index (RenderGraph.enums (m_renderGraph s)) _) as [e|]; [|discriminate].
  destruct (splice buf off _) as [B|]; [|discriminate].
  apply DoComparison_loop_state.
Qed.

Lemma EvaluateCondition_state condition s b s' :
  EvaluateCondition condition s = Some (b, s') -> s' = s.
Proof.
  unfold EvaluateCondition.
  destruct (Condition.alwaysFalse condition); [intros Hq; inversion Hq; reflexivity|].
  destruct (_ || _); [intros Hq; inversion Hq; reflexivity|].
  unfold mbind, M_bind, mret, M_ret, get, GetRuntimeVariable, defined.
  destruct (at_index (RenderGraph.variables (m_renderGraph s)) _) as [var|]; [|discriminate].
  destruct (at_index (m_runtimeVariables s) _) as [rv|]; [|discriminate].
  destruct (Z.eqb_spec (Condition.variable2Index condition) (-1)) as [He|He]; cbn [negb].
  - assert (HB : Condition.variable2Index condition = -1 ->
                 exists buf off,
                   PLocal (replicate (DataFieldTypeInfoStruct.typeBytes
                                        (DataFieldTypeInfo (Variable_.type var))) x00) 0
                   = PLocal buf off) by (intros _; eauto).
    destruct (bool_decide _); [eapply EvaluateConditionTyped_state; exact HB|].
    destruct (DataFieldTypeInfoStruct.componentType _);
      try (eapply EvaluateConditionTyped_state; exact HB);
      [|intros Hq; inversion Hq; reflexivity].
    rewrite andb_true_r.
    destruct (negb _); [apply EvaluateConditionTyped_Enum_state|].
    eapply EvaluateConditionTyped_state; exact HB.
  - destruct (at_index (m_runtimeVariables s) (Condition.variable2Index condition)) as [rv2|];
      [|discriminate].
    assert (HB : Condition.variable2Index condition = -1 ->
                 exists buf off, Storage.value (storage rv2) = PLocal buf off)
      by (intros Hc; contradiction).
    destruct (bool_decide _); [eapply EvaluateConditionTyped_state; exact HB|].
    destruct (DataFieldTypeInfoStruct.componentType _);
      try (eapply EvaluateConditionTyped_state; exact HB);
      [|intros Hq; inversion Hq; reflexivity].
    rewrite andb_false_r.
    eapply EvaluateConditionTyped_state; exact HB.
Qed.

(** X17. [EvaluateCondition] changes nothing: when it returns, it is
    in the state it was called in. The literal of the right-hand side and
    the index of an enum label are written to a local buffer, never to a
    variable. *)
Theorem EvaluateCondition_read_only :
  forall (condition : Condition.t) (s : State),
    EvaluateCondition condition s = None
    \/ exists b, EvaluateCondition condition s = Some (b, s).
Proof.
  intros condition s.
  destruct (EvaluateCondition condition s) as [[b s']|] eqn:E; [|left; reflexivity].
  right. exists b. apply EvaluateCondition_state in E. subst s'. reflexivity.
Qed.

Lemma ExecuteSetVars_loop_filter beforeExecution setVars : forall s,
  ExecuteSetVars_loop beforeExecution setVars s
  = ExecuteSetVars_loop beforeExecution
      (filter (fun setVar => skipped beforeExecution setVar = false) setVars) s.
Proof.
  induction setVars as [|setVar rest IH]; intros s; [reflexivity|].
  destruct (skipped beforeExecution setVar) eqn:Esk.
  - rewrite filter_cons_False by (rewrite Esk; discriminate).
    rewrite <- IH. cbn [ExecuteSetVars_loop]. unfold mbind, M_bind.
    unfold skipped in Esk.
    destruct (_ || negb _) eqn:Eg; [reflexivity|].
    cbn [orb] in Esk. unfold EvaluateCondition. rewrite Esk. reflexivity.
  - rewrite filter_cons_True by exact Esk.
    cbn [ExecuteSetVars_loop]. unfold mbind, M_bind.
    match goal with
    | |- match ?step with _ => _ end = _ => destruct step as [[[] s1]|]
    end; [apply IH | reflexivity].
Qed.

(** X18. [ExecuteSetVars] in a phase runs, in order, the statements
    that have a destination, belong to the phase and whose condition is not
    always false; the others have no effect. When every statement is of
    that kind, the state does not change. *)
Theorem ExecuteSetVars_skips :
  forall (beforeExecution : bool) (s : State),
    ExecuteSetVars beforeExecution s
    = ExecuteSetVars_loop beforeExecution
        (filter (fun setVar => skipped beforeExecution setVar = false)
           (RenderGraph.setVars (m_renderGraph s))) s
    /\ (Forall (fun setVar => skipped beforeExecution setVar = true)
          (RenderGraph.setVars (m_renderGraph s)) ->
        ExecuteSetVars beforeExecution s = Some (tt, s)).
Proof.
  intros beforeExecution s.
  assert (He : ExecuteSetVars beforeExecution s
               = ExecuteSetVars_loop beforeExecution
                   (filter (fun setVar => skipped beforeExecution setVar = false)
                      (RenderGraph.setVars (m_renderGraph s))) s).
  { unfold ExecuteSetVars, mbind, M_bind, get. apply ExecuteSetVars_loop_filter. }
  split; [exact He|]. intros Hall. rewrite He. clear He.
  replace (filter _ (RenderGraph.setVars (m_renderGraph s))) with (@nil SetVariable.t);
    [reflexivity|].
  symmetry. induction Hall as [|setVar rest Hs _ IH]; [reflexivity|].
  rewrite filter_cons_False by (rewrite Hs; discriminate). exact IH.
Qed.

End InterpreterAccess.

(** ** Runtime variables *)

Section RuntimeVariables.
Context `{FL : FloatLib} `{TIO : TextIO} `{SC : Schema} `{RT : RuntimeTypes} `{H : !Host}.
Hypothesis Hlen : writes_in_place TIO.

Lemma keeps_values_refl m : keeps_values m m.
Proof. intros v T n val dfl _ Hs. eauto. Qed.

Lemma keeps_values_trans m1 m2 m3 :
  keeps_values m1 m2 -> keeps_values m2 m3 -> keeps_values m1 m3.
Proof.
  intros H12 H23 v T n val dfl HT Hs.
  destruct (H12 v T n val dfl HT Hs) as (dfl' & Hs'). eauto.
Qed.

Lemma Get_step v m :
  variable_ready m v ->
  exists m',
    VariableStorage.Get v m = Some (storage_for v, m')
    /\ keeps_values m m'
    /\ (forall v0, variable_ready m v0 -> variable_ready m' v0).
Proof using Hlen.
  intros Hready. unfold storage_for.
  destruct (CallFor (Variable_.type v)) as [[T n]|] eqn:HT.
  - assert (Hget : exists m' val' dfl',
               VariableStorage.Get v m = Some (storage_of v T n, m')
               /\ stored m' v T n val' dfl'
               /\ (forall val dfl, stored m v T n val dfl -> val' = val)
               /\ (forall k, k <> (Variable_.name v, Variable_.type v) -> m' !! k = m !! k)).
    { destruct (Hready T n HT) as [Hnone|(val & dfl & Hs)].
      - do 3 eexists. split; [apply (Get_absent Hlen _ _ _ _ HT Hnone)|].
        split; [apply stored_insert; repeat apply Hlen; apply length_replicate|]. split.
        + intros val dfl (Hm & _). congruence.
        + intros k Hk. apply lookup_insert_ne. congruence.
      - pose proof Hs as (Hm & Hv & Hd).
        do 3 eexists. split; [apply (Get_present Hlen _ _ _ _ _ _ HT Hs)|].
        split; [apply stored_insert; [exact Hv | repeat apply Hlen; exact Hd]|]. split.
        + intros val0 dfl0 Hs0. exact (proj1 (stored_inj _ _ _ _ _ _ _ _ Hs0 Hs)).
        + intros k Hk. apply lookup_insert_ne. congruence. }
    destruct Hget as (m' & val' & dfl' & Hget & Hs' & Hkeep & Hframe).
    exists m'. split; [exact Hget|]. split.
    + intros v0 T0 n0 val dfl HT0 Hs0.
      destruct (decide ((Variable_.name v0, Variable_.type v0)
                        = (Variable_.name v, Variable_.type v))) as [Hk|Hk].
      * injection Hk as Hname Htype.
        rewrite Htype, HT in HT0. injection HT0 as <- <-.
        assert (Hsv : stored m v T n val dfl)
          by (apply (stored_same_key _ v0); [symmetry; exact Hname | symmetry; exact Htype | exact Hs0]).
        rewrite (Hkeep val dfl Hsv) in Hs'.
        exists dfl'. apply (stored_same_key _ v); assumption.
      * exists dfl. destruct Hs0 as (Hm0 & Hl). split; [|exact Hl].
        rewrite Hframe by exact Hk. exact Hm0.
    + intros v0 Hr0 T0 n0 HT0.
      destruct (decide ((Variable_.name v0, Variable_.type v0)
                        = (Variable_.name v, Variable_.type v))) as [Hk|Hk].
      * injection Hk as Hname Htype.
        rewrite Htype, HT in HT0. injection HT0 as <- <-.
        right. exists val', dfl'. apply (stored_same_key _ v); assumption.
      * destruct (Hr0 T0 n0 HT0) as [Hnone|(val & dfl & Hm0 & Hl)].
        -- left. rewrite Hframe by exact Hk. exact Hnone.
        -- right. exists val, dfl. split; [|exact Hl]. rewrite Hframe by exact Hk. exact Hm0.
  - exists m. split.
    + unfold VariableStorage.Get, VariableStorage.CallForVariable. rewrite HT. reflexivity.
    + split; [apply keeps_values_refl | auto].
Qed.

Lemma CreateVariableStorage_loop_spec variables : forall s,
  Forall (variable_ready (m_variableStorage s)) variables ->
  exists s',
    CreateVariableStorage_loop variables s = Some (tt, s')
    /\ m_runtimeVariables s'
       = m_runtimeVariables s
         ++ map (fun v => {| variable := v; storage := storage_for v |}) variables
    /\ keeps_values (m_variableStorage s) (m_variableStorage s')
    /\ (forall v0, variable_ready (m_variableStorage s) v0 ->
                   variable_ready (m_variableStorage s') v0).
Proof using Hlen.
  induction variables as [|v rest IH]; intros s Hall.
  - exists s. cbn. rewrite app_nil_r.
    split; [reflexivity|]. split; [reflexivity|]. split; [apply keeps_values_refl | auto].
  - inversion Hall as [|? ? Hv Hrest]; subst.
    destruct (Get_step v (m_variableStorage s) Hv) as (m' & Hget & Hkeep & Hr).
    cbn [CreateVariableStorage_loop]. unfold mbind, M_bind, modify, on_storage.
    rewrite Hget.
    match goal with
    | |- exists s', CreateVariableStorage_loop rest ?s1 = _ /\ _ =>
        destruct (IH s1) as (s' & Hloop & Hrv & Hkeep' & Hr')
    end.
    { cbn [m_variableStorage set_runtimeVariables set_variableStorage].
      eapply Forall_impl; [|exact Hrest]. intros v0. apply Hr. }
    cbn [m_variableStorage m_runtimeVariables set_runtimeVariables set_variableStorage]
      in Hrv, Hkeep', Hr'.
    exists s'. split; [exact Hloop|]. split.
    + rewrite Hrv. cbn [map]. rewrite <- app_assoc. reflexivity.
    + split; [eapply keeps_values_trans; eassumption|].
      intros v0 Hv0. apply Hr', Hr, Hv0.
Qed.

(** X19. [CreateVariableStorage] rebuilds the table of runtime
    variables: one per variable of the graph, in the order of the graph, so
    that index [i] is variable [i], each with the storage object of its
    type. Values the storage already holds are kept; the rest of the
    interpreter is untouched. It asks that the storage holds nothing of the
    wrong size for a variable of the graph. *)
Theorem CreateVariableStorage_runtime_variables :
  forall (g : RenderGraph.t) (s : State),
    Forall (variable_ready (m_variableStorage s)) (RenderGraph.variables g) ->
    exists s',
      CreateVariableStorage g s = Some (tt, s')
      /\ m_runtimeVariables s'
         = map (fun v => {| variable := v; storage := storage_for v |}) (RenderGraph.variables g)
      /\ (forall i v, RenderGraph.variables g !! i = Some v ->
            GetRuntimeVariable (Z.of_nat i) s'
            = Some ({| variable := v; storage := storage_for v |}, s'))
      /\ keeps_values (m_variableStorage s) (m_variableStorage s')
      /\ Forall (variable_ready (m_variableStorage s')) (RenderGraph.variables g)
      /\ same_but_variables s s'.
Proof using Hlen.
  intros g s Hall.
  destruct (CreateVariableStorage_loop_spec (RenderGraph.variables g)
              (set_runtimeVariables [] s) Hall) as (s' & Hloop & Hrv & Hkeep & Hr).
  cbn [m_runtimeVariables m_variableStorage set_runtimeVariables app] in Hrv, Hkeep, Hr.
  assert (Hc : CreateVariableStorage g s = Some (tt, s')) by exact Hloop.
  exists s'. split; [exact Hc|]. split; [exact Hrv|]. split.
  - intros i v Hi. unfold GetRuntimeVariable, defined, at_index.
    destruct (Z.ltb_spec (Z.of_nat i) 0) as [|_]; [lia|].
    rewrite Nat2Z.id, Hrv, list_lookup_fmap, Hi. reflexivity.
  - split; [exact Hkeep|]. split.
    + eapply Forall_impl; [|exact Hall]. intros v0. apply Hr.
    + apply (CreateVariableStorage_frame g). exact Hc.
Qed.

Lemma NodeAction_call_variables node action s ok s' :
  NodeAction_call node action s = Some (ok, s') ->
  m_variableStorage s' = m_variableStorage s /\ m_runtimeVariables s' = m_runtimeVariables s.
Proof.
  unfold NodeAction_call, GetOrCreate, mbind, M_bind, get, modify, mret, M_ret.
  destruct (m_RuntimeData s (RenderGraphNode._index node) !! RenderGraphNode.name node) as [rd|];
    cbn.
  - destruct (OnNodeAction node rd action (host s)) as [[ok' rd'] h].
    intros Hq; inversion Hq; subst. split; reflexivity.
  - destruct (OnNodeAction node (rt_default (RenderGraphNode._index node)) action (host s))
      as [[ok' rd'] h].
    intros Hq; inversion Hq; subst. split; reflexivity.
Qed.

Lemma Compile_loop_variables indices : forall s ok s',
  Compile_loop indices s = Some (ok, s') ->
  m_variableStorage s' = m_variableStorage s /\ m_runtimeVariables s' = m_runtimeVariables s.
Proof.
  induction indices as [|i indices IH]; intros s ok s'; cbn [Compile_loop].
  - intros Hq; inversion Hq; subst. split; reflexivity.
  - unfold mbind, M_bind, get, defined, modify, mret, M_ret.
    destruct (at_index (RenderGraph.nodes (m_renderGraph s)) i) as [node|]; [|discriminate].
    destruct (NodeAction_call node NodeAction.Init s) as [[b s1]|] eqn:Hc; [|discriminate].
    apply NodeAction_call_variables in Hc. destruct Hc as [Hc1 Hc2].
    destruct b; cbn [negb].
    + intros Hrest. apply IH in Hrest. destruct Hrest. split; congruence.
    + intros Hq; inversion Hq; subst. cbn. split; assumption.
Qed.

(** X20. Compiling again keeps the values of the variables. When the
    external compiler succeeds, [Compile] returns OK or [InterpreterError],
    the graph stored is the compiled one, the table of runtime variables
    lists its variables, and every value the storage held before is still
    the value stored under its name and type. *)
Theorem Compile_keeps_values :
  forall (fileName : string) (PostLoad : RenderGraph.t -> RenderGraph.t) (s : State)
         (g : RenderGraph.t) (h : HostState) (nodes : list RenderGraphNode.t),
    GigiCompile GigiBuildFlavor.Interpreter_Interpreter fileName
      (m_tempDirectory (before_GigiCompile s)) PostLoad RenderGraph.empty
      (host (before_GigiCompile s)) = (GigiCompileResult.OK, g, h) ->
    Forall (variable_ready (m_variableStorage s)) (RenderGraph.variables g) ->
    Forall2 (fun i n => at_index (RenderGraph.nodes g) i = Some n)
      (RenderGraph.flattenedNodeList g) nodes ->
    exists r s3,
      Compile fileName PostLoad s = Some (r, s3)
      /\ (r = GigiCompileResult.OK \/ r = GigiCompileResult.InterpreterError)
      /\ m_renderGraph s3 = g
      /\ m_runtimeVariables s3
         = map (fun v => {| variable := v; storage := storage_for v |}) (RenderGraph.variables g)
      /\ keeps_values (m_variableStorage s) (m_variableStorage s3).
Proof using Hlen.
  intros fileName PostLoad s g h nodes Hc Hall Hn.
  set (s0 := set_compileResult GigiCompileResult.OK
               (set_renderGraph g (set_host h (before_GigiCompile s)))).
  destruct (CreateVariableStorage_loop_spec (RenderGraph.variables g)
              (set_runtimeVariables [] s0) Hall) as (s1 & Hloop & Hrv & Hkeep & _).
  cbn [m_runtimeVariables m_variableStorage set_runtimeVariables app] in Hrv, Hkeep.
  assert (Hv : CreateVariableStorage g s0 = Some (tt, s1)) by exact Hloop.
  pose proof (CreateVariableStorage_frame _ _ _ Hv) as (_ & Hg & _).
  cbn in Hg.
  set (s2 := set_RuntimeData (fun _ => ∅) (set_host (OnCompileOK (host s1)) s1)).
  assert (Hn2 : names_nodes s2 (RenderGraph.flattenedNodeList g) nodes).
  { unfold names_nodes. cbn. rewrite Hg. exact Hn. }
  assert (HC : Compile fileName PostLoad s =
               match Compile_loop (RenderGraph.flattenedNodeList g) s2 with
               | Some (true, s3) => Some (GigiCompileResult.OK, s3)
               | Some (false, s3) => Some (GigiCompileResult.InterpreterError, s3)
               | None => None
               end).
  { rewrite Compile_unfold. cbv zeta. rewrite Hc.
    rewrite bool_decide_eq_true_2 by reflexivity. cbn [negb]. fold s0. rewrite Hv.
    fold s2. replace (m_renderGraph s2) with g by (symmetry; exact Hg).
    destruct (Compile_loop _ s2) as [[[] s3]|]; reflexivity. }
  destruct (Compile_loop_spec _ nodes s2 Hn2)
    as [(s3 & He & _ & Hg3 & _)|(k & node & s3 & _ & He & _ & Hg3 & _)];
    pose proof (Compile_loop_variables _ _ _ _ He) as [Hm3 Hr3];
    cbn in Hm3, Hr3, Hg3; rewrite HC, He.
  - exists GigiCompileResult.OK, s3. split; [reflexivity|]. split; [auto|].
    split; [congruence|]. split; [congruence|]. rewrite Hm3. exact Hkeep.
  - exists GigiCompileResult.InterpreterError, s3. split; [reflexivity|]. split; [auto|].
    split; [congruence|]. split; [congruence|]. rewrite Hm3. exact Hkeep.
Qed.

End RuntimeVariables.

(** ** Conditions and registries *)

Section Conditions.
Context `{FL : FloatLib} `{TIO : TextIO} `{SC : Schema} `{RT : RuntimeTypes} `{H : !Host}.

Lemma read_component_component T p i s :
  read_component T p i s
  = match component (m_variableStorage s) T p i with
    | Some bs => Some (bs, s)
    | None => None
    end.
Proof.
  unfold read_component, component, defined.
  destruct (ptr_index p (Z.of_nat i) (sizeof T)); reflexivity.
Qed.

Lemma DoComparison_loop_all T A B op (a b : nat -> list byte) s : forall n i ret,
  (forall k, (i <= k < i + n)%nat ->
     component (m_variableStorage s) T A k = Some (a k)
     /\ component (m_variableStorage s) T B k = Some (b k)) ->
  DoComparison_loop T A B op ret i n s
  = Some (ret && forallb (fun k => DoComparison_bytes T (a k) (b k) op) (seq i n), s).
Proof.
  induction n as [|n IH]; intros i ret Hk; cbn [DoComparison_loop seq forallb].
  - rewrite andb_true_r. reflexivity.
  - unfold mbind, M_bind, mret, M_ret. destruct ret.
    + destruct (Hk i ltac:(lia)) as [Ha Hb].
      rewrite read_component_component, Ha. cbv beta iota.
      rewrite read_component_component, Hb. cbv beta iota.
      rewrite IH by (intros k Hr; apply Hk; lia). reflexivity.
    + rewrite IH by (intros k Hr; apply Hk; lia). reflexivity.
Qed.

(** X21. A comparison of two variables is the conjunction of the
    comparisons of their components. NotEquals therefore asks that every
    component differs, and a comparison of no components holds. *)
Theorem EvaluateConditionTyped_all_components :
  forall (T : CompType) (condition : Condition.t) (ABytes BBytes : Ptr) (componentCount : nat)
         (s : State) (a b : nat -> list byte),
    Condition.variable2Index condition <> -1 ->
    (forall k, (k < componentCount)%nat ->
       component (m_variableStorage s) T ABytes k = Some (a k)
       /\ component (m_variableStorage s) T BBytes k = Some (b k)) ->
    EvaluateConditionTyped T condition ABytes BBytes componentCount s
    = Some (forallb (fun k => DoComparison_bytes T (a k) (b k) (Condition.comparison condition))
              (seq 0 componentCount), s).
Proof.
  intros T condition ABytes BBytes componentCount s a b Hv Hk.
  unfold EvaluateConditionTyped, mbind, M_bind, mret, M_ret.
  destruct (Z.eqb_spec (Condition.variable2Index condition) (-1)) as [|_]; [contradiction|].
  rewrite (DoComparison_loop_all T ABytes BBytes _ a b s) by (intros k Hr; apply Hk; lia).
  reflexivity.
Qed.

End Conditions.

Section Registries.
Context `{FL : FloatLib} `{TIO : TextIO} `{SC : Schema} `{RT : RuntimeTypes} `{H : !Host}.
Hypothesis Hlen : writes_in_place TIO.

(** A node action registers the runtime data of its node and of no
    other. *)
Lemma NodeAction_call_keys node action s ok s' :
  NodeAction_call node action s = Some (ok, s') ->
  forall k n,
    is_Some (m_RuntimeData s' k !! n)
    <-> is_Some (m_RuntimeData s k !! n)
        \/ (k = RenderGraphNode._index node /\ n = RenderGraphNode.name node).
Proof.
  unfold NodeAction_call, GetOrCreate, mbind, M_bind, get, modify, mret, M_ret.
  destruct node as [kind name]. cbn [RenderGraphNode._index RenderGraphNode.name].
  assert (Hins : forall (f : NodeKind -> gmap string RuntimeData) (x : RuntimeData) k n,
            is_Some ((<[kind := <[name := x]> (f kind)]> f) k !! n)
            <-> is_Some (f k !! n) \/ (k = kind /\ n = name)).
  { intros f x k n. destruct (decide (k = kind)) as [->|Hk].
    - rewrite fn_lookup_insert. rewrite lookup_insert_is_Some.
      destruct (decide (name = n)) as [->|Hn]; [tauto|].
      split; [intros [?|[_ ?]]; [congruence | tauto] | intros [?|[_ ?]]; [tauto | congruence]].
    - rewrite fn_lookup_insert_ne by congruence. tauto. }
  destruct (m_RuntimeData s kind !! name) as [rd|] eqn:E; cbv beta iota.
  - destruct (OnNodeAction _ rd action (host s)) as [[ok' rd'] h'].
    intros Hq; inversion Hq; subst. intros k n.
    cbn [m_RuntimeData set_calls set_host set_RuntimeData]. apply Hins.
  - cbn [host set_RuntimeData].
    destruct (OnNodeAction _ (rt_default kind) action (host s)) as [[ok' rd'] h'].
    intros Hq; inversion Hq; subst. intros k n.
    cbn [m_RuntimeData set_calls set_host set_RuntimeData].
    rewrite !Hins. tauto.
Qed.

Lemma Compile_loop_keys_mono indices : forall s ok s',
  Compile_loop indices s = Some (ok, s') ->
  forall k n, is_Some (m_RuntimeData s k !! n) -> is_Some (m_RuntimeData s' k !! n).
Proof.
  induction indices as [|i indices IH]; intros s ok s'; cbn [Compile_loop].
  - intros Hq; inversion Hq; subst; auto.
  - unfold mbind, M_bind, get, defined, modify, mret, M_ret.
    destruct (at_index _ i) as [node|]; [|discriminate].
    destruct (NodeAction_call node NodeAction.Init s) as [[b s1]|] eqn:Hc; [|discriminate].
    pose proof (NodeAction_call_keys _ _ _ _ _ Hc) as Hk.
    destruct b; cbn [negb].
    + intros Hl k n Hs. eapply IH; [exact Hl|]. apply Hk. auto.
    + intros Hq; inversion Hq; subst. intros k n Hs. cbn. apply Hk. auto.
Qed.

Lemma Compile_loop_keys indices : forall nodes s ok s',
  names_nodes s indices nodes ->
  Compile_loop indices s = Some (ok, s') ->
  (forall k n, is_Some (m_RuntimeData s' k !! n) ->
     is_Some (m_RuntimeData s k !! n)
     \/ exists node, node ∈ nodes /\ RenderGraphNode._index node = k
                     /\ RenderGraphNode.name node = n)
  /\ (ok = true ->
      forall node, node ∈ nodes ->
        is_Some (m_RuntimeData s' (RenderGraphNode._index node) !! RenderGraphNode.name node)).
Proof.
  induction indices as [|i indices IH]; intros nodes s ok s' Hn; cbn [Compile_loop].
  - inversion Hn; subst. intros Hq; inversion Hq; subst. split; [auto|].
    intros _ node Hin. apply elem_of_nil in Hin. contradiction.
  - inversion Hn as [|? node ? nodes' Hi Hrest]; subst.
    unfold mbind, M_bind, get, defined, modify, mret, M_ret. rewrite Hi.
    destruct (NodeAction_call node NodeAction.Init s) as [[b s1]|] eqn:Hc; [|discriminate].
    pose proof (NodeAction_call_keys _ _ _ _ _ Hc) as Hkeys.
    destruct (NodeAction_call_spec node NodeAction.Init s) as (ok1 & s1' & Hc' & _ & Hg & _).
    rewrite Hc in Hc'. inversion Hc'; subst ok1 s1'.
    destruct b; cbn [negb].
    + intros Hloop.
      assert (Hn' : names_nodes s1 indices nodes')
        by (unfold names_nodes; rewrite Hg; exact Hrest).
      destruct (IH nodes' s1 ok s' Hn' Hloop) as [Hsub Hall]. split.
      * intros k n Hs. destruct (Hsub k n Hs) as [Hs1|(nd & Hin & Hk & Hnm)].
        -- apply Hkeys in Hs1. destruct Hs1 as [?|[-> ->]]; [auto|].
           right. exists node. split; [apply list_elem_of_here | auto].
        -- right. exists nd. split; [apply list_elem_of_further; exact Hin | auto].
      * intros Hok nd Hin. apply elem_of_cons in Hin. destruct Hin as [->|Hin].
        -- eapply Compile_loop_keys_mono; [exact Hloop|]. apply Hkeys. auto.
        -- apply Hall; assumption.
    + intros Hq; inversion Hq; subst. split; [|discriminate].
      intros k n Hs. cbn [m_RuntimeData set_logged] in Hs.
      apply Hkeys in Hs. destruct Hs as [?|[-> ->]]; [auto|].
      right. exists node. split; [apply list_elem_of_here | auto].
Qed.

(** X22. A successful external compile empties the runtime data of
    every node kind before the nodes are initialised: after [Compile], only
    nodes of the flattened list have runtime data, and when it returns OK
    each of them has. *)
Theorem Compile_registers_initialised_nodes :
  forall (fileName : string) (PostLoad : RenderGraph.t -> RenderGraph.t) (s : State)
         (g : RenderGraph.t) (h : HostState) (nodes : list RenderGraphNode.t),
    GigiCompile GigiBuildFlavor.Interpreter_Interpreter fileName
      (m_tempDirectory (before_GigiCompile s)) PostLoad RenderGraph.empty
      (host (before_GigiCompile s)) = (GigiCompileResult.OK, g, h) ->
    Forall (variable_ready (m_variableStorage s)) (RenderGraph.variables g) ->
    Forall2 (fun i n => at_index (RenderGraph.nodes g) i = Some n)
      (RenderGraph.flattenedNodeList g) nodes ->
    exists r s3,
      Compile fileName PostLoad s = Some (r, s3)
      /\ (forall k n, is_Some (m_RuntimeData s3 k !! n) ->
            exists node, node ∈ nodes /\ RenderGraphNode._index node = k
                         /\ RenderGraphNode.name node = n)
      /\ (r = GigiCompileResult.OK ->
          forall node, node ∈ nodes ->
            is_Some (m_RuntimeData s3 (RenderGraphNode._index node)
                       !! RenderGraphNode.name node)).
Proof using Hlen.
  intros fileName PostLoad s g h nodes Hc Hall Hn.
  set (s0 := set_compileResult GigiCompileResult.OK
               (set_renderGraph g (set_host h (before_GigiCompile s)))).
  destruct (CreateVariableStorage_loop_spec Hlen (RenderGraph.variables g)
              (set_runtimeVariables [] s0) Hall) as (s1 & Hloop & _).
  assert (Hv : CreateVariableStorage g s0 = Some (tt, s1)) by exact Hloop.
  pose proof (CreateVariableStorage_frame _ _ _ Hv) as (_ & Hg & _).
  cbn in Hg.
  set (s2 := set_RuntimeData (fun _ => ∅) (set_host (OnCompileOK (host s1)) s1)).
  assert (Hn2 : names_nodes s2 (RenderGraph.flattenedNodeList g) nodes).
  { unfold names_nodes. cbn. rewrite Hg. exact Hn. }
  assert (HC : Compile fileName PostLoad s =
               match Compile_loop (RenderGraph.flattenedNodeList g) s2 with
               | Some (true, s3) => Some (GigiCompileResult.OK, s3)
               | Some (false, s3) => Some (GigiCompileResult.InterpreterError, s3)
               | None => None
               end).
  { rewrite Compile_unfold. cbv zeta. rewrite Hc.
    rewrite bool_decide_eq_true_2 by reflexivity. cbn [negb]. fold s0. rewrite Hv.
    fold s2. replace (m_renderGraph s2) with g by (symmetry; exact Hg).
    destruct (Compile_loop _ s2) as [[[] s3]|]; reflexivity. }
  assert (Hempty : forall k n, ~ is_Some (m_RuntimeData s2 k !! n)).
  { intros k n. cbn. rewrite lookup_empty. apply is_Some_None. }
  destruct (Compile_loop_spec _ nodes s2 Hn2)
    as [(s3 & He & _)|(k & node & s3 & _ & He & _)];
    destruct (Compile_loop_keys _ _ _ _ _ Hn2 He) as [Hsub Hok]; rewrite HC, He.
  - exists GigiCompileResult.OK, s3. split; [reflexivity|]. split.
    + intros k n Hs. destruct (Hsub k n Hs) as [Hs2|?]; [|assumption].
      exfalso. exact (Hempty k n Hs2).
    + intros _. apply Hok. reflexivity.
  - exists GigiCompileResult.InterpreterError, s3. split; [reflexivity|]. split.
    + intros k' n Hs. destruct (Hsub k' n Hs) as [Hs2|?]; [|assumption].
      exfalso. exact (Hempty k' n Hs2).
    + discriminate.
Qed.

End Registries.

(** ** SetVariable statements *)

Section SetVariables.
Context `{FL : FloatLib} `{TIO : TextIO} `{SC : Schema} `{RT : RuntimeTypes} `{H : !Host}.

Lemma DoOp_bytes_length T a b d op r : DoOp_bytes T a b d op = Some r -> length r = sizeof T.
Proof.
  assert (Hint : forall IT n x y z,
            (DoOp_int IT x y z op ≫= fun v => Some (le_encode n v)) = Some r -> length r = n).
  { intros IT n x y z. destruct (DoOp_int IT x y z op); [|discriminate].
    intros Hq; inversion Hq. apply length_le_encode. }
  destruct T; cbn [DoOp_bytes sizeof].
  - intros [= <-]. reflexivity.
  - apply Hint.
  - apply Hint.
  - apply Hint.
  - intros [= <-]. reflexivity.
Qed.

Lemma DoOp_each_length T op A B dest : forall n i new,
  DoOp_each T op A B dest i n = Some new -> length new = (n * sizeof T)%nat.
Proof.
  induction n as [|n IH]; intros i new; cbn [DoOp_each].
  - intros Hq; inversion Hq; reflexivity.
  - destruct (slice A _ _) as [a|]; [|discriminate].
    destruct (slice B _ _) as [b|]; [|discriminate].
    destruct (slice dest _ _) as [d|]; [|discriminate].
    destruct (DoOp_bytes T a b d op) as [r|] eqn:Er; [|discriminate].
    destruct (DoOp_each T op A B dest (S i) n) as [rest|] eqn:Erest; [|discriminate].
    intros Hq; inversion Hq; subst. rewrite length_app.
    rewrite (DoOp_bytes_length _ _ _ _ _ _ Er), (IH _ _ Erest). lia.
Qed.

Lemma slice_Some (buf : list byte) off n x :
  slice buf off n = Some x -> (off + n <= length buf)%nat /\ x = take n (drop off buf).
Proof.
  unfold slice. destruct (Nat.leb_spec (off + n) (length buf)); [|discriminate].
  intros Hq; inversion Hq. auto.
Qed.

(** Components before [off] that have been written do not show at
    [off]. *)
Lemma slice_done (done bd : list byte) off n :
  length done = off -> (off <= length bd)%nat ->
  slice (done ++ drop off bd) off n = slice bd off n.
Proof.
  intros <- Hle. unfold slice. rewrite length_app, length_drop.
  replace (length done + (length bd - length done))%nat with (length bd) by lia.
  destruct (length done + n <=? length bd)%nat; [|reflexivity].
  rewrite drop_app_length. reflexivity.
Qed.

Lemma splice_done (done bd r : list byte) off :
  length done = off -> (off + length r <= length bd)%nat ->
  splice (done ++ drop off bd) off r = Some ((done ++ r) ++ drop (off + length r) bd).
Proof.
  intros <- Hle. unfold splice. rewrite length_app, length_drop.
  destruct (Nat.leb_spec (length done + length r)
              (length done + (length bd - length done))) as [_|]; [|lia].
  rewrite take_app_length.
  rewrite drop_app_ge by lia. rewrite drop_drop.
  replace (length done + (length done + length r - length done))%nat
    with (length done + length r)%nat by lia.
  rewrite <- app_assoc. reflexivity.
Qed.

Lemma ptr_index_storage k i w :
  ptr_index (PStorage k 0) (Z.of_nat i) w = Some (PStorage k (i * w)).
Proof.
  unfold ptr_index. destruct (Z.ltb_spec (Z.of_nat i) 0) as [|_]; [lia|].
  rewrite Nat2Z.id. reflexivity.
Qed.

Lemma ptr_index_local buf i w :
  ptr_index (PLocal buf 0) (Z.of_nat i) w = Some (PLocal buf (i * w)).
Proof.
  unfold ptr_index. destruct (Z.ltb_spec (Z.of_nat i) 0) as [|_]; [lia|].
  rewrite Nat2Z.id. reflexivity.
Qed.

(** Reading component [i] of an operand while the destination has its
    components before [i] written: the operand shows what it held at the
    start, also when it is the destination itself. *)
Lemma component_pointee T m0 kd bd done i p bp :
  m0 !! kd = Some bd ->
  length done = (i * sizeof T)%nat -> (i * sizeof T <= length bd)%nat ->
  pointee m0 p = Some bp ->
  component (<[kd := done ++ drop (i * sizeof T) bd]> m0) T p i
  = slice bp (i * sizeof T) (sizeof T).
Proof.
  intros Hkd Hdone Hle Hp. unfold component.
  destruct p as [|k [|off]|buf [|off]]; try discriminate.
  - rewrite ptr_index_storage. cbn [VariableStorage.read]. cbn [pointee] in Hp.
    destruct (decide (k = kd)) as [->|Hk].
    + rewrite lookup_insert_eq. rewrite Hkd in Hp. inversion Hp; subst.
      apply slice_done; assumption.
    + rewrite lookup_insert_ne by congruence. rewrite Hp. reflexivity.
  - rewrite ptr_index_local. cbn [VariableStorage.read]. cbn [pointee] in Hp.
    inversion Hp; subst. reflexivity.
Qed.

Lemma DoOp_loop_each T A B kd op m0 bd ba bb s :
  m0 !! kd = Some bd -> pointee m0 A = Some ba -> pointee m0 B = Some bb ->
  forall n i done new,
    length done = (i * sizeof T)%nat ->
    DoOp_each T op ba bb bd i n = Some new ->
    DoOp_loop T A B (PStorage kd 0) op i n
      (set_variableStorage (<[kd := done ++ drop (i * sizeof T) bd]> m0) s)
    = Some (tt, set_variableStorage
                  (<[kd := (done ++ new) ++ drop ((i + n) * sizeof T) bd]> m0) s).
Proof.
  intros Hkd HA HB. induction n as [|n IH]; intros i done new Hdone; cbn [DoOp_each DoOp_loop].
  - intros [= <-]. rewrite app_nil_r, Nat.add_0_r. reflexivity.
  - destruct (slice ba _ _) as [a|] eqn:Ea; [|discriminate].
    destruct (slice bb _ _) as [b|] eqn:Eb; [|discriminate].
    destruct (slice bd _ _) as [d|] eqn:Ed; [|discriminate].
    destruct (DoOp_bytes T a b d op) as [r|] eqn:Er; [|discriminate].
    destruct (DoOp_each T op ba bb bd (S i) n) as [rest|] eqn:Erest; [|discriminate].
    intros [= <-].
    pose proof (slice_Some _ _ _ _ Ed) as [Hle _].
    pose proof (DoOp_bytes_length _ _ _ _ _ _ Er) as Hr.
    unfold mbind, M_bind.
    rewrite read_component_component.
    cbn [m_variableStorage set_variableStorage].
    rewrite (component_pointee T m0 kd bd done i A ba Hkd Hdone ltac:(lia) HA), Ea.
    cbv beta iota. rewrite read_component_component.
    cbn [m_variableStorage set_variableStorage].
    rewrite (component_pointee T m0 kd bd done i B bb Hkd Hdone ltac:(lia) HB), Eb.
    cbv beta iota. rewrite read_component_component.
    cbn [m_variableStorage set_variableStorage].
    rewrite (component_pointee T m0 kd bd done i (PStorage kd 0) bd Hkd Hdone ltac:(lia) Hkd), Ed.
    cbv beta iota. unfold defined at 1. rewrite Er.
    unfold write_component, mbind, M_bind, defined. rewrite ptr_index_storage.
    unfold on_storage, VariableStorage.write.
    cbn [m_variableStorage set_variableStorage].
    rewrite lookup_insert_eq.
    rewrite (splice_done done bd r (i * sizeof T) Hdone ltac:(lia)).
    rewrite insert_insert_eq.
    replace (i * sizeof T + length r)%nat with (S i * sizeof T)%nat by lia.
    change (set_variableStorage ?v (set_variableStorage _ s)) with (set_variableStorage v s).
    rewrite (IH (S i) (done ++ r) rest) by (rewrite ?length_app; lia || exact Erest).
    replace ((S i + n) * sizeof T)%nat with ((i + S n) * sizeof T)%nat by lia.
    rewrite <- (app_assoc done r rest). reflexivity.
Qed.

Lemma pointee_not_null m p bp : pointee m p = Some bp -> ptr_is_null p = false.
Proof. destruct p; [discriminate | reflexivity | reflexivity]. Qed.

(** The pointer that [ExecuteSetvar] and then [DoSetVarOperation] arrive
    at for an operand that is bound to no node. *)
Lemma operand_resolved (Hlen : writes_in_place TIO) T n typeBytes cbc s XVar XLiteral bx :
  operand_holds T n typeBytes s XVar XLiteral bx ->
  exists X XBytes,
    operand_bytes XVar typeBytes s = Some (XBytes, s)
    /\ resolve_operand T {| NodeReference.textureNode := None; NodeReference.bufferNode := None |}
         XVar XLiteral XBytes n cbc s = Some (X, s)
    /\ pointee (m_variableStorage s) X = Some bx.
Proof.
  unfold operand_holds, operand_bytes, resolve_operand. cbn [NodeReference.textureNode
    NodeReference.bufferNode].
  unfold mbind, M_bind, mret, M_ret, GetRuntimeVariable, defined.
  destruct (Z.eqb_spec (VariableReference.variableIndex XVar) (-1)) as [He|He]; cbn [negb].
  - intros [Hle ->]. cbn [ptr_is_null].
    set (z := replicate typeBytes x00).
    set (parsed := SetFromString T XLiteral n (replicate (n * sizeof T) x00)).
    assert (Hparsed : length parsed = (n * sizeof T)%nat) by (apply Hlen, length_replicate).
    exists (PLocal (parsed ++ replicate (typeBytes - n * sizeof T) x00) 0), (PLocal z 0).
    split; [reflexivity|]. split; [|reflexivity].
    unfold on_storage, VariableStorage.SetFromString_at, slice, splice.
    unfold z. rewrite length_replicate.
    destruct (Nat.leb_spec (0 + n * sizeof T) typeBytes) as [_|]; [|lia].
    rewrite drop_0, take_replicate. rewrite Nat.min_l by lia. fold parsed.
    rewrite Hparsed.
    destruct (Nat.leb_spec (0 + n * sizeof T) typeBytes) as [_|]; [|lia].
    rewrite take_0, drop_replicate. cbn [app].
    rewrite set_variableStorage_same.
    replace (typeBytes - (0 + n * sizeof T))%nat with (typeBytes - n * sizeof T)%nat by lia.
    reflexivity.
  - intros (rv & Hrv & Hp). rewrite Hrv.
    rewrite (pointee_not_null _ _ _ Hp).
    exists (Storage.value (storage rv)), (Storage.value (storage rv)).
    split; [reflexivity|]. split; [reflexivity | exact Hp].
Qed.

(** X23. A SetVariable statement whose operands are variables or
    literals, with no component selected, stores in each component of its
    destination the result of [DoOp] on the components of the operands and
    of the destination at the same index, as they were before the
    statement. That holds also when an operand is the destination itself.
    Only the value of the destination changes. *)
Theorem ExecuteSetvar_componentwise :
  forall (setVar : SetVariable.t) (s : State) (vd : Variable_.t) (rvd : RuntimeVariable)
         (T : CompType) (kd : Key) (bd ba bb new : list byte),
    let id := VariableReference.variableIndex (SetVariable.destination setVar) in
    let typeInfo := DataFieldTypeInfo (Variable_.type vd) in
    let n := DataFieldTypeInfoStruct.componentCount typeInfo in
    let typeBytes := DataFieldTypeInfoStruct.typeBytes typeInfo in
    writes_in_place TIO ->
    at_index (RenderGraph.variables (m_renderGraph s)) id = Some vd ->
    component_type_of (DataFieldTypeInfoStruct.componentType2 typeInfo) = Some T ->
    at_index (m_runtimeVariables s) id = Some rvd ->
    Storage.value (storage rvd) = PStorage kd 0 ->
    m_variableStorage s !! kd = Some bd ->
    NodeReference.textureNode (SetVariable.ANode setVar) = None ->
    NodeReference.bufferNode (SetVariable.ANode setVar) = None ->
    NodeReference.textureNode (SetVariable.BNode setVar) = None ->
    NodeReference.bufferNode (SetVariable.BNode setVar) = None ->
    SetVariable.destinationIndex setVar = -1 ->
    SetVariable.AVarIndex setVar = -1 ->
    SetVariable.BVarIndex setVar = -1 ->
    operand_holds T n typeBytes s (SetVariable.AVar setVar) (SetVariable.ALiteral setVar) ba ->
    operand_holds T n typeBytes s (SetVariable.BVar setVar) (SetVariable.BLiteral setVar) bb ->
    DoOp_each T (SetVariable.op setVar) ba bb bd 0 n = Some new ->
    ExecuteSetvar setVar s
    = Some (tt, set_variableStorage
                  (<[kd := new ++ drop (n * sizeof T) bd]> (m_variableStorage s)) s).
Proof.
  intros setVar s vd rvd T kd bd ba bb new id typeInfo n typeBytes
    Hlen Hvd HT Hrvd Hval Hkd HAt HAb HBt HBb Hdi Hai Hbi HA HB Heach.
  assert (Hrun : forall cbc,
            (ABytes ← operand_bytes (SetVariable.AVar setVar) typeBytes;
             BBytes ← operand_bytes (SetVariable.BVar setVar) typeBytes;
             DoSetVarOperation T setVar ABytes BBytes (PStorage kd 0) n cbc) s
            = Some (tt, set_variableStorage
                          (<[kd := new ++ drop (n * sizeof T) bd]> (m_variableStorage s)) s)).
  { intros cbc.
    destruct (operand_resolved Hlen T n typeBytes cbc s _ _ ba HA)
      as (A & ABytes & HAbytes & HAres & HAp).
    destruct (operand_resolved Hlen T n typeBytes cbc s _ _ bb HB)
      as (B & BBytes & HBbytes & HBres & HBp).
    unfold mbind, M_bind. rewrite HAbytes, HBbytes.
    unfold DoSetVarOperation, mbind, M_bind, mret, M_ret.
    destruct (SetVariable.ANode setVar) as [At Ab]. cbn in HAt, HAb. subst At Ab.
    destruct (SetVariable.BNode setVar) as [Bt Bb]. cbn in HBt, HBb. subst Bt Bb.
    rewrite HAres, HBres. rewrite Hdi, Hai, Hbi. cbn [Z.eqb negb Pos.eqb].
    pose proof (DoOp_loop_each T A B kd (SetVariable.op setVar) (m_variableStorage s)
                  bd ba bb s Hkd HAp HBp n 0%nat [] new eq_refl Heach) as Hloop.
    cbn [app Nat.mul Nat.add drop] in Hloop.
    rewrite insert_id in Hloop by exact Hkd.
    rewrite set_variableStorage_same in Hloop. exact Hloop. }
  unfold ExecuteSetvar, mbind, M_bind, get, GetRuntimeVariable, defined.
  fold id. rewrite Hvd, Hrvd, Hval. fold typeInfo. fold typeBytes. fold n.
  unfold mbind, M_bind in Hrun.
  destruct (DataFieldTypeInfoStruct.componentType2 typeInfo); try discriminate HT;
    injection HT as <-; apply Hrun.
Qed.

Lemma le_encode_decode_int IT (bs : list byte) :
  length bs = match IT with U16 => 2%nat | _ => 4%nat end ->
  le_encode (length bs) (decode_int IT bs) = bs.
Proof.
  intros Hl. unfold decode_int.
  rewrite <- (le_encode_decode bs) at 3.
  apply le_encode_congr. rewrite Hl.
  destruct IT; unfold wrap.
  - change (2 ^ (8 * Z.of_nat 4)) with (2 ^ 32).
    rewrite Zminus_mod_idemp_l. f_equal. lia.
  - change (2 ^ (8 * Z.of_nat 2)) with (2 ^ 16). apply Z.mod_mod. lia.
  - change (2 ^ (8 * Z.of_nat 4)) with (2 ^ 32). apply Z.mod_mod. lia.
Qed.

Lemma DoOp_bytes_Noop T a b d :
  T <> CBool -> T <> CFloat -> length a = sizeof T ->
  DoOp_bytes T a b d SetVariableOperator.Noop = Some a.
Proof.
  intros Hb Hf Hl. destruct T; try contradiction; cbn [DoOp_bytes DoOp_int sizeof] in *;
    unfold mbind, option_bind; f_equal; rewrite <- Hl; apply le_encode_decode_int; exact Hl.
Qed.

(** X24. With the operator Noop the new components are those of [A],
    bit for bit, on the integer types: the statement is an assignment. *)
Theorem DoOp_Noop_assigns :
  forall (T : CompType) (A B dest : list byte) (n i : nat),
    T <> CBool -> T <> CFloat ->
    ((i + n) * sizeof T <= length A)%nat ->
    ((i + n) * sizeof T <= length B)%nat ->
    ((i + n) * sizeof T <= length dest)%nat ->
    DoOp_each T SetVariableOperator.Noop A B dest i n
    = Some (take (n * sizeof T) (drop (i * sizeof T) A)).
Proof.
  intros T A B dest n. induction n as [|n IH]; intros i Hb Hf HA HB Hd; cbn [DoOp_each].
  - reflexivity.
  - unfold slice.
    destruct (Nat.leb_spec (i * sizeof T + sizeof T) (length A)) as [_|]; [|lia].
    destruct (Nat.leb_spec (i * sizeof T + sizeof T) (length B)) as [_|]; [|lia].
    destruct (Nat.leb_spec (i * sizeof T + sizeof T) (length dest)) as [_|]; [|lia].
    rewrite DoOp_bytes_Noop; [|assumption|assumption|].
    2:{ rewrite length_take, length_drop. lia. }
    rewrite IH by (assumption || lia).
    f_equal.
    replace (S i * sizeof T)%nat with (i * sizeof T + sizeof T)%nat by lia.
    rewrite <- drop_drop.
    replace (S n * sizeof T)%nat with (sizeof T + n * sizeof T)%nat by lia.
    rewrite <- take_take_drop. reflexivity.
Qed.

End SetVariables.

(** ** What running the graph leaves alone *)

Section ConfigurationProperties.
Context `{FL : FloatLib} `{TIO : TextIO} `{SC : Schema} `{RT : RuntimeTypes} `{H : !Host}.

Lemma keeps_configuration_refl s : keeps_configuration s s.
Proof. repeat split. Qed.

Lemma keeps_configuration_trans s1 s2 s3 :
  keeps_configuration s1 s2 -> keeps_configuration s2 s3 -> keeps_configuration s1 s3.
Proof. unfold keeps_configuration. intuition congruence. Qed.

Lemma preserves_ret {A} (a : A) : preserves (mret a).
Proof. intros s a' s' [= _ <-]. apply keeps_configuration_refl. Qed.

Lemma preserves_bind {A B} (m : M State A) (f : A -> M State B) :
  preserves m -> (forall a, preserves (f a)) -> preserves (m ≫= f).
Proof.
  intros Hm Hf s b s'. unfold mbind, M_bind.
  destruct (m s) as [[a s1]|] eqn:E; [|discriminate].
  intros Hb. eapply keeps_configuration_trans; [eapply Hm; exact E | eapply Hf; exact Hb].
Qed.

Lemma preserves_get : preserves (@get State).
Proof. intros s a s' [= _ <-]. apply keeps_configuration_refl. Qed.

Lemma preserves_defined {A} (o : option A) : preserves (defined o).
Proof.
  intros s a s'. unfold defined. destruct o; [|discriminate].
  intros [= _ <-]. apply keeps_configuration_refl.
Qed.

Lemma preserves_on_storage {A} (m : M VariableStorage.t A) : preserves (on_storage m).
Proof.
  intros s a s'. unfold on_storage.
  destruct (m (m_variableStorage s)) as [[a' v]|]; [|discriminate].
  intros [= _ <-]. repeat split.
Qed.

Lemma preserves_GetOrCreate kind name : preserves (GetOrCreate kind name).
Proof.
  intros s a s'. unfold GetOrCreate.
  destruct (m_RuntimeData s kind !! name); intros [= _ <-]; repeat split.
Qed.

Lemma preserves_GetRuntimeVariable index : preserves (GetRuntimeVariable index).
Proof. intros s a s'. unfold GetRuntimeVariable. apply preserves_defined. Qed.

Lemma preserves_read_component T p i : preserves (read_component T p i).
Proof.
  intros s a s' Hr. apply read_component_state in Hr. subst. apply keeps_configuration_refl.
Qed.

Ltac preserves_step :=
  first
    [ apply preserves_ret
    | apply preserves_get
    | apply preserves_defined
    | apply preserves_on_storage
    | apply preserves_GetOrCreate
    | apply preserves_GetRuntimeVariable
    | apply preserves_read_component
    | assumption
    | apply preserves_bind; [|intros]
    | match goal with
      | |- preserves (if ?b then _ else _) => destruct b
      | |- preserves (match ?x with _ => _ end) => destruct x
      | |- preserves (let '(_, _) := ?x in _) => destruct x
      end ].

Ltac preserves_auto := repeat preserves_step.

Lemma preserves_write_component T p i bs : preserves (write_component T p i bs).
Proof. unfold write_component. preserves_auto. Qed.

Lemma preserves_DoOp_loop T A B dest op n : forall i, preserves (DoOp_loop T A B dest op i n).
Proof.
  induction n as [|n IH]; intros i; cbn [DoOp_loop]; [apply preserves_ret|].
  apply preserves_bind; [apply preserves_read_component|intros a].
  apply preserves_bind; [apply preserves_read_component|intros b].
  apply preserves_bind; [apply preserves_read_component|intros d].
  apply preserves_bind; [apply preserves_defined|intros r].
  apply preserves_bind; [apply preserves_write_component|intros _].
  apply IH.
Qed.

Lemma preserves_resolve_operand T XNode XVar XLiteral XBytes n cbc :
  preserves (resolve_operand T XNode XVar XLiteral XBytes n cbc).
Proof. unfold resolve_operand. preserves_auto. Qed.

Lemma preserves_DoSetVarOperation T setVar A B dest n cbc :
  preserves (DoSetVarOperation T setVar A B dest n cbc).
Proof.
  unfold DoSetVarOperation.
  repeat first [ apply preserves_resolve_operand | apply preserves_DoOp_loop | preserves_step ].
Qed.

Lemma preserves_operand_bytes XVar typeBytes : preserves (operand_bytes XVar typeBytes).
Proof. unfold operand_bytes. preserves_auto. Qed.

Lemma preserves_ExecuteSetvar setVar : preserves (ExecuteSetvar setVar).
Proof.
  unfold ExecuteSetvar.
  repeat first [ apply preserves_operand_bytes | apply preserves_DoSetVarOperation
               | preserves_step ].
Qed.

Lemma preserves_EvaluateCondition condition : preserves (EvaluateCondition condition).
Proof.
  intros s b s' He. apply EvaluateCondition_state in He. subst.
  apply keeps_configuration_refl.
Qed.

Lemma preserves_ExecuteSetVars_loop beforeExecution setVars :
  preserves (ExecuteSetVars_loop beforeExecution setVars).
Proof.
  induction setVars as [|setVar rest IH]; cbn [ExecuteSetVars_loop]; [apply preserves_ret|].
  apply preserves_bind; [|intros _; exact IH].
  destruct (_ || _); [apply preserves_ret|].
  apply preserves_bind; [apply preserves_EvaluateCondition|intros ok].
  destruct (negb ok); [apply preserves_ret | apply preserves_ExecuteSetvar].
Qed.

Lemma preserves_ExecuteSetVars beforeExecution : preserves (ExecuteSetVars beforeExecution).
Proof.
  unfold ExecuteSetVars. apply preserves_bind; [apply preserves_get|intros s].
  apply preserves_ExecuteSetVars_loop.
Qed.

Lemma preserves_NodeAction_call node action : preserves (NodeAction_call node action).
Proof.
  intros s ok s'.
  unfold NodeAction_call, GetOrCreate, mbind, M_bind, get, modify, mret, M_ret.
  destruct (m_RuntimeData s (RenderGraphNode._index node) !! RenderGraphNode.name node) as [rd|];
    cbn.
  - destruct (OnNodeAction node rd action (host s)) as [[ok' rd'] h].
    intros Hq; inversion Hq; subst. repeat split.
  - destruct (OnNodeAction node (rt_default (RenderGraphNode._index node)) action (host s))
      as [[ok' rd'] h].
    intros Hq; inversion Hq; subst. repeat split.
Qed.

Lemma preserves_Execute_loop indices : preserves (Execute_loop indices).
Proof.
  induction indices as [|i indices IH]; cbn [Execute_loop]; [apply preserves_ret|].
  apply preserves_bind; [apply preserves_get|intros s].
  apply preserves_bind; [apply preserves_defined|intros node].
  apply preserves_bind; [apply preserves_NodeAction_call|intros ok].
  destruct (negb ok); [apply preserves_ret | exact IH].
Qed.

(** X25. [Execute] leaves what [Compile] set up: the compile result,
    the graph, the temporary directory and the table of runtime variables
    are the same after it, whether it returns true or false, and the
    interpreter itself logs nothing. A failed Execute leaves the
    interpreter compiled. *)
Theorem Execute_keeps_configuration :
  forall (s : State) (ok : bool) (s' : State),
    Execute s = Some (ok, s') ->
    m_compileResult s' = m_compileResult s
    /\ m_renderGraph s' = m_renderGraph s
    /\ m_tempDirectory s' = m_tempDirectory s
    /\ m_runtimeVariables s' = m_runtimeVariables s
    /\ logged s' = logged s.
Proof.
  assert (Hp : preserves Execute).
  { unfold Execute. apply preserves_bind; [apply preserves_get|intros s].
    destruct (negb _); [apply preserves_ret|].
    apply preserves_bind; [apply preserves_ExecuteSetVars|intros _].
    apply preserves_bind; [apply preserves_get|intros s1].
    apply preserves_bind; [apply preserves_Execute_loop|intros ok].
    destruct (negb ok); [apply preserves_ret|].
    apply preserves_bind; [apply preserves_ExecuteSetVars|intros _].
    apply preserves_ret. }
  intros s ok s' He. exact (Hp s ok s' He).
Qed.

End ConfigurationProperties.

(** ** Enum conditions *)

Section EnumConditions.
Context `{FL : FloatLib} `{TIO : TextIO} `{SC : Schema} `{RT : RuntimeTypes} `{H : !Host}.

Lemma EnumLabelToValue_loop_in_range literalValue its : forall i,
  in_range I32 (EnumLabelToValue_loop literalValue its i).
Proof.
  induction its as [|it rest IH]; intros i; cbn [EnumLabelToValue_loop].
  - unfold in_range, int_min, int_max. lia.
  - destruct (_ =? 0); [apply wrap_in_range | apply IH].
Qed.

Lemma decode_int_le_encode z : in_range I32 z -> decode_int I32 (le_encode 4 z) = z.
Proof.
  intros Hz. unfold decode_int. rewrite le_decode_encode.
  change (2 ^ (8 * Z.of_nat 4)) with (2 ^ 32).
  unfold in_range, int_min, int_max, wrap in *.
  rewrite Zplus_mod_idemp_l. rewrite Z.mod_small by lia. lia.
Qed.

(** X26. A condition on an enum variable against a literal compares
    the value of the variable with the index of the label, as [int]s. An
    unknown label stands for -1. *)
Theorem EvaluateConditionTyped_Enum_compares_index :
  forall (condition : Condition.t) (ABytes : Ptr) (buf a : list byte) (s : State)
         (var : Variable_.t) (e : Enum),
    at_index (RenderGraph.variables (m_renderGraph s)) (Condition.variable1Index condition)
      = Some var ->
    at_index (RenderGraph.enums (m_renderGraph s)) (Variable_.enumIndex var) = Some e ->
    component (m_variableStorage s) CInt ABytes 0 = Some a ->
    (4 <= length buf)%nat ->
    EvaluateConditionTyped_Enum condition ABytes (PLocal buf 0) 1 s
    = Some (DoComparison_int (decode_int I32 a)
              (EnumLabelToValue e (Condition.value2 condition))
              (Condition.comparison condition), s).
Proof.
  intros condition ABytes buf a s var e Hvar He Ha Hlen.
  unfold EvaluateConditionTyped_Enum, mbind, M_bind, mret, M_ret, get, defined.
  rewrite Hvar, He. unfold splice. rewrite length_le_encode.
  destruct (Nat.leb_spec (0 + 4) (length buf)) as [_|]; [|lia].
  cbn [DoComparison_loop]. unfold mbind, M_bind, mret, M_ret.
  rewrite read_component_component, Ha. cbv beta iota.
  rewrite read_component_component. unfold component. rewrite (ptr_index_local _ 0).
  cbn [VariableStorage.read Nat.mul sizeof]. unfold slice.
  rewrite take_0. cbn [app]. rewrite length_app, length_le_encode.
  destruct (Nat.leb_spec (0 + 4) (4 + length (drop (0 + 4) buf))) as [_|]; [|lia].
  rewrite drop_0.
  replace (take 4 (le_encode 4 (EnumLabelToValue e (Condition.value2 condition))
                   ++ drop (0 + 4) buf))
    with (le_encode 4 (EnumLabelToValue e (Condition.value2 condition))).
  2:{ symmetry. rewrite take_app_length'; [reflexivity | symmetry; apply length_le_encode]. }
  cbn [DoComparison_bytes].
  rewrite decode_int_le_encode by apply EnumLabelToValue_loop_in_range.
  reflexivity.
Qed.

End EnumConditions.

(** ** More on conditions *)

Section MoreConditions.
Context `{FL : FloatLib} `{TIO : TextIO} `{SC : Schema} `{RT : RuntimeTypes} `{H : !Host}.

(** X27. A condition that [IsConditional] calls unconditional always
    evaluates to true, and one that is always false is conditional and
    evaluates to false; in both cases nothing changes. *)
Theorem IsConditional_EvaluateCondition :
  forall (condition : Condition.t) (s : State),
    (IsConditional condition = false -> EvaluateCondition condition s = Some (true, s))
    /\ (Condition.alwaysFalse condition = true ->
        IsConditional condition = true /\ EvaluateCondition condition s = Some (false, s)).
Proof.
  intros condition s. unfold IsConditional, EvaluateCondition. split.
  - intros Hc. apply orb_false_iff in Hc. destruct Hc as [Hcmp ->].
    apply negb_false_iff in Hcmp. rewrite Hcmp, orb_true_r. reflexivity.
  - intros ->. split; [apply orb_true_r | reflexivity].
Qed.

(** X28. [EvaluateCondition] on two variables returns the conjunction
    of [DoComparison] over the components of the two, at [bool] for a
    variable of type [Bool] and else at the component type of the type of
    the first variable, and changes nothing. An enum variable compared
    with a variable is compared as an [int]. *)
Theorem EvaluateCondition_two_variables :
  forall (condition : Condition.t) (s : State) (var : Variable_.t)
         (rv1 rv2 : RuntimeVariable) (T : CompType) (a b : nat -> list byte),
    let typeInfo := DataFieldTypeInfo (Variable_.type var) in
    let n := DataFieldTypeInfoStruct.componentCount typeInfo in
    Condition.alwaysFalse condition = false ->
    Condition.variable1Index condition <> -1 ->
    Condition.variable2Index condition <> -1 ->
    Condition.comparison condition <> ConditionComparison.Count ->
    at_index (RenderGraph.variables (m_renderGraph s)) (Condition.variable1Index condition)
      = Some var ->
    condition_type_of (Variable_.type var) (DataFieldTypeInfoStruct.componentType typeInfo)
      = Some T ->
    at_index (m_runtimeVariables s) (Condition.variable1Index condition) = Some rv1 ->
    at_index (m_runtimeVariables s) (Condition.variable2Index condition) = Some rv2 ->
    (forall k, (k < n)%nat ->
       component (m_variableStorage s) T (Storage.value (storage rv1)) k = Some (a k)
       /\ component (m_variableStorage s) T (Storage.value (storage rv2)) k = Some (b k)) ->
    EvaluateCondition condition s
    = Some (forallb (fun k => DoComparison_bytes T (a k) (b k) (Condition.comparison condition))
              (seq 0 n), s).
Proof.
  intros condition s var rv1 rv2 T a b typeInfo n Haf Hv1 Hv2 Hcmp Hvar HT Hrv1 Hrv2 Hk.
  assert (Hrun : EvaluateConditionTyped T condition (Storage.value (storage rv1))
                   (Storage.value (storage rv2)) n s
                 = Some (forallb (fun k => DoComparison_bytes T (a k) (b k)
                                             (Condition.comparison condition)) (seq 0 n), s)).
  { unfold EvaluateConditionTyped, mbind, M_bind, mret, M_ret.
    destruct (Z.eqb_spec (Condition.variable2Index condition) (-1)) as [|_]; [contradiction|].
    rewrite (DoComparison_loop_all T _ _ _ a b s) by (intros k Hr; apply Hk; lia).
    reflexivity. }
  unfold EvaluateCondition. rewrite Haf.
  destruct (Z.eqb_spec (Condition.variable1Index condition) (-1)) as [|_]; [contradiction|].
  rewrite bool_decide_eq_false_2 by exact Hcmp. cbn [orb].
  unfold mbind, M_bind, mret, M_ret, get, GetRuntimeVariable, defined.
  rewrite Hvar, Hrv1.
  destruct (Z.eqb_spec (Condition.variable2Index condition) (-1)) as [|_]; [contradiction|].
  cbn [negb]. rewrite Hrv2. fold typeInfo. fold n.
  unfold condition_type_of in HT. fold typeInfo in HT.
  destruct (bool_decide (Variable_.type var = DataFieldType.Bool)).
  - injection HT as <-. exact Hrun.
  - rewrite andb_false_r.
    destruct (DataFieldTypeInfoStruct.componentType typeInfo); try discriminate HT;
      injection HT as <-; exact Hrun.
Qed.

End MoreConditions.

(** ** Selected components *)

Section SelectedComponent.
Context `{FL : FloatLib} `{TIO : TextIO} `{SC : Schema} `{RT : RuntimeTypes} `{H : !Host}.

Lemma component_shift m T p bp off :
  pointee m p = Some bp -> component m T (shift p off) 0 = slice bp off (sizeof T).
Proof.
  intros Hp.
  destruct p as [|k [|o]|buf [|o]]; try discriminate; cbn [shift pointee] in *.
  - unfold component, ptr_index. change (Z.of_nat 0 <? 0) with false. cbv iota.
    change (Z.to_nat (Z.of_nat 0) * sizeof T)%nat with 0%nat.
    rewrite Nat.add_0_r. cbn [VariableStorage.read]. rewrite Hp. reflexivity.
  - unfold component, ptr_index. change (Z.of_nat 0 <? 0) with false. cbv iota.
    change (Z.to_nat (Z.of_nat 0) * sizeof T)%nat with 0%nat.
    rewrite Nat.add_0_r. cbn [VariableStorage.read]. inversion Hp; subst. reflexivity.
Qed.

(** The pointer after the statement's component index is applied. *)
Lemma select_component m p bp index w :
  pointee m p = Some bp -> -1 <= index ->
  (if negb (index =? -1) then ptr_index p index w else Some p)
  = Some (shift p (selected index * w)).
Proof.
  intros Hp Hi. unfold selected, ptr_index.
  destruct (Z.eqb_spec index (-1)) as [->|Hne]; cbn [negb].
  - destruct p as [|k [|o]|buf [|o]]; try discriminate; reflexivity.
  - destruct (Z.ltb_spec index 0) as [|_]; [lia|].
    destruct p as [|k [|o]|buf [|o]]; try discriminate; reflexivity.
Qed.

Lemma DoOp_loop_one T A B kd off op s bd a b d r :
  component (m_variableStorage s) T A 0 = Some a ->
  component (m_variableStorage s) T B 0 = Some b ->
  m_variableStorage s !! kd = Some bd ->
  slice bd off (sizeof T) = Some d ->
  DoOp_bytes T a b d op = Some r ->
  DoOp_loop T A B (PStorage kd off) op 0 1 s
  = Some (tt, set_variableStorage
                (<[kd := take off bd ++ r ++ drop (off + sizeof T) bd]> (m_variableStorage s))
                s).
Proof.
  intros Ha Hb Hkd Hd Hr. cbn [DoOp_loop]. unfold mbind, M_bind, mret, M_ret.
  rewrite read_component_component, Ha. cbv beta iota.
  rewrite read_component_component, Hb. cbv beta iota.
  rewrite read_component_component.
  assert (Hdc : component (m_variableStorage s) T (PStorage kd off) 0 = Some d).
  { unfold component, ptr_index. change (Z.of_nat 0 <? 0) with false. cbv iota.
    change (Z.to_nat (Z.of_nat 0) * sizeof T)%nat with 0%nat.
    rewrite Nat.add_0_r. cbn [VariableStorage.read]. rewrite Hkd. exact Hd. }
  rewrite Hdc. cbv beta iota. unfold defined at 1. rewrite Hr.
  unfold write_component, mbind, M_bind, defined, ptr_index.
  change (Z.of_nat 0 <? 0) with false. cbv iota.
  change (Z.to_nat (Z.of_nat 0) * sizeof T)%nat with 0%nat. rewrite Nat.add_0_r.
  unfold on_storage, VariableStorage.write. rewrite Hkd.
  pose proof (slice_Some _ _ _ _ Hd) as [Hle _].
  pose proof (DoOp_bytes_length _ _ _ _ _ _ Hr) as Hlr.
  unfold splice. rewrite Hlr.
  destruct (Nat.leb_spec (off + sizeof T) (length bd)) as [_|]; [|lia].
  reflexivity.
Qed.

Lemma bind_Some {A B} (m : M State A) (f : A -> M State B) s a s' :
  m s = Some (a, s') -> (m ≫= f) s = f a s'.
Proof. unfold mbind, M_bind. intros ->. reflexivity. Qed.

(** One of the three steps of [DoSetVarOperation] that limit the
    operation to a selected component. *)
Lemma select_step (p p' : Ptr) index w (count : nat) s :
  (if negb (index =? -1) then ptr_index p index w else Some p) = Some p' ->
  (if negb (index =? -1)
   then q ← defined (ptr_index p index w); mret (1%nat, q)
   else (mret (count, p) : M State (nat * Ptr))) s
  = Some ((if index =? -1 then count else 1%nat, p'), s).
Proof.
  destruct (index =? -1); cbn [negb].
  - intros [= <-]. reflexivity.
  - intros Hq. unfold mbind, M_bind, defined, mret, M_ret. rewrite Hq. reflexivity.
Qed.

(** X29. When a SetVariable statement selects a component, of its
    destination or of an operand, exactly one component is computed: the
    selected component of the destination, the first one when none is
    selected, becomes [DoOp] of the selected components of the operands,
    again the first ones by default. The other components of the
    destination stay. *)
Theorem ExecuteSetvar_selected_component :
  forall (setVar : SetVariable.t) (s : State) (vd : Variable_.t) (rvd : RuntimeVariable)
         (T : CompType) (kd : Key) (bd ba bb a b d r : list byte),
    let id := VariableReference.variableIndex (SetVariable.destination setVar) in
    let typeInfo := DataFieldTypeInfo (Variable_.type vd) in
    let n := DataFieldTypeInfoStruct.componentCount typeInfo in
    let typeBytes := DataFieldTypeInfoStruct.typeBytes typeInfo in
    let off := (selected (SetVariable.destinationIndex setVar) * sizeof T)%nat in
    writes_in_place TIO ->
    at_index (RenderGraph.variables (m_renderGraph s)) id = Some vd ->
    component_type_of (DataFieldTypeInfoStruct.componentType2 typeInfo) = Some T ->
    at_index (m_runtimeVariables s) id = Some rvd ->
    Storage.value (storage rvd) = PStorage kd 0 ->
    m_variableStorage s !! kd = Some bd ->
    NodeReference.textureNode (SetVariable.ANode setVar) = None ->
    NodeReference.bufferNode (SetVariable.ANode setVar) = None ->
    NodeReference.textureNode (SetVariable.BNode setVar) = None ->
    NodeReference.bufferNode (SetVariable.BNode setVar) = None ->
    -1 <= SetVariable.destinationIndex setVar ->
    -1 <= SetVariable.AVarIndex setVar ->
    -1 <= SetVariable.BVarIndex setVar ->
    (SetVariable.destinationIndex setVar <> -1 \/ SetVariable.AVarIndex setVar <> -1
     \/ SetVariable.BVarIndex setVar <> -1) ->
    operand_holds T n typeBytes s (SetVariable.AVar setVar) (SetVariable.ALiteral setVar) ba ->
    operand_holds T n typeBytes s (SetVariable.BVar setVar) (SetVariable.BLiteral setVar) bb ->
    slice ba (selected (SetVariable.AVarIndex setVar) * sizeof T) (sizeof T) = Some a ->
    slice bb (selected (SetVariable.BVarIndex setVar) * sizeof T) (sizeof T) = Some b ->
    slice bd off (sizeof T) = Some d ->
    DoOp_bytes T a b d (SetVariable.op setVar) = Some r ->
    ExecuteSetvar setVar s
    = Some (tt, set_variableStorage
                  (<[kd := take off bd ++ r ++ drop (off + sizeof T) bd]> (m_variableStorage s))
                  s).
Proof.
  intros setVar s vd rvd T kd bd ba bb a b d r id typeInfo n typeBytes off
    Hlen Hvd HT Hrvd Hval Hkd HAt HAb HBt HBb Hdi Hai Hbi Hsel HA HB Ha Hb Hd Hr.
  assert (Hrun : forall cbc,
            (ABytes ← operand_bytes (SetVariable.AVar setVar) typeBytes;
             BBytes ← operand_bytes (SetVariable.BVar setVar) typeBytes;
             DoSetVarOperation T setVar ABytes BBytes (PStorage kd 0) n cbc) s
            = Some (tt, set_variableStorage
                          (<[kd := take off bd ++ r ++ drop (off + sizeof T) bd]>
                             (m_variableStorage s)) s)).
  { intros cbc.
    destruct (operand_resolved Hlen T n typeBytes cbc s _ _ ba HA)
      as (A & ABytes & HAbytes & HAres & HAp).
    destruct (operand_resolved Hlen T n typeBytes cbc s _ _ bb HB)
      as (B & BBytes & HBbytes & HBres & HBp).
    rewrite (bind_Some _ _ _ _ _ HAbytes), (bind_Some _ _ _ _ _ HBbytes).
    unfold DoSetVarOperation.
    destruct (SetVariable.ANode setVar) as [At Ab]. cbn in HAt, HAb. subst At Ab.
    destruct (SetVariable.BNode setVar) as [Bt Bb]. cbn in HBt, HBb. subst Bt Bb.
    rewrite (bind_Some _ _ _ _ _ HAres), (bind_Some _ _ _ _ _ HBres).
    pose proof (select_component (m_variableStorage s) (PStorage kd 0) bd
                  (SetVariable.destinationIndex setVar) (sizeof T) Hkd Hdi) as Sd.
    pose proof (select_component (m_variableStorage s) A ba
                  (SetVariable.AVarIndex setVar) (sizeof T) HAp Hai) as Sa.
    pose proof (select_component (m_variableStorage s) B bb
                  (SetVariable.BVarIndex setVar) (sizeof T) HBp Hbi) as Sb.
    pose proof (component_shift (m_variableStorage s) T A ba
                  (selected (SetVariable.AVarIndex setVar) * sizeof T) HAp) as Ca.
    pose proof (component_shift (m_variableStorage s) T B bb
                  (selected (SetVariable.BVarIndex setVar) * sizeof T) HBp) as Cb.
    rewrite Ha in Ca. rewrite Hb in Cb.
    pose proof (DoOp_loop_one T _ _ kd off (SetVariable.op setVar) s bd a b d r
                  Ca Cb Hkd Hd Hr) as Hloop.
    cbn [shift] in Sd. fold off in Sd.
    rewrite (bind_Some _ _ _ _ _ (select_step _ _ _ _ n s Sd)). cbv beta iota.
    rewrite (bind_Some _ _ _ _ _ (select_step _ _ _ _ _ s Sa)). cbv beta iota.
    rewrite (bind_Some _ _ _ _ _ (select_step _ _ _ _ _ s Sb)). cbv beta iota.
    replace (if SetVariable.BVarIndex setVar =? -1
             then if SetVariable.AVarIndex setVar =? -1
                  then if SetVariable.destinationIndex setVar =? -1 then n else 1%nat
                  else 1%nat
             else 1%nat) with 1%nat; [exact Hloop|].
    destruct (Z.eqb_spec (SetVariable.BVarIndex setVar) (-1)); [|reflexivity].
    destruct (Z.eqb_spec (SetVariable.AVarIndex setVar) (-1)); [|reflexivity].
    destruct (Z.eqb_spec (SetVariable.destinationIndex setVar) (-1)); [|reflexivity].
    exfalso. destruct Hsel as [?|[?|?]]; contradiction. }
  unfold ExecuteSetvar, mbind, M_bind, get, GetRuntimeVariable, defined.
  fold id. rewrite Hvd, Hrvd, Hval. fold typeInfo. fold typeBytes. fold n.
  unfold mbind, M_bind in Hrun.
  destruct (DataFieldTypeInfoStruct.componentType2 typeInfo); try discriminate HT;
    injection HT as <-; apply Hrun.
Qed.

End SelectedComponent.

(** ** The operands of SetVariable statements *)

Section OperandResolution.
Context `{FL : FloatLib} `{TIO : TextIO} `{SC : Schema} `{RT : RuntimeTypes} `{H : !Host}.














End OperandResolution.



(** ** The sizes of the storage *)

Section SizesProperties.
Context `{FL : FloatLib} `{TIO : TextIO} `{SC : Schema} `{RT : RuntimeTypes} `{H : !Host}.

Lemma well_sized_empty : well_sized ∅.
Proof. intros k bytes Hk. rewrite lookup_empty in Hk. discriminate. Qed.

Lemma well_sized_insert m k bytes T n :
  well_sized m -> CallFor k.2 = Some (T, n) -> length bytes = (2 * (n * sizeof T))%nat ->
  well_sized (<[k := bytes]> m).
Proof.
  intros Hm HT Hl k' bytes' Hk'. destruct (decide (k' = k)) as [->|Hne].
  - rewrite lookup_insert_eq in Hk'. inversion Hk'; subst. eauto.
  - rewrite lookup_insert_ne in Hk' by congruence. eauto.
Qed.

Lemma well_sized_update m k old new :
  well_sized m -> m !! k = Some old -> length new = length old ->
  well_sized (<[k := new]> m).
Proof.
  intros Hm Hold Hl. destruct (Hm k old Hold) as (T & n & HT & Hlen).
  apply (well_sized_insert m k new T n); [assumption | assumption | lia].
Qed.

Lemma length_splice (buf : list byte) off bs buf' :
  splice buf off bs = Some buf' -> length buf' = length buf.
Proof.
  unfold splice. destruct (Nat.leb_spec (off + length bs) (length buf)); [|discriminate].
  intros [= <-]. rewrite !length_app, length_take, length_drop. lia.
Qed.

Lemma keeps_sizes_write p bs : keeps_sizes (VariableStorage.write p bs).
Proof.
  intros m a m'. unfold VariableStorage.write.
  destruct p as [|k off|]; try discriminate.
  destruct (m !! k) as [v|] eqn:Ek; [|discriminate].
  destruct (splice v off bs) as [v'|] eqn:Es; [|discriminate].
  intros [= _ <-] Hm. apply (well_sized_update m k v v' Hm Ek).
  apply (length_splice _ _ _ _ Es).
Qed.

Lemma keeps_sizes_SetFromString_at T text n p :
  keeps_sizes (VariableStorage.SetFromString_at T text n p).
Proof.
  intros m a m'. unfold VariableStorage.SetFromString_at.
  destruct p as [|k off|buf off]; try discriminate.
  - destruct (VariableStorage.read m _ _) as [old|]; [|discriminate].
    destruct (VariableStorage.write _ _ m) as [[[] m1]|] eqn:Ew; [|discriminate].
    intros [= _ <-] Hm. exact (keeps_sizes_write _ _ _ _ _ Ew Hm).
  - destruct (slice buf off _) as [old|]; [|discriminate].
    destruct (splice buf off _) as [buf'|]; [|discriminate].
    intros [= _ <-] Hm. exact Hm.
Qed.

Lemma keeps_sizes_Get_typed (v : Variable_.t) T n :
  CallFor (Variable_.type v) = Some (T, n) -> keeps_sizes (VariableStorage.Get_typed v n T).
Proof.
  intros HT m a m'. unfold VariableStorage.Get_typed. cbv zeta.
  set (key := (Variable_.name v, Variable_.type v)).
  intros Hrun Hm.
  assert (Hins : well_sized
            (<[key := if bool_decide (m !! key = None)
                      then replicate (sizeof T * n * 2) x00
                      else default [] (m !! key)]> m)).
  { destruct (m !! key) as [old|] eqn:Ek.
    - rewrite bool_decide_eq_false_2 by discriminate. cbn [default from_option]. unfold id.
      apply (well_sized_update m key old old Hm Ek eq_refl).
    - rewrite bool_decide_eq_true_2 by reflexivity.
      apply (well_sized_insert m key _ T n Hm HT). rewrite length_replicate. lia. }
  destruct (VariableStorage.SetFromString_at T (Variable_.dflt v) n _ _) as [[p m1]|] eqn:Es;
    [|discriminate].
  pose proof (keeps_sizes_SetFromString_at _ _ _ _ _ _ _ Es Hins) as Hm1.
  destruct (bool_decide (m !! key = None)).
  - destruct (VariableStorage.read m1 _ _) as [d|]; [|discriminate].
    destruct (VariableStorage.write _ d m1) as [[[] m2]|] eqn:Ew; [|discriminate].
    inversion Hrun; subst. exact (keeps_sizes_write _ _ _ _ _ Ew Hm1).
  - inversion Hrun; subst. exact Hm1.
Qed.

Lemma keeps_sizes_CallForVariable {A} (v : Variable_.t) (lambda : nat -> CompType -> Ptr -> M VariableStorage.t A) :
  (forall n T p, CallFor (Variable_.type v) = Some (T, n) -> keeps_sizes (lambda n T p)) ->
  keeps_sizes (VariableStorage.CallForVariable v lambda).
Proof.
  intros Hl m a m'. unfold VariableStorage.CallForVariable.
  destruct (CallFor (Variable_.type v)) as [[T n]|] eqn:HT.
  - unfold mbind, M_bind, mret, M_ret.
    destruct (VariableStorage.Get_typed v n T m) as [[st m1]|] eqn:Eg; [|discriminate].
    destruct (lambda n T (Storage.value st) m1) as [[x m2]|] eqn:El; [|discriminate].
    intros [= _ <-] Hm.
    apply (Hl n T _ eq_refl _ _ _ El). apply (keeps_sizes_Get_typed v T n HT _ _ _ Eg Hm).
  - intros [= _ <-] Hm. exact Hm.
Qed.

Lemma keeps_sizes_SetValueFromString (v : Variable_.t) text :
  keeps_sizes (VariableStorage.SetValueFromString v text).
Proof.
  intros m a m'. unfold VariableStorage.SetValueFromString, mbind, M_bind, mret, M_ret.
  destruct (VariableStorage.CallForVariable v _ m) as [[x m1]|] eqn:E; [|discriminate].
  intros [= _ <-]. apply (keeps_sizes_CallForVariable v _) in E; [exact E|].
  intros n T p _ m0 a0 m0'. unfold mbind, M_bind, mret, M_ret.
  destruct (VariableStorage.SetFromString_at T text n p m0) as [[q m2]|] eqn:Es; [|discriminate].
  intros [= _ <-]. exact (keeps_sizes_SetFromString_at _ _ _ _ _ _ _ Es).
Qed.

Lemma keeps_sizes_GetValueAsString (v : Variable_.t) : keeps_sizes (VariableStorage.GetValueAsString v).
Proof.
  intros m a m'. unfold VariableStorage.GetValueAsString, mbind, M_bind, mret, M_ret.
  destruct (VariableStorage.CallForVariable v _ m) as [[x m1]|] eqn:E; [|discriminate].
  intros [= _ <-]. apply (keeps_sizes_CallForVariable v _) in E; [exact E|].
  intros n T p _ m0 a0 m0'.
  destruct (VariableStorage.read m0 p _); [|discriminate].
  intros [= _ <-]. auto.
Qed.

Lemma keeps_sizes_Get (v : Variable_.t) : keeps_sizes (VariableStorage.Get v).
Proof.
  intros m a m'. unfold VariableStorage.Get, mbind, M_bind, mret, M_ret.
  destruct (VariableStorage.CallForVariable v _ m) as [[x m1]|] eqn:E; [|discriminate].
  intros [= _ <-]. apply (keeps_sizes_CallForVariable v _) in E; [exact E|].
  intros n T p HT. apply keeps_sizes_Get_typed. exact HT.
Qed.

Lemma kss_ret {A} (a : A) : keeps_storage_sizes (mret a).
Proof. intros s a' s' [= _ <-]. auto. Qed.

Lemma kss_bind {A B} (m : M State A) (f : A -> M State B) :
  keeps_storage_sizes m -> (forall a, keeps_storage_sizes (f a)) ->
  keeps_storage_sizes (m ≫= f).
Proof.
  intros Hm Hf s b s'. unfold mbind, M_bind.
  destruct (m s) as [[a s1]|] eqn:E; [|discriminate].
  intros Hb Hs. eapply Hf; [exact Hb|]. eapply Hm; [exact E | exact Hs].
Qed.

(** A computation that leaves the storage alone keeps its sizes. *)
Lemma kss_same_storage {A} (m : M State A) :
  (forall s a s', m s = Some (a, s') -> m_variableStorage s' = m_variableStorage s) ->
  keeps_storage_sizes m.
Proof. intros Hm s a s' E Hs. rewrite (Hm _ _ _ E). exact Hs. Qed.

Lemma kss_get : keeps_storage_sizes (@get State).
Proof. apply kss_same_storage. intros s a s' [= _ <-]. reflexivity. Qed.

Lemma kss_defined {A} (o : option A) : keeps_storage_sizes (defined o).
Proof.
  apply kss_same_storage. intros s a s'. unfold defined.
  destruct o; [|discriminate]. intros [= _ <-]. reflexivity.
Qed.

Lemma kss_on_storage {A} (m : M VariableStorage.t A) :
  keeps_sizes m -> keeps_storage_sizes (on_storage m).
Proof.
  intros Hm s a s'. unfold on_storage.
  destruct (m (m_variableStorage s)) as [[a' v]|] eqn:E; [|discriminate].
  intros [= _ <-] Hs. cbn. exact (Hm _ _ _ E Hs).
Qed.

Lemma kss_GetOrCreate kind name : keeps_storage_sizes (GetOrCreate kind name).
Proof.
  apply kss_same_storage. intros s a s'. unfold GetOrCreate.
  destruct (m_RuntimeData s kind !! name); intros [= _ <-]; reflexivity.
Qed.

Lemma kss_GetRuntimeVariable index : keeps_storage_sizes (GetRuntimeVariable index).
Proof. unfold GetRuntimeVariable. intros s. apply kss_defined. Qed.

Lemma kss_read_component T p i : keeps_storage_sizes (read_component T p i).
Proof.
  apply kss_same_storage. intros s a s' E. apply read_component_state in E. now subst.
Qed.

Lemma kss_write_component T p i bs : keeps_storage_sizes (write_component T p i bs).
Proof.
  unfold write_component. apply kss_bind; [apply kss_defined|intros q].
  apply kss_on_storage, keeps_sizes_write.
Qed.

Lemma kss_DoOp_loop T A B dest op n : forall i, keeps_storage_sizes (DoOp_loop T A B dest op i n).
Proof.
  induction n as [|n IH]; intros i; cbn [DoOp_loop]; [apply kss_ret|].
  apply kss_bind; [apply kss_read_component|intros a].
  apply kss_bind; [apply kss_read_component|intros b].
  apply kss_bind; [apply kss_read_component|intros d].
  apply kss_bind; [apply kss_defined|intros r].
  apply kss_bind; [apply kss_write_component|intros _].
  apply IH.
Qed.

Lemma kss_SetFromString_at T text n p :
  keeps_storage_sizes (on_storage (VariableStorage.SetFromString_at T text n p)).
Proof. apply kss_on_storage, keeps_sizes_SetFromString_at. Qed.

Lemma kss_resolve_operand T XNode XVar XLiteral XBytes n cbc :
  keeps_storage_sizes (resolve_operand T XNode XVar XLiteral XBytes n cbc).
Proof.
  unfold resolve_operand.
  destruct (NodeReference.textureNode XNode).
  - apply kss_bind; [apply kss_GetOrCreate|intros rd].
    destruct (m_size rd) as [[s0 s1] s2]. apply kss_SetFromString_at.
  - destruct (NodeReference.bufferNode XNode).
    + apply kss_bind; [apply kss_GetOrCreate|intros rd]. apply kss_SetFromString_at.
    + destruct (_ =? _); [apply kss_SetFromString_at | apply kss_ret].
Qed.

Lemma kss_select (p : Ptr) index w (count : nat) :
  keeps_storage_sizes
    (if negb (index =? -1)
     then q ← defined (ptr_index p index w); mret (1%nat, q)
     else (mret (count, p) : M State (nat * Ptr))).
Proof.
  destruct (negb _); [|apply kss_ret].
  apply kss_bind; [apply kss_defined|intros q]. apply kss_ret.
Qed.

Lemma kss_DoSetVarOperation T setVar A B dest n cbc :
  keeps_storage_sizes (DoSetVarOperation T setVar A B dest n cbc).
Proof.
  unfold DoSetVarOperation.
  apply kss_bind; [apply kss_resolve_operand|intros A'].
  apply kss_bind; [apply kss_resolve_operand|intros B'].
  apply kss_bind; [apply kss_select|intros [c1 d1]].
  apply kss_bind; [apply kss_select|intros [c2 a2]].
  apply kss_bind; [apply kss_select|intros [c3 b3]].
  apply kss_DoOp_loop.
Qed.

Lemma kss_operand_bytes XVar typeBytes : keeps_storage_sizes (operand_bytes XVar typeBytes).
Proof.
  unfold operand_bytes. apply kss_bind.
  - destruct (negb _); [|apply kss_ret].
    apply kss_bind; [apply kss_GetRuntimeVariable|intros rv]. apply kss_ret.
  - intros X. destruct (ptr_is_null X); apply kss_ret.
Qed.

Lemma kss_ExecuteSetvar setVar : keeps_storage_sizes (ExecuteSetvar setVar).
Proof.
  unfold ExecuteSetvar.
  apply kss_bind; [apply kss_get|intros s].
  apply kss_bind; [apply kss_defined|intros var].
  apply kss_bind; [apply kss_GetRuntimeVariable|intros rv].
  apply kss_bind; [apply kss_operand_bytes|intros A].
  apply kss_bind; [apply kss_operand_bytes|intros B].
  destruct (DataFieldTypeInfoStruct.componentType2 _);
    first [apply kss_DoSetVarOperation | apply kss_ret].
Qed.

Lemma kss_EvaluateCondition condition : keeps_storage_sizes (EvaluateCondition condition).
Proof.
  apply kss_same_storage. intros s a s' E. apply EvaluateCondition_state in E. now subst.
Qed.

Lemma kss_ExecuteSetVars_loop beforeExecution setVars :
  keeps_storage_sizes (ExecuteSetVars_loop beforeExecution setVars).
Proof.
  induction setVars as [|setVar rest IH]; cbn [ExecuteSetVars_loop]; [apply kss_ret|].
  apply kss_bind; [|intros _; exact IH].
  destruct (_ || _); [apply kss_ret|].
  apply kss_bind; [apply kss_EvaluateCondition|intros ok].
  destruct (negb ok); [apply kss_ret | apply kss_ExecuteSetvar].
Qed.

Lemma kss_ExecuteSetVars beforeExecution : keeps_storage_sizes (ExecuteSetVars beforeExecution).
Proof.
  unfold ExecuteSetVars. apply kss_bind; [apply kss_get|intros s].
  apply kss_ExecuteSetVars_loop.
Qed.

Lemma kss_NodeAction_call node action : keeps_storage_sizes (NodeAction_call node action).
Proof.
  apply kss_same_storage. intros s a s' E.
  apply (NodeAction_call_variables _ _ _ _ _ E).
Qed.

Lemma kss_Execute_loop indices : keeps_storage_sizes (Execute_loop indices).
Proof.
  induction indices as [|i indices IH]; cbn [Execute_loop]; [apply kss_ret|].
  apply kss_bind; [apply kss_get|intros s].
  apply kss_bind; [apply kss_defined|intros node].
  apply kss_bind; [apply kss_NodeAction_call|intros ok].
  destruct (negb ok); [apply kss_ret | exact IH].
Qed.

Lemma kss_Execute : keeps_storage_sizes Execute.
Proof.
  unfold Execute. apply kss_bind; [apply kss_get|intros s].
  destruct (negb _); [apply kss_ret|].
  apply kss_bind; [apply kss_ExecuteSetVars|intros _].
  apply kss_bind; [apply kss_get|intros s1].
  apply kss_bind; [apply kss_Execute_loop|intros ok].
  destruct (negb ok); [apply kss_ret|].
  apply kss_bind; [apply kss_ExecuteSetVars|intros _].
  apply kss_ret.
Qed.

Lemma kss_CreateVariableStorage_loop variables :
  keeps_storage_sizes (CreateVariableStorage_loop variables).
Proof.
  induction variables as [|v rest IH]; cbn [CreateVariableStorage_loop]; [apply kss_ret|].
  apply kss_bind; [apply kss_on_storage, keeps_sizes_Get|intros st].
  apply kss_bind; [|intros _; exact IH].
  apply kss_same_storage. intros s a s' [= _ <-]. reflexivity.
Qed.

Lemma kss_Compile fileName PostLoad : keeps_storage_sizes (Compile fileName PostLoad).
Proof.
  intros s r s'. rewrite Compile_unfold. cbv zeta.
  destruct (GigiCompile _ _ _ _ _ _) as [[result g] h].
  destruct (negb _).
  - intros [= _ <-] Hs. exact Hs.
  - destruct (CreateVariableStorage g _) as [[[] s1]|] eqn:Ev; [|discriminate].
    intros Hrun Hs.
    assert (Hs1 : well_sized (m_variableStorage s1)).
    { unfold CreateVariableStorage, mbind, M_bind, modify in Ev.
      exact (kss_CreateVariableStorage_loop _ _ _ _ Ev Hs). }
    destruct (Compile_loop _ _) as [[ok s3]|] eqn:El; [|discriminate].
    apply Compile_loop_variables in El. destruct El as [El _]. cbn in El.
    assert (s' = s3) by (destruct ok; inversion Hrun; reflexivity). subst s'.
    rewrite El. exact Hs1.
Qed.

Lemma kss_SetRuntimeVariableFromString index textValue :
  keeps_storage_sizes (SetRuntimeVariableFromString index textValue).
Proof.
  unfold SetRuntimeVariableFromString.
  apply kss_bind; [apply kss_GetRuntimeVariable|intros rv].
  apply kss_bind; [apply kss_get|intros s].
  apply kss_bind.
  - destruct (negb _); [|apply kss_ret].
    apply kss_bind; [apply kss_defined|intros e].
    destruct (_ >=? 0); [|apply kss_ret].
    apply kss_bind; [apply kss_on_storage, keeps_sizes_SetValueFromString|intros _].
    apply kss_ret.
  - intros handled. destruct handled; [apply kss_ret|].
    apply kss_on_storage, keeps_sizes_SetValueFromString.
Qed.

Lemma kss_SetRuntimeVariableToDflt index : keeps_storage_sizes (SetRuntimeVariableToDflt index).
Proof.
  unfold SetRuntimeVariableToDflt.
  apply kss_bind; [apply kss_GetRuntimeVariable|intros rv].
  destruct (_ =? _)%nat; [apply kss_ret|].
  apply kss_bind; [apply kss_get|intros s].
  apply kss_bind; [apply kss_defined|intros d].
  apply kss_on_storage, keeps_sizes_write.
Qed.

Lemma kss_GetRuntimeVariableValueAsString index :
  keeps_storage_sizes (GetRuntimeVariableValueAsString index).
Proof.
  unfold GetRuntimeVariableValueAsString.
  apply kss_bind; [apply kss_GetRuntimeVariable|intros rv].
  apply kss_on_storage, keeps_sizes_GetValueAsString.
Qed.

Lemma well_sized_ready m v : well_sized m -> variable_ready m v.
Proof.
  intros Hm T n HT.
  destruct (m !! (Variable_.name v, Variable_.type v)) as [bytes|] eqn:Ek; [|left; exact Ek].
  right. destruct (Hm _ _ Ek) as (T' & n' & HT' & Hl). cbn [snd] in HT'.
  rewrite HT in HT'. injection HT' as <- <-.
  exists (take (n * sizeof T) bytes), (drop (n * sizeof T) bytes).
  split; [rewrite take_drop; exact Ek|].
  rewrite length_take, length_drop. lia.
Qed.

(** X30. Every vector of the variable storage has twice the size of
    the type of its key, for the value and for the default. That holds of
    the interpreter as constructed and is kept by [Compile], [Execute],
    [Clear], [SetRuntimeVariableFromString], [SetRuntimeVariableToDflt] and
    [GetRuntimeVariableValueAsString] whenever they return. A storage of
    that kind is ready for every variable. *)
Theorem storage_sizes_invariant :
  (forall h, well_sized (m_variableStorage (initial_state h)))
  /\ (forall fileName PostLoad, keeps_storage_sizes (Compile fileName PostLoad))
  /\ keeps_storage_sizes Execute
  /\ keeps_storage_sizes Clear
  /\ (forall index textValue,
        keeps_storage_sizes (SetRuntimeVariableFromString index textValue))
  /\ (forall index, keeps_storage_sizes (SetRuntimeVariableToDflt index))
  /\ (forall index, keeps_storage_sizes (GetRuntimeVariableValueAsString index))
  /\ (forall s v, well_sized (m_variableStorage s) -> variable_ready (m_variableStorage s) v).
Proof.
  split; [intros h; apply well_sized_empty|].
  split; [apply kss_Compile|].
  split; [apply kss_Execute|].
  split; [intros s a s' [= _ <-] _; apply well_sized_empty|].
  split; [apply kss_SetRuntimeVariableFromString|].
  split; [apply kss_SetRuntimeVariableToDflt|].
  split; [apply kss_GetRuntimeVariableValueAsString|].
  intros s v. apply well_sized_ready.
Qed.

End SizesProperties.

(** * Instances of the further properties *)

Lemma DoOp_Modulo_unguarded_witness :
  (2 = 0 -> DoOp_int (FL := Binary32.lib) I32 (-7) 2 0 SetVariableOperator.Modulo = None)
  /\ (I32 = I32 -> -7 = - 2 ^ 31 -> 2 = -1 ->
      DoOp_int (FL := Binary32.lib) I32 (-7) 2 0 SetVariableOperator.Modulo = None)
  /\ (2 <> 0 -> ~ (I32 = I32 /\ -7 = - 2 ^ 31 /\ 2 = -1) ->
      exists r, DoOp_int (FL := Binary32.lib) I32 (-7) 2 0 SetVariableOperator.Modulo = Some r
                /\ -7 = 2 * Z.quot (-7) 2 + r
                /\ Z.abs r < Z.abs 2
                /\ 0 <= r * -7
                /\ in_range I32 r).
Proof.
  apply (DoOp_Modulo_unguarded Binary32.lib I32 (-7) 2 0);
    unfold in_range, int_min, int_max; lia.
Defined.

Lemma DoOp_arithmetic_wraps_witness :
  exists r, DoOp_int (FL := Binary32.lib) U32 0 1 0 SetVariableOperator.Subtract = Some r
            /\ (in_range U32 (0 - 1) -> r = 0 - 1)
            /\ (U32 = U32 -> r = (0 - 1) mod 2 ^ 32)
            /\ (U32 = U16 -> SetVariableOperator.Subtract <> SetVariableOperator.Multiply ->
                r = (0 - 1) mod 2 ^ 16).
Proof.
  apply (DoOp_arithmetic_wraps Binary32.lib U32 0 1 0 SetVariableOperator.Subtract (0 - 1)).
  right. left. reflexivity.
Defined.

Lemma DoOp_bitwise_involutions_witness :
  (exists x, DoOp_int (FL := Binary32.lib) I32 (-1) 5 0 SetVariableOperator.BitwiseXor = Some x
             /\ x = Z.lxor (-1) 5
             /\ DoOp_int (FL := Binary32.lib) I32 x 5 9 SetVariableOperator.BitwiseXor
                = Some (-1))
  /\ (exists x, DoOp_int (FL := Binary32.lib) I32 (-1) 5 0 SetVariableOperator.BitwiseNot = Some x
                /\ x = int_max I32 + int_min I32 - -1
                /\ DoOp_int (FL := Binary32.lib) I32 x 5 9 SetVariableOperator.BitwiseNot
                   = Some (-1)).
Proof.
  apply (DoOp_bitwise_involutions Binary32.lib I32 (-1) 5 0 9);
    unfold in_range, int_min, int_max; lia.
Defined.

Lemma StringBeginsWithCaseInsensitive_prefix_witness :
  StringBeginsWithCaseInsensitive "Mode::Fast" "MODE::" = true
  /\ StringBeginsWithCaseInsensitive "Mode" "MODE::" = false
  /\ StringBeginsWithCaseInsensitive "mODE::fAST" "mode::" = true.
Proof.
  destruct (StringBeginsWithCaseInsensitive_prefix "Mode::Fast" "MODE::")
    as (Hiff & _ & _ & Hcase).
  destruct (StringBeginsWithCaseInsensitive_prefix "Mode" "MODE::") as (_ & _ & Hshort & _).
  assert (Ht : StringBeginsWithCaseInsensitive "Mode::Fast" "MODE::" = true).
  { apply Hiff. exists "Mode::"%string, "Fast"%string. split; reflexivity. }
  split; [exact Ht|]. split; [apply Hshort; cbn; lia|].
  rewrite (Hcase "mODE::fAST"%string "mode::"%string eq_refl eq_refl). exact Ht.
Defined.

Lemma Get_keeps_value_witness :
  let v := Reference.radius in
  exists m' val' dfl',
    VariableStorage.Get (TIO := Reference.text_io) v ∅ = Some (storage_of v CUint32 1, m')
    /\ stored m' v CUint32 1 val' dfl'
    /\ ((∅ : VariableStorage.t) !! (Variable_.name v, Variable_.type v) = None ->
        val' = SetFromString (TextIO := Reference.text_io) CUint32 (Variable_.dflt v) 1
                 (replicate (1 * sizeof CUint32) x00))
    /\ (forall val dfl, stored ∅ v CUint32 1 val dfl -> val' = val)
    /\ (forall k, k <> (Variable_.name v, Variable_.type v) ->
          m' !! k = (∅ : VariableStorage.t) !! k).
Proof.
  intros v.
  apply (Get_keeps_value (TIO := Reference.text_io) ReferenceText.text_io_writes_in_place
           v CUint32 1 ∅).
  - reflexivity.
  - left. apply lookup_empty.
Defined.

Lemma GetValueAsString_reads_witness :
  let v := Reference.radius in
  exists m' val' dfl',
    VariableStorage.GetValueAsString (TIO := Reference.text_io) v ∅
      = Some (GetAsString (TextIO := Reference.text_io) CUint32 1 val', m')
    /\ stored m' v CUint32 1 val' dfl'
    /\ ((∅ : VariableStorage.t) !! (Variable_.name v, Variable_.type v) = None ->
        val' = SetFromString (TextIO := Reference.text_io) CUint32 (Variable_.dflt v) 1
                 (replicate (1 * sizeof CUint32) x00))
    /\ (forall val dfl, stored ∅ v CUint32 1 val dfl -> val' = val)
    /\ (forall k, k <> (Variable_.name v, Variable_.type v) ->
          m' !! k = (∅ : VariableStorage.t) !! k).
Proof.
  intros v.
  apply (GetValueAsString_reads (TIO := Reference.text_io)
           ReferenceText.text_io_writes_in_place v CUint32 1 ∅).
  - reflexivity.
  - left. apply lookup_empty.
Defined.

Lemma SetValueFromString_shared_by_key_witness :
  let v := Reference.radius in
  let v' := {| Variable_.name := "radius"; Variable_.type := DataFieldType.Uint;
               Variable_.dflt := "9"; Variable_.enumIndex := -1 |} in
  let val := le_encode 4 1 in
  let m : VariableStorage.t := {[ (Variable_.name v, Variable_.type v) := val ++ val ]} in
  exists m1 m2,
    VariableStorage.SetValueFromString (TIO := Reference.text_io) v "5" m = Some (tt, m1)
    /\ (forall k, k <> (Variable_.name v, Variable_.type v) -> m1 !! k = m !! k)
    /\ VariableStorage.GetValueAsString (TIO := Reference.text_io) v' m1
       = Some (GetAsString (TextIO := Reference.text_io) CUint32 1
                 (SetFromString (TextIO := Reference.text_io) CUint32 "5" 1 val), m2).
Proof.
  intros v v' val m.
  apply (SetValueFromString_shared_by_key (TIO := Reference.text_io)
           ReferenceText.text_io_writes_in_place v v' CUint32 1 m val val "5").
  - reflexivity.
  - split; [apply lookup_singleton_eq | split; reflexivity].
  - reflexivity.
  - reflexivity.
Defined.

Lemma CallFor_Count_does_nothing_witness :
  let v := {| Variable_.name := "none"; Variable_.type := DataFieldType.Count;
              Variable_.dflt := "1"; Variable_.enumIndex := -1 |} in
  VariableStorage.SetValueFromString (TIO := Reference.text_io) v "5" ∅ = Some (tt, ∅)
  /\ VariableStorage.GetValueAsString (TIO := Reference.text_io) v ∅ = Some (EmptyString, ∅)
  /\ VariableStorage.Get (TIO := Reference.text_io) v ∅ = Some (Storage.empty, ∅).
Proof.
  intros v. apply (CallFor_Count_does_nothing Reference.text_io v "5" ∅). reflexivity.
Defined.

Lemma Compile_compiler_failure_witness :
  let H := Reference.host (GigiCompileResult.CompilerError 1) Reference.broken_graph in
  let v := Reference.radius in
  let kd := (Variable_.name v, Variable_.type v) in
  let s := set_compileResult GigiCompileResult.OK
             (set_runtimeVariables [ {| variable := v; storage := storage_of v CUint32 1 |} ]
                (set_variableStorage {[ kd := le_encode 4 3 ++ le_encode 4 1 ]}
                   (set_renderGraph Reference.blur_graph (initial_state tt)))) in
  exists s',
    Compile "broken.gg" id s = Some (GigiCompileResult.CompilerError 1, s')
    /\ m_compileResult s' = GigiCompileResult.CompilerError 1
    /\ m_renderGraph s' = Reference.broken_graph
    /\ host s' = tt
    /\ calls s' = calls s
    /\ logged s' = logged s
    /\ m_variableStorage s' = m_variableStorage s
    /\ map storage (m_runtimeVariables s') = map storage (m_runtimeVariables s)
    /\ m_RuntimeData s' = m_RuntimeData s
    /\ Execute (FL := Binary32.lib) s' = Some (true, s').
Proof.
  intros H v kd s.
  apply (Compile_compiler_failure (FL := Binary32.lib) (H := H) "broken.gg" id s
           (GigiCompileResult.CompilerError 1) Reference.broken_graph tt).
  - reflexivity.
  - discriminate.
Defined.

Lemma GetRuntimeVariableIndex_first_witness :
  let H := Reference.host GigiCompileResult.OK Reference.blur_graph in
  let s := set_runtimeVariables
             [ {| variable := Reference.radius; storage := storage_for Reference.radius |};
               {| variable := Reference.mode; storage := storage_for Reference.mode |} ]
             (initial_state tt) in
  (GetRuntimeVariableIndex s "mode" = -1
   /\ Forall (fun rv => Variable_.name (variable rv) <> "mode"%string) (m_runtimeVariables s))
  \/ (exists i rv,
        GetRuntimeVariableIndex s "mode" = Z.of_nat i
        /\ GetRuntimeVariable (Z.of_nat i) s = Some (rv, s)
        /\ Variable_.name (variable rv) = "mode"%string
        /\ forall j rv', (j < i)%nat -> m_runtimeVariables s !! j = Some rv' ->
             Variable_.name (variable rv') <> "mode"%string).
Proof.
  intros H s. apply (GetRuntimeVariableIndex_first (H := H) s "mode").
  cbn. unfold int_max. lia.
Defined.

Lemma SetRuntimeVariableToDflt_resets_witness :
  let H := Reference.host GigiCompileResult.OK Reference.blur_graph in
  let v := Reference.radius in
  let s := set_runtimeVariables [ {| variable := v; storage := storage_of v CUint32 1 |} ]
             (set_variableStorage
                {[ (Variable_.name v, Variable_.type v) := le_encode 4 5 ++ le_encode 4 1 ]}
                (initial_state tt)) in
  exists s',
    SetRuntimeVariableToDflt 0 s = Some (tt, s')
    /\ stored (m_variableStorage s') v CUint32 1 (le_encode 4 1) (le_encode 4 1)
    /\ (forall k, k <> (Variable_.name v, Variable_.type v) ->
          m_variableStorage s' !! k = m_variableStorage s !! k)
    /\ m_runtimeVariables s' = m_runtimeVariables s
    /\ same_but_variables s s'.
Proof.
  intros H v s.
  apply (SetRuntimeVariableToDflt_resets (H := H) s 0
           {| variable := v; storage := storage_of v CUint32 1 |} v CUint32 1
           (le_encode 4 5) (le_encode 4 1)).
  - reflexivity.
  - reflexivity.
  - split; [apply lookup_singleton_eq | split; reflexivity].
Defined.

Lemma CreateVariableStorage_runtime_variables_witness :
  let H := Reference.host GigiCompileResult.OK Reference.blur_graph in
  let g := Reference.blur_graph in
  let s := initial_state tt in
  exists s',
    CreateVariableStorage (TIO := Reference.text_io) g s = Some (tt, s')
    /\ m_runtimeVariables s'
       = map (fun v => {| variable := v; storage := storage_for v |}) (RenderGraph.variables g)
    /\ (forall i v, RenderGraph.variables g !! i = Some v ->
          GetRuntimeVariable (Z.of_nat i) s'
          = Some ({| variable := v; storage := storage_for v |}, s'))
    /\ keeps_values (m_variableStorage s) (m_variableStorage s')
    /\ Forall (variable_ready (m_variableStorage s')) (RenderGraph.variables g)
    /\ same_but_variables s s'.
Proof.
  intros H g s.
  apply (CreateVariableStorage_runtime_variables (TIO := Reference.text_io) (H := H)
           ReferenceText.text_io_writes_in_place g s).
  repeat constructor; intros T n _; left; apply lookup_empty.
Defined.

Lemma Compile_keeps_values_witness :
  let H := Reference.host GigiCompileResult.OK Reference.blur_graph in
  let s := initial_state tt in
  exists r s3,
    Compile (TIO := Reference.text_io) "blur.gg" id s = Some (r, s3)
    /\ (r = GigiCompileResult.OK \/ r = GigiCompileResult.InterpreterError)
    /\ m_renderGraph s3 = Reference.blur_graph
    /\ m_runtimeVariables s3
       = map (fun v => {| variable := v; storage := storage_for v |})
           (RenderGraph.variables Reference.blur_graph)
    /\ keeps_values (m_variableStorage s) (m_variableStorage s3).
Proof.
  intros H s.
  apply (Compile_keeps_values (TIO := Reference.text_io) (H := H)
           ReferenceText.text_io_writes_in_place "blur.gg" id s Reference.blur_graph tt
           [Reference.texture_node; Reference.blur_node]).
  - reflexivity.
  - repeat constructor; intros T n _; left; apply lookup_empty.
  - repeat constructor.
Defined.

Lemma Compile_registers_initialised_nodes_witness :
  let H := Reference.host GigiCompileResult.OK Reference.blur_graph in
  let s := initial_state tt in
  let nodes := [Reference.texture_node; Reference.blur_node] in
  exists r s3,
    Compile (TIO := Reference.text_io) "blur.gg" id s = Some (r, s3)
    /\ (forall k n, is_Some (m_RuntimeData s3 k !! n) ->
          exists node, node ∈ nodes /\ RenderGraphNode._index node = k
                       /\ RenderGraphNode.name node = n)
    /\ (r = GigiCompileResult.OK ->
        forall node, node ∈ nodes ->
          is_Some (m_RuntimeData s3 (RenderGraphNode._index node)
                     !! RenderGraphNode.name node)).
Proof.
  intros H s nodes.
  apply (Compile_registers_initialised_nodes (TIO := Reference.text_io) (H := H)
           ReferenceText.text_io_writes_in_place "blur.gg" id s Reference.blur_graph tt nodes).
  - reflexivity.
  - repeat constructor; intros T n _; left; apply lookup_empty.
  - repeat constructor.
Defined.

Lemma EvaluateConditionTyped_all_components_witness :
  let H := Reference.host GigiCompileResult.OK Reference.blur_graph in
  let s := initial_state tt in
  let condition := {| Condition.variable1Index := 0; Condition.variable2Index := 1;
                      Condition.value2 := ""; Condition.comparison := ConditionComparison.NotEquals;
                      Condition.alwaysFalse := false |} in
  let a := fun k : nat => match k with O => le_encode 4 1 | _ => le_encode 4 2 end in
  let b := fun k : nat => match k with O => le_encode 4 1 | _ => le_encode 4 3 end in
  EvaluateConditionTyped (FL := Binary32.lib) (TIO := Reference.text_io) CUint32 condition
    (PLocal (le_encode 4 1 ++ le_encode 4 2) 0) (PLocal (le_encode 4 1 ++ le_encode 4 3) 0) 2 s
  = Some (forallb (fun k => DoComparison_bytes (FL := Binary32.lib) CUint32 (a k) (b k)
                              ConditionComparison.NotEquals) (seq 0 2), s).
Proof.
  intros H s condition a b.
  apply (EvaluateConditionTyped_all_components (FL := Binary32.lib) (TIO := Reference.text_io)
           (H := H) CUint32 condition _ _ 2 s a b).
  - discriminate.
  - intros [|[|k]] Hk; [split; reflexivity | split; reflexivity | lia].
Defined.

Lemma DoOp_Noop_assigns_witness :
  DoOp_each (FL := Binary32.lib) CInt SetVariableOperator.Noop
    (le_encode 4 7 ++ le_encode 4 (-8)) (le_encode 4 0 ++ le_encode 4 0)
    (le_encode 4 1 ++ le_encode 4 2) 0 2
  = Some (take (2 * sizeof CInt) (drop (0 * sizeof CInt) (le_encode 4 7 ++ le_encode 4 (-8)))).
Proof.
  apply (DoOp_Noop_assigns (FL := Binary32.lib) CInt); try discriminate; cbn; lia.
Defined.

Lemma Execute_keeps_configuration_witness :
  let H := Reference.host GigiCompileResult.OK Reference.fragile_graph in
  let s := set_compileResult GigiCompileResult.OK
             (set_renderGraph Reference.fragile_graph (initial_state tt)) in
  match Execute (FL := Binary32.lib) (TIO := Reference.text_io) s with
  | Some (ok, s') =>
      m_compileResult s' = m_compileResult s
      /\ m_renderGraph s' = m_renderGraph s
      /\ m_tempDirectory s' = m_tempDirectory s
      /\ m_runtimeVariables s' = m_runtimeVariables s
      /\ logged s' = logged s
  | None => True
  end.
Proof.
  intros H s.
  destruct (Execute (FL := Binary32.lib) (TIO := Reference.text_io) (H := H) s)
    as [[ok s']|] eqn:E; [|exact I].
  apply (Execute_keeps_configuration (FL := Binary32.lib) (TIO := Reference.text_io)
           (H := H) s ok s' E).
Defined.

Lemma EvaluateConditionTyped_Enum_compares_index_witness :
  let H := Reference.host GigiCompileResult.OK Reference.blur_graph in
  let s := set_renderGraph Reference.blur_graph (initial_state tt) in
  let condition := {| Condition.variable1Index := 1; Condition.variable2Index := -1;
                      Condition.value2 := "modename::fast";
                      Condition.comparison := ConditionComparison.Equals;
                      Condition.alwaysFalse := false |} in
  EvaluateConditionTyped_Enum (FL := Binary32.lib) condition
    (PLocal (le_encode 4 1) 0) (PLocal (replicate 4 x00) 0) 1 s
  = Some (DoComparison_int (decode_int I32 (le_encode 4 1))
            (EnumLabelToValue Reference.mode_enum "modename::fast")
            ConditionComparison.Equals, s).
Proof.
  intros H s condition.
  apply (EvaluateConditionTyped_Enum_compares_index (FL := Binary32.lib)
           (H := H) condition (PLocal (le_encode 4 1) 0)
           (replicate 4 x00) (le_encode 4 1) s Reference.mode Reference.mode_enum).
  - reflexivity.
  - reflexivity.
  - reflexivity.
  - cbn. lia.
Defined.

Lemma ExecuteSetvar_componentwise_witness :
  let H := Reference.host GigiCompileResult.OK Reference.blur_graph in
  let v := Reference.radius in
  let kd := (Variable_.name v, Variable_.type v) in
  let bd := le_encode 4 3 ++ le_encode 4 1 in
  let s := set_runtimeVariables [ {| variable := v; storage := storage_of v CUint32 1 |} ]
             (set_variableStorage {[ kd := bd ]}
                (set_renderGraph Reference.blur_graph (initial_state tt))) in
  ExecuteSetvar (FL := Binary32.lib) (TIO := Reference.text_io) (SC := Reference.schema)
    Reference.double_radius s
  = Some (tt, set_variableStorage
                (<[kd := le_encode 4 6 ++ drop (1 * sizeof CUint32) bd]> (m_variableStorage s)) s).
Proof.
  intros H v kd bd s.
  apply (ExecuteSetvar_componentwise (FL := Binary32.lib) (TIO := Reference.text_io)
           (SC := Reference.schema) (H := H)
           Reference.double_radius s v {| variable := v; storage := storage_of v CUint32 1 |}
           CUint32 kd bd bd
           (SetFromString (TextIO := Reference.text_io) CUint32 "2" 1
              (replicate (1 * sizeof CUint32) x00)
            ++ replicate (4 - 1 * sizeof CUint32) x00)
           (le_encode 4 6)).
  - exact ReferenceText.text_io_writes_in_place.
  - reflexivity.
  - reflexivity.
  - reflexivity.
  - reflexivity.
  - apply lookup_singleton_eq.
  - reflexivity.
  - reflexivity.
  - reflexivity.
  - reflexivity.
  - reflexivity.
  - reflexivity.
  - reflexivity.
  - eexists. split; [reflexivity | apply lookup_singleton_eq].
  - split; [cbn; lia | reflexivity].
  - vm_compute. reflexivity.
Defined.

Lemma EvaluateCondition_two_variables_witness :
  let H := Reference.host GigiCompileResult.OK Reference.blur_graph in
  let v := Reference.radius in
  let kd := (Variable_.name v, Variable_.type v) in
  let s := set_runtimeVariables [ {| variable := v; storage := storage_of v CUint32 1 |} ]
             (set_variableStorage {[ kd := le_encode 4 3 ++ le_encode 4 1 ]}
                (set_renderGraph Reference.blur_graph (initial_state tt))) in
  let condition := {| Condition.variable1Index := 0; Condition.variable2Index := 0;
                      Condition.value2 := ""; Condition.comparison := ConditionComparison.LTE;
                      Condition.alwaysFalse := false |} in
  EvaluateCondition (FL := Binary32.lib) (TIO := Reference.text_io) (SC := Reference.schema)
    condition s
  = Some (forallb (fun k : nat => DoComparison_bytes (FL := Binary32.lib) CUint32
                                    (le_encode 4 3) (le_encode 4 3) ConditionComparison.LTE)
            (seq 0 1), s).
Proof.
  intros H v kd s condition.
  apply (EvaluateCondition_two_variables (FL := Binary32.lib) (TIO := Reference.text_io)
           (SC := Reference.schema) (H := H) condition s v
           {| variable := v; storage := storage_of v CUint32 1 |}
           {| variable := v; storage := storage_of v CUint32 1 |}
           CUint32 (fun _ => le_encode 4 3) (fun _ => le_encode 4 3)).
  - reflexivity.
  - discriminate.
  - discriminate.
  - discriminate.
  - reflexivity.
  - reflexivity.
  - reflexivity.
  - reflexivity.
  - intros [|k] Hk; [|cbn in Hk; lia].
    assert (Hc : component (m_variableStorage s) CUint32 (PStorage kd 0) 0
                 = Some (le_encode 4 3)).
    { unfold component, ptr_index. change (Z.of_nat 0 <? 0) with false. cbv iota.
      unfold s. cbn [VariableStorage.read m_variableStorage set_runtimeVariables
                     set_variableStorage].
      rewrite lookup_singleton_eq. reflexivity. }
    split; exact Hc.
Defined.

Lemma ExecuteSetvar_selected_component_witness :
  let H := Reference.host GigiCompileResult.OK Reference.blur_graph in
  let v := Reference.radius in
  let kd := (Variable_.name v, Variable_.type v) in
  let bd := le_encode 4 3 ++ le_encode 4 1 in
  let s := set_runtimeVariables [ {| variable := v; storage := storage_of v CUint32 1 |} ]
             (set_variableStorage {[ kd := bd ]}
                (set_renderGraph Reference.blur_graph (initial_state tt))) in
  let setVar :=
    {| SetVariable.destination := {| VariableReference.variableIndex := 0 |};
       SetVariable.destinationIndex := 0;
       SetVariable.AVar := {| VariableReference.variableIndex := 0 |};
       SetVariable.AVarIndex := -1;
       SetVariable.ALiteral := "";
       SetVariable.ANode := Reference.unbound;
       SetVariable.BVar := Reference.no_variable;
       SetVariable.BVarIndex := -1;
       SetVariable.BLiteral := "2";
       SetVariable.BNode := Reference.unbound;
       SetVariable.op := SetVariableOperator.Add;
       SetVariable.setBefore := true;
       SetVariable.condition := Reference.unconditional |} in
  ExecuteSetvar (FL := Binary32.lib) (TIO := Reference.text_io) (SC := Reference.schema)
    setVar s
  = Some (tt, set_variableStorage
                (<[kd := take (selected 0 * sizeof CUint32) bd ++ le_encode 4 5
                         ++ drop (selected 0 * sizeof CUint32 + sizeof CUint32) bd]>
                   (m_variableStorage s)) s).
Proof.
  intros H v kd bd s setVar.
  apply (ExecuteSetvar_selected_component (FL := Binary32.lib) (TIO := Reference.text_io)
           (SC := Reference.schema) (H := H)
           setVar s v {| variable := v; storage := storage_of v CUint32 1 |}
           CUint32 kd bd bd
           (SetFromString (TextIO := Reference.text_io) CUint32 "2" 1
              (replicate (1 * sizeof CUint32) x00)
            ++ replicate (4 - 1 * sizeof CUint32) x00)
           (le_encode 4 3) (le_encode 4 2) (le_encode 4 3) (le_encode 4 5)).
  - exact ReferenceText.text_io_writes_in_place.
  - reflexivity.
  - reflexivity.
  - reflexivity.
  - reflexivity.
  - apply lookup_singleton_eq.
  - reflexivity.
  - reflexivity.
  - reflexivity.
  - reflexivity.
  - cbn. lia.
  - cbn. lia.
  - cbn. lia.
  - left. discriminate.
  - eexists. split; [reflexivity | apply lookup_singleton_eq].
  - split; [cbn; lia | reflexivity].
  - reflexivity.
  - vm_compute. reflexivity.
  - reflexivity.
  - vm_compute. reflexivity.
Defined.
